(** * 2048: board state machine, move engine, history and move search

    A shallow embedding of [twenty_forty_eight.py].  Python integers are
    [Z]; the side of a board, [max_history] and list positions are counts
    and are [nat]; a Python list that is indexed and updated in place is a
    [list] read with stdpp's lookup and written with stdpp's insert, an
    access out of range raising [IndexError] as Python does.  Each Python
    class is a module holding a record for the instance attributes and one
    definition per method.  A method that can raise returns a [res]; one
    that changes an object, or draws from the random source, passes the
    state along.  The one loop whose end is not plain from its shape, the
    [while] of [_process_move], runs on fuel; [process_move_fuel] shows
    that the fuel it is given never runs out. *)

From Stdlib Require Import ZArith QArith Lia.
From stdpp Require Import base list strings sets.

Local Open Scope string_scope.
Local Open Scope list_scope.
Local Open Scope Z_scope.

(** ** Results of a call: a value, a Python exception, or fuel exhausted *)

Inductive exn : Set :=
| IndexError
| ValueError
| ZeroDivisionError
| AttributeError
| NameError
| TypeError.

Inductive res (A : Type) : Type :=
| Ok (a : A)
| Raise (e : exn)
| Timeout.

Arguments Ok {A} a.
Arguments Raise {A} e.
Arguments Timeout {A}.

#[global] Instance res_ret : MRet res := @Ok.
#[global] Instance res_bind : MBind res := λ A B f m,
  match m with
  | Ok a => f a
  | Raise e => Raise e
  | Timeout => Timeout
  end.

(** [l[i]] and [l[i] = v] on a Python list, for an index that is not
    negative. *)
Definition getitem {A} (l : list A) (i : nat) : res A :=
  match l !! i with
  | Some x => Ok x
  | None => Raise IndexError
  end.

Definition setitem {A} (l : list A) (i : nat) (v : A) : res (list A) :=
  if decide (i < length l)%nat then Ok (<[i := v]> l) else Raise IndexError.

(** [for x in xs: st = body(st, x)], stopping at the first exception. *)
Fixpoint for_each {S X} (body : S → X → res S) (st : S) (xs : list X) : res S :=
  match xs with
  | [] => Ok st
  | x :: xs' => st' ← body st x; for_each body st' xs'
  end.

(** [range(n)], [range(n - 1, -1, -1)] and [range(start, stop, step)]. *)
Definition range (n : nat) : list nat := seq 0 n.

Fixpoint range_down (n : nat) : list nat :=
  match n with
  | O => []
  | S k => k :: range_down k
  end.

(** For a positive [step]; the source only builds a stepped range inside
    [for i in range(size)], where [step = size] is positive. *)
Definition range_step (start stop step : nat) : list nat :=
  (λ k, start + k * step)%nat <$> seq 0 ((stop - start + step - 1) / step).

(** ** Code with state

    A method that mutates an object is given the object's state and
    returns its result with the state it leaves; after a raise the state
    is what the statements before it made it. *)
Definition stateful (S A : Type) : Type := S → res A * S.

#[global] Instance stateful_ret {S} : MRet (stateful S) := λ A a s, (Ok a, s).
#[global] Instance stateful_bind {S} : MBind (stateful S) := λ A B f m s,
  match m s with
  | (Ok a, s') => f a s'
  | (Raise e, s') => (Raise e, s')
  | (Timeout, s') => (Timeout, s')
  end.

(** A call that leaves the state alone. *)
Definition pure {S A} (m : res A) : stateful S A := λ s, (m, s).

(** ** The random source

    The [random] module is an external collaborator.  It is modelled as an
    infinite stream of raw words; [random.choice] and [random.random] each
    consume one word.  [random.choice(seq)] is [seq[k]] for an index [k]
    below [len(seq)], and [random.random()] is a 53-bit fraction in
    [[0, 1)]. *)

Definition Random : Type := nat → N.

Definition advance (r : Random) : Random := λ n, r (S n).

(** Code that draws from the random source. *)
Abbreviation rand := (stateful Random).

Definition choice {A} (l : list A) : rand A := λ r,
  match l with
  | [] => (Raise IndexError, r)
  | _ => (getitem l (N.to_nat (r O) mod length l), advance r)
  end.

Definition random : rand Q := λ r,
  (Ok (Z.of_N (r O mod 2 ^ 53) # 2 ^ 53), advance r).

(** ** GameState *)

Inductive GameState : Set := START_SCREEN | PLAYING | GAME_OVER.

#[global] Instance GameState_eq_dec : EqDecision GameState.
Proof. solve_decision. Defined.

(** [a % b] and [a // b] on indices; [b = 0] raises. *)
Definition py_mod (a b : nat) : res nat :=
  if decide (b = O) then Raise ZeroDivisionError else Ok (a mod b)%nat.

Definition py_div (a b : nat) : res nat :=
  if decide (b = O) then Raise ZeroDivisionError else Ok (a / b)%nat.

(** ** GameBoard *)

Module GameBoard.

(** [total_cells] is set to [size * size] by the constructor and never
    assigned again, so it is kept as a derived attribute. *)
Record t : Type := Build { size : nat; board : list Z }.

Definition total_cells (self : t) : nat := (size self * size self)%nat.

Definition set_board (self : t) (cells : list Z) : t :=
  {| size := size self; board := cells |}.

(** [[i for i in range(self.total_cells) if self.board[i] == 0]] *)
Definition empty_cells (self : t) : res (list nat) :=
  for_each
    (λ acc i, v ← getitem (board self) i;
              Ok (if decide (v = 0) then acc ++ [i] else acc))
    [] (range (total_cells self)).

Definition _add_random_tile (self : t) : rand (bool * t) :=
  empty_cells ← pure (empty_cells self);
  match empty_cells with
  | [] => mret (false, self)
  | _ =>
    position ← choice empty_cells;
    u ← random;
    cells ← pure (setitem (board self) position
                    (if Qlt_le_dec u (9 # 10) then 2 else 4));
    mret (true, set_board self cells)
  end.

Definition _initialize_board (self : t) : rand t :=
  let self := set_board self (replicate (total_cells self) 0) in
  '(_, self) ← _add_random_tile self;
  '(_, self) ← _add_random_tile self;
  mret self.

Definition __init__ (size : nat) : rand t :=
  _initialize_board {| size := size; board := replicate (size * size) 0 |}.

(** [guard and self.board[j] == value]: the cell is read only when the
    guard holds. *)
Definition and_equal (self : t) (guard : bool) (j : nat) (value : Z) : res bool :=
  if guard then neighbour ← getitem (board self) j; Ok (bool_decide (neighbour = value))
  else Ok false.

(** The loop of [is_game_over] over the indices still to visit;
    [Ok false] is an early [return False]. *)
Fixpoint is_game_over_loop (self : t) (indices : list nat) : res bool :=
  match indices with
  | [] => Ok true
  | i :: rest =>
    value ← getitem (board self) i;
    col ← py_mod i (size self);
    right_equal ← and_equal self (bool_decide (col < size self - 1)%nat) (i + 1) value;
    if (right_equal : bool) then Ok false else
    row ← py_div i (size self);
    bottom_equal ← and_equal self (bool_decide (row < size self - 1)%nat) (i + size self) value;
    if (bottom_equal : bool) then Ok false else
    is_game_over_loop self rest
  end.

Definition is_game_over (self : t) : res bool :=
  if bool_decide (0 ∈ board self) then Ok false
  else is_game_over_loop self (range (total_cells self)).

Definition get_max_value (self : t) : Z :=
  match board self with
  | [] => 0
  | x :: xs => foldl Z.max x xs
  end.

Definition get_empty_cell_count (self : t) : Z :=
  Z.of_nat (length (filter (λ v, v = 0) (board self))).

(** [copy] builds a new board through the constructor, which draws two
    tiles, and then replaces its cells by a copy of this board's. *)
Definition copy (self : t) : rand t :=
  new_board ← __init__ (size self);
  mret (set_board new_board (board self)).

End GameBoard.

(** ** MoveDirection *)

(** [d.get(key)] on a dictionary kept as an association list. *)
Fixpoint dict_get {V} (d : list (string * V)) (key : string) : option V :=
  match d with
  | [] => None
  | (k, v) :: d' => if decide (k = key) then Some v else dict_get d' key
  end.

Module MoveDirection.

Record t : Type :=
  Build { size : nat; up : list nat; down : list nat; left : list nat; right : list nat }.

Definition total_cells (self : t) : nat := (size self * size self)%nat.

Definition __init__ (size : nat) : t :=
  let total_cells := (size * size)%nat in
  {| size := size;
     up := range total_cells;
     down := range_down total_cells;
     left := mjoin ((λ i, range_step i total_cells size) <$> range size);
     right := mjoin ((λ i, range_step i total_cells size) <$> range_down size) |}.

Definition directions (self : t) : list (string * list nat) :=
  [("w", up self); ("a", left self); ("s", down self); ("d", right self)].

Definition get_direction_indices (self : t) (direction : string) : list nat :=
  default [] (dict_get (directions self) direction).

End MoveDirection.

(** ** GameLogic *)

Module GameLogic.

Record t : Type := Build { board : GameBoard.t; move_direction : MoveDirection.t }.

(** The [while next_i >= 0] loop of [_process_move] for the tile now at
    [pos]: the cells and the score so far are threaded through. *)
Fixpoint look_backward (fuel : nat) (size : nat) (move_indices : list nat)
    (cells : list Z) (pos : nat) (next_i : Z) (score : Z) : res (list Z * Z) :=
  if decide (next_i < 0) then Ok (cells, score) else
  match fuel with
  | O => Timeout
  | S fuel =>
    next_pos ← getitem move_indices (Z.to_nat next_i);
    target ← getitem cells next_pos;
    if decide (target = 0) then
      tile ← getitem cells pos;
      cells ← setitem cells next_pos tile;
      cells ← setitem cells pos 0;
      look_backward fuel size move_indices cells next_pos (next_i - Z.of_nat size) score
    else
      tile ← getitem cells pos;
      if decide (tile = target) then
        cells ← setitem cells next_pos (2 * target);
        cells ← setitem cells pos 0;
        merged ← getitem cells next_pos;
        Ok (cells, score + merged)
      else Ok (cells, score)
  end.

(** One turn of [for i in range(self.board.total_cells)].  The local
    [add_point] of the source is written and never read; it is left out. *)
Definition process_position (size : nat) (move_indices : list nat)
    (st : list Z * Z) (i : nat) : res (list Z * Z) :=
  let '(cells, score) := st in
  pos ← getitem move_indices i;
  tile ← getitem cells pos;
  if decide (tile = 0) then Ok (cells, score)
  else look_backward (S i) size move_indices cells pos
         (Z.of_nat i - Z.of_nat size) score.

(** Returns the score gained and the cells of [self.board] after the move. *)
Definition _process_move (self : t) (direction : string) : res (Z * list Z) :=
  let move_indices :=
    MoveDirection.get_direction_indices (move_direction self) direction in
  '(cells, score) ←
    for_each (process_position (GameBoard.size (board self)) move_indices)
      (GameBoard.board (board self), 0)
      (range (GameBoard.total_cells (board self)));
  Ok (score, cells).

Definition make_move (self : t) (direction : string) : rand (Z * bool * t) :=
  match dict_get (MoveDirection.directions (move_direction self)) direction with
  | None => mret (0, false, self)
  | Some _ =>
    let original_board := GameBoard.board (board self) in
    '(score, cells) ← pure (_process_move self direction);
    let self := {| board := GameBoard.set_board (board self) cells;
                   move_direction := move_direction self |} in
    let move_made := bool_decide (cells ≠ original_board) in
    if move_made then
      '(_, b) ← GameBoard._add_random_tile (board self);
      mret (score, move_made, {| board := b; move_direction := move_direction self |})
    else mret (score, move_made, self)
  end.

End GameLogic.

(** ** AIPlayer *)

(** [float('-inf')] or an integer: the running [best_score] of the search. *)
Inductive bound : Set := NegInf | Fin (z : Z).

(** [value > best] for an integer [value]. *)
Definition exceeds (value : Z) (best : bound) : bool :=
  match best with
  | NegInf => true
  | Fin b => bool_decide (b < value)
  end.

(** The counting dictionary of [_calculate_variety_score], in insertion
    order: [d.get(key, 0)] and [d[key] = v]. *)
Fixpoint count_get (d : list (Z * Z)) (key : Z) : Z :=
  match d with
  | [] => 0
  | (k, c) :: d' => if decide (k = key) then c else count_get d' key
  end.

Fixpoint count_set (d : list (Z * Z)) (key : Z) (v : Z) : list (Z * Z) :=
  match d with
  | [] => [(key, v)]
  | (k, c) :: d' => if decide (k = key) then (k, v) :: d' else (k, c) :: count_set d' key v
  end.

(** [for x in xs: st = body(st, x)] for a body that draws from the random
    source. *)
Fixpoint for_each_rand {S X} (body : S → X → rand S) (st : S) (xs : list X) : rand S :=
  match xs with
  | [] => mret st
  | x :: xs' => st' ← body st x; for_each_rand body st' xs'
  end.

Module AIPlayer.

Record t : Type := Build { name : string; game_logic : GameLogic.t; stuck_counter : Z }.

Definition __init__ (game_logic : GameLogic.t) : t :=
  {| name := "AI"; game_logic := game_logic; stuck_counter := 0 |}.

Definition _calculate_bottom_right_bias (board : GameBoard.t) : res Z :=
  for_each
    (λ total i,
       col ← py_mod i (GameBoard.size board);
       row ← py_div i (GameBoard.size board);
       let weight := Z.of_nat (col + row) ^ 3 in
       cell ← getitem (GameBoard.board board) i;
       Ok (total + weight * cell))
    0 (range (GameBoard.total_cells board)).

Definition _calculate_variety_score (board : GameBoard.t) (max_value : Z) : Z :=
  let variety :=
    foldl (λ variety value, count_set variety value (count_get variety value + 1))
      [] (GameBoard.board board) in
  foldl (λ variety_score '(value, count),
           if decide (value ≠ 0) then variety_score + (max_value / value) * count
           else variety_score)
    0 variety.

Definition _evaluate_position (board : GameBoard.t) (score : Z) : res Z :=
  over ← GameBoard.is_game_over board;
  if (over : bool) then Ok (-1 * score ^ 4) else
  let empty_cells := GameBoard.get_empty_cell_count board in
  let max_value := GameBoard.get_max_value board in
  bottom_right_bias ← _calculate_bottom_right_bias board;
  let variety_score := _calculate_variety_score board max_value in
  Ok (empty_cells * empty_cells * max_value * 1024
      + bottom_right_bias * 4
      + max_value * score
      + variety_score).

(** One turn of the loop of [_get_best_move] over the four keys. *)
Definition try_direction (self : t) (board : GameBoard.t) (score : Z)
    (st : string * bound) (direction : string) : rand (string * bound) :=
  let '(best_move, best_score) := st in
  test_board ← GameBoard.copy board;
  let test_logic :=
    {| GameLogic.board := test_board;
       GameLogic.move_direction := GameLogic.move_direction (game_logic self) |} in
  '(move_score, move_made, test_logic) ← GameLogic.make_move test_logic direction;
  if (move_made : bool) then
    let total_score := score + move_score in
    heuristic_value ←
      pure (_evaluate_position (GameLogic.board test_logic) total_score);
    if exceeds heuristic_value best_score
    then mret (direction, Fin heuristic_value)
    else mret (best_move, best_score)
  else mret (best_move, best_score).

Definition _get_best_move (self : t) (board : GameBoard.t) (score : Z)
    : rand (string * bound) :=
  for_each_rand (try_direction self board score) ("w", NegInf) ["w"; "a"; "s"; "d"].

Definition get_move (self : t) (board : GameBoard.t) (score : Z) : rand string :=
  if decide (15 < stuck_counter self) then choice ["w"; "a"; "s"; "d"]
  else if decide (5 < stuck_counter self) then choice ["a"; "s"; "d"]
  else λ r,
    match _get_best_move self board score r with
    | (Ok (best_move, _), r') => (Ok best_move, r')
    | (Raise _, r') => choice ["w"; "a"; "s"; "d"] r'
    | (Timeout, r') => (Timeout, r')
    end.

End AIPlayer.

(** ** GameHistory *)

(** [l.pop(-1)] and [l.pop(0)]: the element removed and the list left. *)
Definition pop_last {A} (l : list A) : res (A * list A) :=
  match last l with
  | Some x => Ok (x, removelast l)
  | None => Raise IndexError
  end.

Definition pop_first {A} (l : list A) : res (A * list A) :=
  match l with
  | x :: l' => Ok (x, l')
  | [] => Raise IndexError
  end.

Module GameHistory.

Record t : Type :=
  Build { max_history : nat; board_history : list (list Z); score_history : list Z }.

Definition __init__ (max_history : nat) : t :=
  {| max_history := max_history; board_history := []; score_history := [] |}.

Definition with_boards (self : t) (boards : list (list Z)) : t :=
  {| max_history := max_history self; board_history := boards;
     score_history := score_history self |}.

Definition with_scores (self : t) (scores : list Z) : t :=
  {| max_history := max_history self; board_history := board_history self;
     score_history := scores |}.

(** [self.board_history.pop(-1)], [.pop(0)] and the same on
    [self.score_history]. *)
Definition pop_board (pop : list (list Z) → res (list Z * list (list Z)))
    : stateful t (list Z) := λ self,
  match pop (board_history self) with
  | Ok (board, boards) => (Ok board, with_boards self boards)
  | Raise e => (Raise e, self)
  | Timeout => (Timeout, self)
  end.

Definition pop_score (pop : list Z → res (Z * list Z)) : stateful t Z := λ self,
  match pop (score_history self) with
  | Ok (score, scores) => (Ok score, with_scores self scores)
  | Raise e => (Raise e, self)
  | Timeout => (Timeout, self)
  end.

(** [board.copy()] is the list [board] again: the stored cells are a
    value of their own (module [Aliasing] below makes the objects
    explicit). *)
Definition add_state (board : list Z) (score : Z) : stateful t unit := λ self,
  if bool_decide (board_history self = [])
     || bool_decide (last (board_history self) ≠ Some board)
  then
    let self := with_boards self (board_history self ++ [board]) in
    let self := with_scores self (score_history self ++ [score]) in
    if decide (max_history self + 1 < length (board_history self))%nat then
      (_ ← pop_board pop_first; _ ← pop_score pop_first; mret ()) self
    else (Ok (), self)
  else (Ok (), self).

Definition can_undo (self : t) : bool :=
  bool_decide (1 < length (board_history self))%nat.

Definition undo : stateful t (list Z * Z) := λ self,
  if negb (can_undo self) then (Raise ValueError, self) else
  (_ ← pop_board pop_last;
   _ ← pop_score pop_last;
   board ← pop_board pop_last;
   score ← pop_score pop_last;
   mret (board, score)) self.

End GameHistory.

(** ** Game2048 *)

(** What an attribute or a module-level name can hold, as far as
    [get_ai_move] looks at it. *)
Inductive value : Type :=
| VNone
| VInt (z : Z)
| VState (s : GameState)
| VInstance (class_name : string)
| VClass (class_name : string)
| VModule (module_name : string)
| VFunction (function_name : string).

#[global] Instance value_eq_dec : EqDecision value.
Proof. solve_decision. Defined.

(** The names bound at module level: the imports, the classes and [main]. *)
Definition module_globals : list (string * value) :=
  [("random", VModule "random"); ("pygame", VModule "pygame"); ("os", VModule "os");
   ("copy", VModule "copy");
   ("List", VClass "List"); ("Tuple", VClass "Tuple"); ("Optional", VClass "Optional");
   ("Dict", VClass "Dict"); ("Any", VClass "Any");
   ("Enum", VClass "Enum"); ("dataclass", VFunction "dataclass");
   ("GameState", VClass "GameState"); ("GameConfig", VClass "GameConfig");
   ("Colors", VClass "Colors"); ("GameBoard", VClass "GameBoard");
   ("MoveDirection", VClass "MoveDirection"); ("GameLogic", VClass "GameLogic");
   ("Player", VClass "Player"); ("HumanPlayer", VClass "HumanPlayer");
   ("AIPlayer", VClass "AIPlayer"); ("GameHistory", VClass "GameHistory");
   ("Game2048", VClass "Game2048"); ("main", VFunction "main")].

Definition global_name (name : string) : res value :=
  match dict_get module_globals name with
  | Some v => Ok v
  | None => Raise NameError
  end.

(** The methods of the classes whose instances a session holds. *)
Definition class_methods (class_name : string) : list string :=
  if decide (class_name = "AIPlayer") then
    ["__init__"; "get_move"; "_get_best_move"; "_evaluate_position";
     "_calculate_bottom_right_bias"; "_calculate_variety_score"; "__str__"]
  else [].

(** [v.name] for a value that is not the session itself. *)
Definition value_attr (v : value) (name : string) : res value :=
  match v with
  | VClass class_name =>
    if decide (class_name = "GameState") then
      if decide (name = "START_SCREEN") then Ok (VState START_SCREEN)
      else if decide (name = "PLAYING") then Ok (VState PLAYING)
      else if decide (name = "GAME_OVER") then Ok (VState GAME_OVER)
      else Raise AttributeError
    else Raise AttributeError
  | VInstance class_name =>
    if bool_decide (name ∈ class_methods class_name) then Ok (VFunction name)
    else Raise AttributeError
  | _ => Raise AttributeError
  end.

(** [a > n] for an integer literal [n]. *)
Definition value_gt (a : value) (n : Z) : res bool :=
  match a with
  | VInt z => Ok (bool_decide (n < z))
  | _ => Raise TypeError
  end.

Inductive Player : Set := HumanPlayer | AIPlayer.

#[global] Instance Player_eq_dec : EqDecision Player.
Proof. solve_decision. Defined.

Module Game2048.

(** [self.game_logic] holds [self.board] and [self.move_direction]
    themselves, and [self.ai_player] holds [self.game_logic]: each shared
    object is kept once, and the views of it are derived.  Of the two
    players only the stuck counter of the automatic one is state that
    the session's methods touch. *)
Record t : Type := Build {
  BOARD_SIZE : nat;
  MAX_HISTORY : nat;
  board : GameBoard.t;
  move_direction : MoveDirection.t;
  history : GameHistory.t;
  stuck_counter : Z;
  state : GameState;
  current_player : option Player;
  score : Z;
  best_score : Z
}.

Definition game_logic (self : t) : GameLogic.t :=
  {| GameLogic.board := board self; GameLogic.move_direction := move_direction self |}.

Definition ai_player (self : t) : AIPlayer.t :=
  {| AIPlayer.name := "AI"; AIPlayer.game_logic := game_logic self;
     AIPlayer.stuck_counter := stuck_counter self |}.

Definition set_board (b : GameBoard.t) (self : t) : t :=
  Build (BOARD_SIZE self) (MAX_HISTORY self) b (move_direction self) (history self)
    (stuck_counter self) (state self) (current_player self) (score self) (best_score self).
Definition set_history (h : GameHistory.t) (self : t) : t :=
  Build (BOARD_SIZE self) (MAX_HISTORY self) (board self) (move_direction self) h
    (stuck_counter self) (state self) (current_player self) (score self) (best_score self).
Definition set_stuck_counter (n : Z) (self : t) : t :=
  Build (BOARD_SIZE self) (MAX_HISTORY self) (board self) (move_direction self) (history self)
    n (state self) (current_player self) (score self) (best_score self).
Definition set_state (st : GameState) (self : t) : t :=
  Build (BOARD_SIZE self) (MAX_HISTORY self) (board self) (move_direction self) (history self)
    (stuck_counter self) st (current_player self) (score self) (best_score self).
Definition set_current_player (p : option Player) (self : t) : t :=
  Build (BOARD_SIZE self) (MAX_HISTORY self) (board self) (move_direction self) (history self)
    (stuck_counter self) (state self) p (score self) (best_score self).
Definition set_score (n : Z) (self : t) : t :=
  Build (BOARD_SIZE self) (MAX_HISTORY self) (board self) (move_direction self) (history self)
    (stuck_counter self) (state self) (current_player self) n (best_score self).
Definition set_best_score (n : Z) (self : t) : t :=
  Build (BOARD_SIZE self) (MAX_HISTORY self) (board self) (move_direction self) (history self)
    (stuck_counter self) (state self) (current_player self) (score self) n.

(** [__init__] with the best score that [_load_best_score] read from
    the file; the window and the fonts are left out. *)
Definition __init__ (BOARD_SIZE MAX_HISTORY : nat) (loaded_best_score : Z) : rand t :=
  board ← GameBoard.__init__ BOARD_SIZE;
  mret {| BOARD_SIZE := BOARD_SIZE; MAX_HISTORY := MAX_HISTORY;
          board := board;
          move_direction := MoveDirection.__init__ BOARD_SIZE;
          history := GameHistory.__init__ MAX_HISTORY;
          stuck_counter := 0;
          state := START_SCREEN;
          current_player := None;
          score := 0;
          best_score := loaded_best_score |}.

(** A call on [self.history]. *)
Definition on_history {A} (m : stateful GameHistory.t A) : stateful t A := λ self,
  let '(a, h) := m (history self) in (a, set_history h self).

Definition start_game (is_human : bool) (self : t) : rand t :=
  let self := set_current_player (Some (if is_human then HumanPlayer else AIPlayer)) self in
  let self := set_state PLAYING self in
  let self := set_score 0 self in
  b ← GameBoard._initialize_board (board self);
  let self := set_board b self in
  let self := set_history (GameHistory.__init__ (MAX_HISTORY self)) self in
  let '(added, self) :=
    on_history (GameHistory.add_state (GameBoard.board (board self)) (score self)) self in
  _ ← pure added;
  if decide (current_player self = Some AIPlayer)
  then mret (set_stuck_counter 0 self)
  else mret self.

(** The result [move_made] and the session after the call.  Saving the
    best score to its file is the collaborator's work. *)
Definition make_move (direction : string) (self : t) : rand (bool * t) :=
  if decide (state self ≠ PLAYING) then mret (false, self) else
  let '(added, self) :=
    on_history (GameHistory.add_state (GameBoard.board (board self)) (score self)) self in
  _ ← pure added;
  '(score_gained, move_made, logic) ← GameLogic.make_move (game_logic self) direction;
  let self := set_board (GameLogic.board logic) self in
  if (move_made : bool) then
    let self := set_score (score self + score_gained) self in
    let self :=
      if decide (current_player self = Some AIPlayer)
      then set_stuck_counter 0 self else self in
    let self :=
      if decide (best_score self < score self)
      then set_best_score (score self) self else self in
    over ← pure (GameBoard.is_game_over (board self));
    let self := if (over : bool) then set_state GAME_OVER self else self in
    mret (move_made, self)
  else
    let self :=
      if decide (current_player self = Some AIPlayer)
      then set_stuck_counter (stuck_counter self + 1) self else self in
    mret (move_made, self).

Definition undo_move : stateful t bool := λ self,
  if negb (GameHistory.can_undo (history self)) || bool_decide (state self ≠ PLAYING)
  then (Ok false, self) else
  match on_history GameHistory.undo self with
  | (Ok (cells, score), self) =>
    (Ok true, set_score score (set_board (GameBoard.set_board (board self) cells) self))
  | (Raise ValueError, self) => (Ok false, self)
  | (Raise e, self) => (Raise e, self)
  | (Timeout, self) => (Timeout, self)
  end.

Definition reset_game (self : t) : rand t :=
  let is_human := bool_decide (current_player self = Some HumanPlayer) in
  start_game is_human self.

Definition clear_best_score (self : t) : t := set_best_score 0 self.

(** The attributes of a session: those that [__init__] and the other
    methods assign, then the methods of the class. *)
Definition attributes (self : t) : list (string * value) :=
  [("config", VInstance "GameConfig"); ("colors", VInstance "Colors");
   ("board", VInstance "GameBoard"); ("move_direction", VInstance "MoveDirection");
   ("game_logic", VInstance "GameLogic"); ("history", VInstance "GameHistory");
   ("human_player", VInstance "HumanPlayer"); ("ai_player", VInstance "AIPlayer");
   ("state", VState (state self));
   ("current_player",
    match current_player self with
    | None => VNone
    | Some HumanPlayer => VInstance "HumanPlayer"
    | Some AIPlayer => VInstance "AIPlayer"
    end);
   ("score", VInt (score self)); ("best_score", VInt (best_score self));
   ("screen", VInstance "Surface"); ("fonts", VInstance "dict")]
  ++ ((λ name, (name, VFunction name)) <$>
      ["__init__"; "_initialize_pygame"; "_initialize_fonts"; "_load_best_score";
       "_save_best_score"; "start_game"; "make_move"; "undo_move"; "reset_game";
       "clear_best_score"; "get_ai_move"; "run"; "_handle_key_event";
       "_handle_mouse_event"; "_handle_start_screen_click"; "_handle_game_click";
       "_handle_game_over_click"; "_render"; "_render_start_screen"; "_render_game";
       "_render_game_over"; "_render_board"; "_render_score_box"; "_render_button"]).

Definition getattr (self : t) (name : string) : res value :=
  match dict_get (attributes self) name with
  | Some v => Ok v
  | None => Raise AttributeError
  end.

(** The call [self.ai.get_best_move(self.board, self.score)] inside the
    [try] of [get_ai_move]: the two lookups, then the call, which no
    value of this model supports. *)
Definition call_get_best_move (self : t) : res string :=
  ai ← getattr self "ai";
  _ ← value_attr ai "get_best_move";
  _ ← getattr self "board";
  _ ← getattr self "score";
  Raise TypeError.

Definition get_ai_move (self : t) : rand string :=
  player_type ← pure (getattr self "player_type");
  PlayerType ← pure (global_name "PlayerType");
  COMPUTER ← pure (value_attr PlayerType "COMPUTER");
  not_computer ←
    (if bool_decide (player_type ≠ COMPUTER) then mret true
     else
       state ← pure (getattr self "state");
       GameState ← pure (global_name "GameState");
       PLAYING ← pure (value_attr GameState "PLAYING");
       mret (bool_decide (state ≠ PLAYING)));
  if (not_computer : bool) then mret "w" else
  stuck_counter ← pure (getattr self "stuck_counter");
  above_15 ← pure (value_gt stuck_counter 15);
  if (above_15 : bool) then choice ["w"; "a"; "s"; "d"] else
  stuck_counter ← pure (getattr self "stuck_counter");
  above_5 ← pure (value_gt stuck_counter 5);
  if (above_5 : bool) then choice ["a"; "s"; "d"] else
  λ r,
    match call_get_best_move self with
    | Ok best_move => (Ok best_move, r)
    | Raise _ => choice ["w"; "a"; "s"; "d"] r
    | Timeout => (Timeout, r)
    end.

(** The AI step of one turn of the loop of [run]: the move of the
    automatic player, when it is the current player of a game in play. *)
Definition run_ai_move (self : t) : rand t :=
  if decide (current_player self = Some AIPlayer ∧ state self = PLAYING) then
    ai_move ← AIPlayer.get_move (ai_player self) (board self) (score self);
    '(_, self) ← make_move ai_move self;
    mret self
  else mret self.

End Game2048.

(** ** Aliasing: the grids of the history as objects

    [add_state] stores [board.copy()].  To tell a copy from an alias the
    list objects are kept in a store, an object being its position in it;
    a new object is put at the end.  The history then holds objects, and
    [!=] on two lists compares their cells. *)

Module Aliasing.

Abbreviation store := (list (list Z)).

Record t : Type :=
  Build { max_history : nat; board_history : list nat; score_history : list Z }.

(** [board.copy()]: a new object with the cells of [board].  A position
    outside the store names no object. *)
Definition list_copy (board : nat) (objects : store) : res nat * store :=
  match objects !! board with
  | Some cells => (Ok (length objects), objects ++ [cells])
  | None => (Raise NameError, objects)
  end.

(** [self.board_history[-1] != board], on the cells of the two objects. *)
Definition differs (objects : store) (stored : option nat) (board : nat) : bool :=
  bool_decide ((stored ≫= λ o, objects !! o) ≠ objects !! board).

Definition add_state (board : nat) (score : Z) : stateful (store * t) unit :=
  λ '(objects, self),
  if bool_decide (board_history self = [])
     || differs objects (last (board_history self)) board
  then
    match list_copy board objects with
    | (Ok copied, objects) =>
      let boards := board_history self ++ [copied] in
      let scores := score_history self ++ [score] in
      if decide (max_history self + 1 < length boards)%nat then
        (Ok (), (objects, {| max_history := max_history self;
                             board_history := drop 1 boards;
                             score_history := drop 1 scores |}))
      else
        (Ok (), (objects, {| max_history := max_history self;
                             board_history := boards;
                             score_history := scores |}))
    | (Raise e, objects) => (Raise e, (objects, self))
    | (Timeout, objects) => (Timeout, (objects, self))
    end
  else (Ok (), (objects, self)).

(** The history of grids that a store and a history of objects stand for. *)
Definition contents (objects : store) (self : t) : GameHistory.t :=
  {| GameHistory.max_history := max_history self;
     GameHistory.board_history := (λ o, default [] (objects !! o)) <$> board_history self;
     GameHistory.score_history := score_history self |}.

End Aliasing.

(** ** Concrete data for examples *)

(** The random source whose every word is 0: [choice] takes the first
    element and [random] returns 0. *)
Definition zero_source : Random := λ _, 0%N.

Definition logic2 (cells : list Z) : GameLogic.t :=
  {| GameLogic.board := {| GameBoard.size := 2; GameBoard.board := cells |};
     GameLogic.move_direction := MoveDirection.__init__ 2 |}.

(** Sessions on a board of side 2 with [MAX_HISTORY = 5]. *)
Definition session_of (cells : list Z) (boards : list (list Z)) (scores : list Z)
    (state : GameState) (player : option Player) (score best : Z) : Game2048.t :=
  {| Game2048.BOARD_SIZE := 2; Game2048.MAX_HISTORY := 5;
     Game2048.board := {| GameBoard.size := 2; GameBoard.board := cells |};
     Game2048.move_direction := MoveDirection.__init__ 2;
     Game2048.history :=
       {| GameHistory.max_history := 5;
          GameHistory.board_history := boards;
          GameHistory.score_history := scores |};
     Game2048.stuck_counter := 0;
     Game2048.state := state;
     Game2048.current_player := player;
     Game2048.score := score;
     Game2048.best_score := best |}.

(** With the all-zero random source: the new session, the session after
    [start_game], after a move Left that merged two tiles, and after a
    move Right that changed nothing: the history then holds the position
    before each move. *)
Definition session_new : Game2048.t :=
  session_of [2; 2; 0; 0] [] [] START_SCREEN None 0 0.
Definition session_started : Game2048.t :=
  session_of [2; 2; 0; 0] [[2; 2; 0; 0]] [0] PLAYING (Some HumanPlayer) 0 0.
Definition session_moved : Game2048.t :=
  session_of [4; 2; 0; 0] [[2; 2; 0; 0]] [0] PLAYING (Some HumanPlayer) 4 4.
Definition session2 : Game2048.t :=
  session_of [4; 2; 0; 0] [[2; 2; 0; 0]; [4; 2; 0; 0]] [0; 4] PLAYING (Some HumanPlayer) 4 4.

(** The two lists of a history grow and shrink together. *)
Definition in_step (self : GameHistory.t) : Prop :=
  length (GameHistory.board_history self) = length (GameHistory.score_history self).

(** The history after a sequence of [add_state] calls. *)
Definition pushes (self : GameHistory.t) (states : list (list Z * Z)) : GameHistory.t :=
  foldl (λ h '(board, score), snd (GameHistory.add_state board score h)) self states.

(** Every object that a history of objects holds is in the store. *)
Definition allocated (objects : Aliasing.store) (self : Aliasing.t) : Prop :=
  Forall (λ o, o < length objects)%nat (Aliasing.board_history self).

(** What [add_state] leaves when it stores: the entry is appended and,
    past [max_history + 1] entries, the oldest one is dropped. *)
Definition stored_after (self : GameHistory.t) (board : list Z) (score : Z)
    : GameHistory.t :=
  let boards := GameHistory.board_history self ++ [board] in
  let scores := GameHistory.score_history self ++ [score] in
  if decide (GameHistory.max_history self + 1 < length boards)%nat
  then GameHistory.Build (GameHistory.max_history self) (drop 1 boards) (drop 1 scores)
  else GameHistory.Build (GameHistory.max_history self) boards scores.

(** The invariant of a grid: it has [size * size] cells. *)
Definition well_formed (b : GameBoard.t) : Prop :=
  length (GameBoard.board b) = GameBoard.total_cells b.

(** The indices of the empty cells, in ascending order. *)
Definition empty_indices (cells : list Z) : list nat :=
  filter (λ i, cells !! i = Some 0) (seq 0 (length cells)).

(** The tile that [_add_random_tile] places for a value [u] of
    [random.random()]. *)
Definition new_tile (u : Q) : Z := if Qlt_le_dec u (9 # 10) then 2 else 4.

(** The value of [random.random()] on a random source. *)
Definition fraction (r : Random) : Q := Z.of_N (r O mod 2 ^ 53) # 2 ^ 53.

(** ** The heuristic as the specification words it *)

Definition Zsum (l : list Z) : Z := foldr Z.add 0 l.

Definition row (size i : nat) : nat := (i / size)%nat.
Definition col (size i : nat) : nat := (i mod size)%nat.

(** [Σ_i (row(i) + col(i))^3 * grid[i]], over the cells [i] of the grid. *)
Definition positional_bias (b : GameBoard.t) : Z :=
  Zsum ((λ i, Z.of_nat (row (GameBoard.size b) i + col (GameBoard.size b) i) ^ 3
              * default 0 (GameBoard.board b !! i))
        <$> seq 0 (length (GameBoard.board b))).

(** [count(v)]: the number of cells that hold [v]. *)
Definition count (v : Z) (cells : list Z) : Z :=
  Z.of_nat (length (filter (λ x, x = v) cells)).

(** [Σ_{v≠0} (max_value / v) * count(v)], over the distinct values. *)
Definition variety (cells : list Z) (max_value : Z) : Z :=
  Zsum ((λ v, (max_value / v) * count v cells)
        <$> remove_dups (filter (λ v, v ≠ 0) cells)).

(** [empty_count]: the number of empty cells of the grid. *)
Definition empty_count (cells : list Z) : Z := count 0 cells.

(** [max_value]: the greatest value that a cell of the grid holds, and 0
    for a grid without cells. *)
Definition max_value (cells : list Z) : Z :=
  match cells with
  | [] => 0
  | x :: rest => foldr Z.max x rest
  end.

Definition evaluation (b : GameBoard.t) (score : Z) : Z :=
  let cells := GameBoard.board b in
  empty_count cells ^ 2 * max_value cells * 1024
  + 4 * positional_bias b
  + max_value cells * score
  + variety cells (max_value cells).

(** Two cells are adjacent in a row, or in a column. *)
Definition beside (size i j : nat) : Prop :=
  j = (i + 1)%nat ∧ row size i = row size j.

Definition below (size i j : nat) : Prop := j = (i + size)%nat.

(** A terminal board: no empty cell, and no two cells adjacent in a row or
    in a column that hold equal non-zero values. *)
Definition terminal (b : GameBoard.t) : Prop :=
  (0 ∉ GameBoard.board b)
  ∧ ∀ i j x, beside (GameBoard.size b) i j ∨ below (GameBoard.size b) i j →
             GameBoard.board b !! i = Some x → GameBoard.board b !! j = Some x → x = 0.

(** What one cell holding [v] adds to the variety score. *)
Definition share (max_value v : Z) : Z :=
  if decide (v ≠ 0) then max_value / v else 0.

(** Cell [i] and its right or bottom neighbour hold the same value, as
    [is_game_over] tests it. *)
Definition pair_at (b : GameBoard.t) (i : nat) : Prop :=
  ∃ x, GameBoard.board b !! i = Some x
       ∧ ((i mod GameBoard.size b < GameBoard.size b - 1)%nat
            ∧ GameBoard.board b !! (i + 1)%nat = Some x
          ∨ (i / GameBoard.size b < GameBoard.size b - 1)%nat
            ∧ GameBoard.board b !! (i + GameBoard.size b)%nat = Some x).

(** The four keys, in the order in which the search tries them. *)
Definition keys : list string := ["w"; "a"; "s"; "d"].

(** A traversal order for [total] cells: [total] indices, each below
    [total]. *)
Definition order_for (total : nat) (order : list nat) : Prop :=
  length order = total ∧ Forall (λ i, i < total)%nat order.

(** The game logic of a board, with the traversal tables of its size. *)
Definition logic_of (b : GameBoard.t) : GameLogic.t :=
  {| GameLogic.board := b;
     GameLogic.move_direction := MoveDirection.__init__ (GameBoard.size b) |}.

(** A direction changes the grid: [_process_move] returns cells that
    differ from those it was given. *)
Definition changes (b : GameBoard.t) (direction : string) : Prop :=
  ∃ score cells, GameLogic._process_move (logic_of b) direction = Ok (score, cells)
                 ∧ cells ≠ GameBoard.board b.

(** A full board of side 2 on which no direction changes anything, and a
    board on which only Right does. *)
Definition stuck_board : GameBoard.t := GameBoard.Build 2 [2; 4; 4; 2].
Definition right_only_board : GameBoard.t := GameBoard.Build 2 [2; 0; 4; 0].

(** The sessions that the program can be in: a new session, and what
    [start_game] ([reset_game] is a call of it), [make_move], [undo_move]
    and [clear_best_score] make of a session. *)
Inductive reachable : Game2048.t → Prop :=
| reach_init size max_history best r g r' :
    Game2048.__init__ size max_history best r = (Ok g, r') → reachable g
| reach_start g is_human r g' r' :
    reachable g → Game2048.start_game is_human g r = (Ok g', r') → reachable g'
| reach_move g direction r moved g' r' :
    reachable g → Game2048.make_move direction g r = (Ok (moved, g'), r') → reachable g'
| reach_undo g undone g' :
    reachable g → Game2048.undo_move g = (Ok undone, g') → reachable g'
| reach_clear g :
    reachable g → reachable (Game2048.clear_best_score g).

(** A grid of side [size] without negative cells. *)
Definition grid_of (size : nat) (cells : list Z) : Prop :=
  length cells = (size * size)%nat ∧ Forall (λ x, 0 ≤ x) cells.

(** What every reachable session satisfies. *)
Definition sound (g : Game2048.t) : Prop :=
  grid_of (GameBoard.size (Game2048.board g)) (GameBoard.board (Game2048.board g))
  ∧ Game2048.move_direction g = MoveDirection.__init__ (GameBoard.size (Game2048.board g))
  ∧ 0 ≤ Game2048.score g
  ∧ in_step (Game2048.history g)
  ∧ Forall (grid_of (GameBoard.size (Game2048.board g)))
      (GameHistory.board_history (Game2048.history g))
  ∧ Forall (λ s, 0 ≤ s) (GameHistory.score_history (Game2048.history g)).

(** The session reached from a new one of side 2, with the all-zero
    random source, by starting a game and moving Left and then Right. *)
Definition example_game : res Game2048.t * Random :=
  (g ← Game2048.__init__ 2 5 0;
   g ← Game2048.start_game true g;
   '(_, g) ← Game2048.make_move "a" g;
   '(_, g) ← Game2048.make_move "d" g;
   mret g) zero_source.

(** Cell [c'] is the neighbour of cell [c] on the side toward which a
    direction moves the tiles: above for Up, below for Down, to the left
    for Left, to the right for Right. *)
Definition toward_edge (size : nat) (direction : string) (c c' : nat) : Prop :=
  if decide (direction = "w") then
    (row size c' + 1)%nat = row size c ∧ col size c' = col size c
  else if decide (direction = "s") then
    row size c' = (row size c + 1)%nat ∧ col size c' = col size c
  else if decide (direction = "a") then
    row size c' = row size c ∧ (col size c' + 1)%nat = col size c
  else if decide (direction = "d") then
    row size c' = row size c ∧ col size c' = (col size c + 1)%nat
  else False.

(** Cell [c] lies on the edge where the tiles of a direction gather. *)
Definition on_edge (size : nat) (direction : string) (c : nat) : Prop :=
  if decide (direction = "w") then row size c = O
  else if decide (direction = "s") then row size c = (size - 1)%nat
  else if decide (direction = "a") then col size c = O
  else if decide (direction = "d") then col size c = (size - 1)%nat
  else False.

(** A cell value of the game: empty, or a power of two from 2 on. *)
Definition is_tile (v : Z) : Prop := v = 0 ∨ ∃ k : nat, (1 ≤ k)%nat ∧ v = 2 ^ Z.of_nat k.

(** The number of empty cells of a list of cells. *)
Definition zeros (cells : list Z) : Z := Z.of_nat (length (filter (λ v, v = 0) cells)).

(** The positions of an order below [n] are packed: a cell is empty
    whenever the cell [size] places before it in the order is. *)
Definition packed_upto (size : nat) (order : list nat) (n : nat) (cells : list Z) : Prop :=
  ∀ p c c', (size ≤ p < n)%nat → order !! p = Some c → order !! (p - size)%nat = Some c' →
            cells !! c' = Some 0 → cells !! c = Some 0.

(** While the tile of position [i] is at position [cur] of the order: all
    positions up to [i] other than [cur] are packed, and the position it
    came from last is empty. *)
Definition sliding (size : nat) (order : list nat) (i cur : nat) (cells : list Z) : Prop :=
  (∀ p c c', (size ≤ p ≤ i)%nat → p ≠ cur → order !! p = Some c →
             order !! (p - size)%nat = Some c' → cells !! c' = Some 0 → cells !! c = Some 0)
  ∧ ((cur + size ≤ i)%nat → ∀ c, order !! (cur + size)%nat = Some c → cells !! c = Some 0).

(** No two consecutive grids of a list are equal. *)
Definition no_repeat (grids : list (list Z)) : Prop :=
  ∀ i x y, grids !! i = Some x → grids !! S i = Some y → x ≠ y.

(** A direction has a move on a grid: some tile has, as its neighbour
    toward the edge of the direction, an empty cell or a tile of its own
    value. *)
Definition can_move (size : nat) (direction : string) (cells : list Z) : Prop :=
  ∃ c c' v, toward_edge size direction c c' ∧ cells !! c = Some v ∧ v ≠ 0
            ∧ (cells !! c' = Some 0 ∨ cells !! c' = Some v).

(** Nothing at position [i] of the order can act: the cell is empty, or
    its neighbour toward the edge holds a different tile. *)
Definition inert (b : GameBoard.t) (direction : string) (order : list nat) (i : nat)
    : Prop :=
  ∀ c c' v, order !! i = Some c → toward_edge (GameBoard.size b) direction c c' →
            GameBoard.board b !! c = Some v → v ≠ 0 →
            ¬ (GameBoard.board b !! c' = Some 0 ∨ GameBoard.board b !! c' = Some v).

(** What every reachable session satisfies besides [sound]: the board has
    the side of the configuration, its cells and those of the stored grids
    are tiles, the history keeps the bound of the configuration and never
    holds a grid twice in a row, and the start screen is the state without
    a player. *)
Definition valid (g : Game2048.t) : Prop :=
  GameBoard.size (Game2048.board g) = Game2048.BOARD_SIZE g
  ∧ GameHistory.max_history (Game2048.history g) = Game2048.MAX_HISTORY g
  ∧ Forall is_tile (GameBoard.board (Game2048.board g))
  ∧ Forall (Forall is_tile) (GameHistory.board_history (Game2048.history g))
  ∧ (length (GameHistory.board_history (Game2048.history g)) ≤ Game2048.MAX_HISTORY g + 1)%nat
  ∧ no_repeat (GameHistory.board_history (Game2048.history g))
  ∧ (Game2048.state g = START_SCREEN ↔ Game2048.current_player g = None).


(** ** HumanPlayer *)

Module HumanPlayer.

Record t : Type := Build { name : string; pending_move : option string }.

Definition __init__ : t := {| name := "Human"; pending_move := None |}.

(** [if self.pending_move:] holds for a string that is not empty; [None]
    and the empty string are false. *)
Definition get_move (board : GameBoard.t) (score : Z) : stateful t string := λ self,
  match pending_move self with
  | Some move =>
    if decide (move ≠ "") then (Ok move, {| name := name self; pending_move := None |})
    else (Ok "w", self)
  | None => (Ok "w", self)
  end.

Definition set_move (direction : string) : stateful t unit := λ self,
  (Ok (), {| name := name self; pending_move := Some direction |}).

End HumanPlayer.

(** The session after [start_game(False)] on [session_new], with the
    all-zero random source: a game of the automatic player. *)
Definition session_ai : Game2048.t :=
  session_of [2; 2; 0; 0] [[2; 2; 0; 0]] [0] PLAYING (Some AIPlayer) 0 0.

(** * Properties *)

(** ** The move engine on a board of side 2 *)

(** C1, as stated, fails: Right on [[2,2,0,0]] does not give [[0,0,0,4]]. *)
Lemma C1_right_is_not_bottom_corner :
  ¬ (GameLogic._process_move (logic2 [2; 2; 0; 0]) "a" = Ok (4, [4; 0; 0; 0])
     ∧ GameLogic._process_move (logic2 [2; 2; 0; 0]) "d" = Ok (4, [0; 0; 0; 4])).
Proof. intros [_ H]. vm_compute in H. discriminate H. Qed.

(** C1, amended: on the board of side 2 with cells [[2,2,0,0]], Left gives
    [[4,0,0,0]] and Right gives [[0,4,0,0]] (the merged tile stays in row
    0), each with score delta 4. *)
Theorem C1_left_right_example :
  GameLogic._process_move (logic2 [2; 2; 0; 0]) "a" = Ok (4, [4; 0; 0; 0])
  ∧ GameLogic._process_move (logic2 [2; 2; 0; 0]) "d" = Ok (4, [0; 4; 0; 0]).
Proof. split; vm_compute; reflexivity. Qed.

(** C2, as stated, fails: Up on [[2,0,2,4]] does not leave the 4 of row 1,
    column 1 in place. *)
Lemma C2_up_moves_the_four :
  GameLogic._process_move (logic2 [2; 0; 2; 4]) "w" ≠ Ok (4, [4; 0; 0; 4]).
Proof. vm_compute. discriminate. Qed.

(** C2, amended: Up on the board of side 2 with cells [[2,0,2,4]] merges
    column 0 and slides the 4 of column 1 into the empty cell above it,
    giving [[4,4,0,0]] with score delta 4. *)
Theorem C2_up_example :
  GameLogic._process_move (logic2 [2; 0; 2; 4]) "w" = Ok (4, [4; 4; 0; 0]).
Proof. vm_compute. reflexivity. Qed.

(** Unfolding the binds of the two monads. *)
Ltac unfold_monad :=
  unfold mbind, mret, stateful_bind, stateful_ret, res_bind, res_ret, pure in *.

(** Taking one step of a computation whose result [H] gives. *)
Ltac run H := rewrite H; unfold_monad; cbv beta iota.

(** ** GameHistory: undo *)

Section History.

Implicit Types (self : GameHistory.t) (boards : list (list Z)) (scores : list Z).

Lemma pop_last_snoc {A} (l : list A) (x : A) : pop_last (l ++ [x]) = Ok (x, l).
Proof. unfold pop_last. now rewrite last_snoc, removelast_last. Qed.

Lemma two_last {A} (l : list A) :
  (2 ≤ length l)%nat → ∃ l' x y, l = l' ++ [x; y].
Proof.
  destruct l as [|y l _] using rev_ind; simpl; [lia|].
  destruct l as [|x l _] using rev_ind; simpl; [lia|].
  intros _. exists l, x, y. now rewrite <- app_assoc.
Qed.

Lemma can_undo_length self :
  GameHistory.can_undo self = true ↔ (2 ≤ length (GameHistory.board_history self))%nat.
Proof. unfold GameHistory.can_undo. rewrite bool_decide_eq_true. lia. Qed.

Lemma undo_short self :
  (length (GameHistory.board_history self) < 2)%nat →
  GameHistory.undo self = (Raise ValueError, self).
Proof.
  intros H. unfold GameHistory.undo.
  destruct (GameHistory.can_undo self) eqn:E; [|reflexivity].
  apply can_undo_length in E. lia.
Qed.

Lemma undo_two m boards scores b2 b1 s2 s1 :
  length boards = length scores →
  GameHistory.undo (GameHistory.Build m (boards ++ [b2; b1]) (scores ++ [s2; s1]))
  = (Ok (b2, s2), GameHistory.Build m boards scores).
Proof.
  intros _. unfold GameHistory.undo.
  replace (GameHistory.can_undo _) with true.
  2:{ symmetry. apply can_undo_length. simpl. rewrite length_app. simpl. lia. }
  replace (boards ++ [b2; b1]) with ((boards ++ [b2]) ++ [b1]) by now rewrite <- app_assoc.
  replace (scores ++ [s2; s1]) with ((scores ++ [s2]) ++ [s1]) by now rewrite <- app_assoc.
  unfold_monad. unfold GameHistory.pop_board, GameHistory.pop_score. cbn -[pop_last].
  unfold GameHistory.with_boards, GameHistory.with_scores.
  repeat (cbn -[pop_last]; rewrite pop_last_snoc). reflexivity.
Qed.

Lemma undo_long self :
  in_step self → (2 ≤ length (GameHistory.board_history self))%nat →
  ∃ boards scores b2 b1 s2 s1,
    GameHistory.board_history self = boards ++ [b2; b1]
    ∧ GameHistory.score_history self = scores ++ [s2; s1]
    ∧ GameHistory.undo self
      = (Ok (b2, s2), GameHistory.Build (GameHistory.max_history self) boards scores).
Proof.
  destruct self as [m bs ss]. unfold in_step. simpl. intros Hlen Hbs.
  destruct (two_last bs Hbs) as (boards & b2 & b1 & ->).
  destruct (two_last ss) as (scores & s2 & s1 & ->); [lia|].
  exists boards, scores, b2, b1, s2, s1. repeat split.
  apply undo_two. rewrite !length_app in Hlen. simpl in Hlen. lia.
Qed.

End History.

(** C8: on a history whose two lists are in step, [undo] raises the
    insufficient-history error exactly when fewer than two entries are
    stored, which is when [can_undo] is false, and then leaves the history
    as it was; otherwise it removes the two newest entries and returns the
    grid and score of the older of them.  [undo_move] of the session
    returns a boolean and never raises: false with the session unchanged
    when the history is short or the game is not in play, true with the
    returned grid and score put on the board otherwise. *)
Theorem C8_undo (g : Game2048.t) :
  let self := Game2048.history g in
  let stored := length (GameHistory.board_history self) in
  in_step self →
  (fst (GameHistory.undo self) = Raise ValueError ↔ (stored < 2)%nat)
  ∧ (GameHistory.can_undo self = false ↔ (stored < 2)%nat)
  ∧ ((stored < 2)%nat → GameHistory.undo self = (Raise ValueError, self))
  ∧ ((2 ≤ stored)%nat →
     ∃ boards scores b2 b1 s2 s1,
       GameHistory.board_history self = boards ++ [b2; b1]
       ∧ GameHistory.score_history self = scores ++ [s2; s1]
       ∧ GameHistory.undo self
         = (Ok (b2, s2), GameHistory.Build (GameHistory.max_history self) boards scores)
       ∧ Game2048.undo_move g
         = if decide (Game2048.state g = PLAYING) then
             (Ok true,
              Game2048.set_score s2
                (Game2048.set_board (GameBoard.set_board (Game2048.board g) b2)
                   (Game2048.set_history
                      (GameHistory.Build (GameHistory.max_history self) boards scores) g)))
           else (Ok false, g))
  ∧ ((stored < 2)%nat → Game2048.undo_move g = (Ok false, g))
  ∧ ∃ done g', Game2048.undo_move g = (Ok done, g').
Proof.
  intros self stored Hstep.
  assert (Hcan : GameHistory.can_undo self = false ↔ (stored < 2)%nat).
  { unfold GameHistory.can_undo. rewrite bool_decide_eq_false. fold stored. lia. }
  assert (Hshort : (stored < 2)%nat → Game2048.undo_move g = (Ok false, g)).
  { intros H. apply Hcan in H. unfold Game2048.undo_move. fold self. now rewrite H. }
  assert (Hlong : (2 ≤ stored)%nat →
     ∃ boards scores b2 b1 s2 s1,
       GameHistory.board_history self = boards ++ [b2; b1]
       ∧ GameHistory.score_history self = scores ++ [s2; s1]
       ∧ GameHistory.undo self
         = (Ok (b2, s2), GameHistory.Build (GameHistory.max_history self) boards scores)
       ∧ Game2048.undo_move g
         = if decide (Game2048.state g = PLAYING) then
             (Ok true,
              Game2048.set_score s2
                (Game2048.set_board (GameBoard.set_board (Game2048.board g) b2)
                   (Game2048.set_history
                      (GameHistory.Build (GameHistory.max_history self) boards scores) g)))
           else (Ok false, g)).
  { intros H. destruct (undo_long self Hstep H) as (boards & scores & b2 & b1 & s2 & s1 & Hb & Hs & Hu).
    exists boards, scores, b2, b1, s2, s1. repeat split; try assumption.
    unfold Game2048.undo_move, Game2048.on_history. fold self.
    replace (GameHistory.can_undo self) with true
      by (symmetry; now apply can_undo_length).
    rewrite Hu. simpl. destruct (decide (Game2048.state g = PLAYING)) as [E|E].
    - rewrite bool_decide_eq_false_2 by tauto. reflexivity.
    - rewrite bool_decide_eq_true_2 by assumption. reflexivity. }
  repeat split.
  - intros H. destruct (le_lt_dec 2 stored) as [L|L]; [|assumption].
    destruct (undo_long self Hstep L) as (? & ? & ? & ? & ? & ? & _ & _ & Hu).
    rewrite Hu in H. discriminate H.
  - intros H. now rewrite undo_short.
  - apply Hcan.
  - apply Hcan.
  - intros H. now apply undo_short.
  - exact Hlong.
  - exact Hshort.
  - destruct (le_lt_dec 2 stored) as [L|L].
    + destruct (Hlong L) as (? & ? & ? & ? & ? & ? & _ & _ & _ & Hm).
      rewrite Hm. destruct (decide _); eauto.
    + rewrite Hshort by assumption. eauto.
Qed.

(** On [session2] the two lists are in step and hold two entries:
    [undo_move] restores the older one, grid [[2,2,0,0]] with score 0, and
    leaves the history empty. *)
Lemma C8_undo_witness :
  in_step (Game2048.history session2)
  ∧ Game2048.undo_move session2
    = (Ok true, session_of [2; 2; 0; 0] [] [] PLAYING (Some HumanPlayer) 0 4).
Proof.
  assert (H : in_step (Game2048.history session2)) by reflexivity.
  split; [exact H|].
  destruct (C8_undo session2 H) as (_ & _ & _ & Hlong & _).
  destruct Hlong as (boards & scores & b2 & b1 & s2 & s1 & Hb & Hs & _ & Hmove).
  { simpl. lia. }
  rewrite Hmove.
  change (GameHistory.board_history (Game2048.history session2))
    with ([] ++ [[2; 2; 0; 0]; [4; 2; 0; 0]]) in Hb.
  change (GameHistory.score_history (Game2048.history session2))
    with ([] ++ [0; 4]) in Hs.
  apply app_inj_2 in Hb; [|reflexivity]. apply app_inj_2 in Hs; [|reflexivity].
  destruct Hb as [<- [= <- <-]]. destruct Hs as [<- [= <- <-]]. reflexivity.
Defined.

(** ** GameHistory: add_state *)

Section AddState.

Implicit Types (self : GameHistory.t) (board : list Z) (score : Z).

Lemma add_state_duplicate self board score :
  last (GameHistory.board_history self) = Some board →
  GameHistory.add_state board score self = (Ok (), self).
Proof.
  intros H. unfold GameHistory.add_state.
  destruct (GameHistory.board_history self) as [|b bs] eqn:E; [discriminate H|].
  rewrite bool_decide_eq_false_2 by discriminate.
  rewrite bool_decide_eq_false_2 by (intros C; now apply C).
  reflexivity.
Qed.

Lemma add_state_stores self board score :
  last (GameHistory.board_history self) ≠ Some board →
  GameHistory.add_state board score self = (Ok (), stored_after self board score).
Proof.
  intros H. unfold GameHistory.add_state, stored_after.
  rewrite (bool_decide_eq_true_2 (last _ ≠ _)) by assumption.
  rewrite orb_true_r. cbn -[pop_first].
  destruct (decide _) as [L|L]; [|reflexivity].
  unfold_monad. unfold GameHistory.pop_board, GameHistory.pop_score.
  destruct self as [m [|b bs] ss]; destruct ss as [|s ss]; reflexivity.
Qed.

Lemma add_state_cases self board score :
  GameHistory.add_state board score self
  = (Ok (), if decide (last (GameHistory.board_history self) = Some board)
            then self else stored_after self board score).
Proof.
  destruct (decide _) as [E|E].
  - now apply add_state_duplicate.
  - now apply add_state_stores.
Qed.

Lemma stored_after_max self board score :
  GameHistory.max_history (stored_after self board score) = GameHistory.max_history self.
Proof. unfold stored_after. now destruct (decide _). Qed.

Lemma stored_after_in_step self board score :
  in_step self → in_step (stored_after self board score).
Proof.
  unfold in_step, stored_after. intros H.
  destruct (decide _); simpl; rewrite ?length_drop, !length_app; simpl; lia.
Qed.

Lemma stored_after_bounded self board score :
  (length (GameHistory.board_history self) ≤ GameHistory.max_history self + 1)%nat →
  (length (GameHistory.board_history (stored_after self board score))
   ≤ GameHistory.max_history self + 1)%nat.
Proof.
  unfold stored_after. intros H.
  destruct (decide _) as [L|L]; simpl; rewrite ?length_drop; rewrite length_app in *;
    simpl in *; lia.
Qed.

Lemma pushes_snoc self states board score :
  pushes self (states ++ [(board, score)])
  = snd (GameHistory.add_state board score (pushes self states)).
Proof. unfold pushes. now rewrite foldl_snoc. Qed.

(** The invariant of every history built by [add_state] from a new one. *)
Lemma pushes_invariant m states :
  let self := pushes (GameHistory.__init__ m) states in
  GameHistory.max_history self = m
  ∧ in_step self
  ∧ (length (GameHistory.board_history self) ≤ m + 1)%nat.
Proof.
  induction states as [|[board score] states IH] using rev_ind.
  - simpl. unfold in_step. simpl. repeat split; lia.
  - rewrite pushes_snoc, add_state_cases. simpl.
    destruct IH as (Hm & Hs & Hb). destruct (decide _); [easy|].
    rewrite stored_after_max. split; [assumption|]. split.
    + now apply stored_after_in_step.
    + rewrite <- Hm at 2. apply stored_after_bounded. now rewrite Hm.
Qed.

End AddState.

(** ** Aliasing: the stored grid is a copy *)

Section Copy.

Implicit Types (objects : Aliasing.store) (h : Aliasing.t) (o : nat) (cells : list Z).

Lemma contents_boards objects h :
  GameHistory.board_history (Aliasing.contents objects h)
  = (λ o, default [] (objects !! o)) <$> Aliasing.board_history h.
Proof. reflexivity. Qed.

Lemma differs_contents objects h o cells :
  objects !! o = Some cells → allocated objects h →
  Aliasing.differs objects (last (Aliasing.board_history h)) o
  = bool_decide (last (GameHistory.board_history (Aliasing.contents objects h)) ≠ Some cells).
Proof.
  intros Ho Hall. unfold Aliasing.differs. rewrite contents_boards, fmap_last, Ho.
  destruct (last (Aliasing.board_history h)) as [l|] eqn:E; simpl; [|reflexivity].
  assert (Hl : (l < length objects)%nat).
  { unfold allocated in Hall. rewrite Forall_forall in Hall. apply Hall.
    now apply last_Some_elem_of. }
  destruct (objects !! l) as [c|] eqn:Hc; [reflexivity|].
  apply lookup_ge_None in Hc. lia.
Qed.

(** Reading the stored objects after a new object was put in the store. *)
Lemma read_after_copy objects cells (stored : list nat) :
  Forall (λ o, o < length objects)%nat stored →
  (λ o, default [] ((objects ++ [cells]) !! o)) <$> stored
  = (λ o, default [] (objects !! o)) <$> stored.
Proof.
  intros H. apply list_fmap_ext. intros i o Hio.
  rewrite Forall_forall in H. rewrite lookup_app_l; [reflexivity|].
  apply H. now apply list_elem_of_lookup_2 in Hio.
Qed.

(** Writing into an object that the history does not hold. *)
Lemma read_after_write objects o cells (stored : list nat) :
  o ∉ stored →
  (λ o', default [] (<[o := cells]> objects !! o')) <$> stored
  = (λ o', default [] (objects !! o')) <$> stored.
Proof.
  intros H. apply list_fmap_ext. intros i o' Hio.
  simpl. rewrite list_lookup_insert_ne; [reflexivity|].
  intros ->. apply H. now apply list_elem_of_lookup_2 in Hio.
Qed.

Lemma aliasing_add_state objects h o cells score :
  objects !! o = Some cells → allocated objects h →
  let self := Aliasing.contents objects h in
  if decide (last (GameHistory.board_history self) = Some cells) then
    Aliasing.add_state o score (objects, h) = (Ok (), (objects, h))
  else
    ∃ h', Aliasing.add_state o score (objects, h) = (Ok (), (objects ++ [cells], h'))
      ∧ Aliasing.contents (objects ++ [cells]) h' = stored_after self cells score
      ∧ last (Aliasing.board_history h') = Some (length objects)
      ∧ allocated (objects ++ [cells]) h'
      ∧ ∀ o', o' ∈ Aliasing.board_history h' →
              o' ∈ Aliasing.board_history h ∨ o' = length objects.
Proof.
  intros Ho Hall self. unfold Aliasing.add_state.
  rewrite (differs_contents objects h o cells Ho Hall). fold self.
  destruct (decide (last (GameHistory.board_history self) = Some cells)) as [E|E].
  - rewrite (bool_decide_eq_false_2 (last _ ≠ _)) by tauto.
    rewrite bool_decide_eq_false_2; [reflexivity|].
    intros C. unfold self in E. rewrite contents_boards, C in E. discriminate E.
  - rewrite (bool_decide_eq_true_2 (last _ ≠ _)) by assumption. rewrite orb_true_r.
    unfold Aliasing.list_copy. rewrite Ho.
    assert (Hnew : allocated (objects ++ [cells])
                     (Aliasing.Build (Aliasing.max_history h)
                        (Aliasing.board_history h ++ [length objects])
                        (Aliasing.score_history h ++ [score]))).
    { unfold allocated in *. simpl. apply Forall_app. split.
      - eapply Forall_impl; [exact Hall|]. simpl. intros. rewrite length_app. simpl. lia.
      - constructor; [|constructor]. rewrite length_app. simpl. lia. }
    assert (Hread : (λ o0, default [] ((objects ++ [cells]) !! o0))
                      <$> (Aliasing.board_history h ++ [length objects])
                    = GameHistory.board_history self ++ [cells]).
    { rewrite fmap_app, read_after_copy by exact Hall. simpl.
      rewrite lookup_app_r, Nat.sub_diag by lia. reflexivity. }
    assert (Hlen : length (GameHistory.board_history self ++ [cells])
                   = length (Aliasing.board_history h ++ [length objects])).
    { unfold self. rewrite contents_boards, !length_app, length_fmap. reflexivity. }
    assert (Hin : ∀ o', o' ∈ Aliasing.board_history h ++ [length objects] →
                        o' ∈ Aliasing.board_history h ∨ o' = length objects).
    { intros o' Ho'. apply elem_of_app in Ho'. destruct Ho' as [?|Ho']; [now left|right].
      now apply list_elem_of_singleton in Ho'. }
    unfold stored_after. rewrite Hlen.
    replace (GameHistory.max_history self) with (Aliasing.max_history h) by reflexivity.
    destruct (decide _) as [L|L]; eexists; (split; [reflexivity|]).
    + split; [|split; [|split]].
      * unfold Aliasing.contents. simpl. rewrite fmap_drop, Hread. reflexivity.
      * simpl. destruct (Aliasing.board_history h) as [|x l] eqn:Hb.
        { simpl in L. lia. }
        simpl. rewrite drop_0. apply last_snoc.
      * unfold allocated in *. simpl in *. apply Forall_drop. exact Hnew.
      * intros o' Ho'. apply Hin. simpl in Ho'.
        eapply subseteq_drop. exact Ho'.
    + split; [|split; [|split]].
      * unfold Aliasing.contents. simpl. rewrite Hread. reflexivity.
      * apply last_snoc.
      * exact Hnew.
      * exact Hin.
Qed.

End Copy.

(** C9: a history built by any sequence of [add_state] calls from a new
    one holds at most [max_history + 1] entries; a further [add_state]
    never raises, leaves the history as it is, whatever the score, when
    the grid equals the newest stored grid, and otherwise appends the
    entry and drops the oldest one past the bound.  With the grids as
    objects: the object it stores is a new one, distinct from the pushed
    object, holding the same cells, and a later write into the pushed
    object changes nothing of what the history holds. *)
Theorem C9_add_state (m : nat) (states : list (list Z * Z)) (board : list Z) (score : Z) :
  let self := pushes (GameHistory.__init__ m) states in
  (length (GameHistory.board_history self) ≤ m + 1)%nat
  ∧ GameHistory.add_state board score self
    = (Ok (), if decide (last (GameHistory.board_history self) = Some board)
              then self else stored_after self board score)
  ∧ (length (GameHistory.board_history (snd (GameHistory.add_state board score self)))
     ≤ m + 1)%nat
  ∧ ∀ (objects : Aliasing.store) (h : Aliasing.t) (o : nat),
      Aliasing.contents objects h = self → allocated objects h →
      objects !! o = Some board → o ∉ Aliasing.board_history h →
      ∃ objects' h',
        Aliasing.add_state o score (objects, h) = (Ok (), (objects', h'))
        ∧ Aliasing.contents objects' h' = snd (GameHistory.add_state board score self)
        ∧ (o ∉ Aliasing.board_history h')
        ∧ (∀ o', o' ∈ Aliasing.board_history h' → o' ∉ Aliasing.board_history h →
                 o' = length objects ∧ objects !! o' = None ∧ objects' !! o' = Some board)
        ∧ ∀ cells, Aliasing.contents (<[o := cells]> objects') h'
                   = Aliasing.contents objects' h'.
Proof.
  intros self. destruct (pushes_invariant m states) as (Hm & Hs & Hb). fold self in Hm, Hs, Hb.
  split; [exact Hb|]. split; [apply add_state_cases|]. split.
  { rewrite add_state_cases. simpl. destruct (decide _); [exact Hb|].
    rewrite <- Hm. apply stored_after_bounded. now rewrite Hm. }
  intros objects h o Hc Hall Ho Hnot.
  pose proof (aliasing_add_state objects h o board score Ho Hall) as H.
  cbv zeta in H. rewrite Hc in H. rewrite add_state_cases.
  cbn [snd]. destruct (decide _) as [E|E].
  - exists objects, h. split; [exact H|]. split; [exact Hc|]. split; [exact Hnot|].
    split; [intros o' H1 H2; contradiction|].
    intros cells. unfold Aliasing.contents. now rewrite read_after_write.
  - destruct H as (h' & Hadd & Hcont & Hlast & Hall' & Hmem).
    assert (Hnot' : o ∉ Aliasing.board_history h').
    { intros C. apply Hmem in C. destruct C as [C|C]; [contradiction|].
      apply lookup_lt_Some in Ho. lia. }
    exists (objects ++ [board]), h'. split; [exact Hadd|]. split; [exact Hcont|].
    split; [exact Hnot'|]. split.
    + intros o' H1 H2. apply Hmem in H1. destruct H1 as [H1| ->]; [contradiction|].
      split; [reflexivity|]. split; [now apply lookup_ge_None|].
      rewrite lookup_app_r, Nat.sub_diag by lia. reflexivity.
    + intros cells. unfold Aliasing.contents. now rewrite read_after_write.
Qed.

(** After the two pushes [[2,2,0,0]] and [[4,2,0,0]], a third push of
    [[4,2,0,0]] with another score stores nothing. *)
Lemma C9_add_state_witness :
  GameHistory.add_state [4; 2; 0; 0] 7
    (pushes (GameHistory.__init__ 5) [([2; 2; 0; 0], 0); ([4; 2; 0; 0], 4)])
  = (Ok (), pushes (GameHistory.__init__ 5) [([2; 2; 0; 0], 0); ([4; 2; 0; 0], 4)]).
Proof.
  exact (proj1 (proj2
    (C9_add_state 5 [([2; 2; 0; 0], 0); ([4; 2; 0; 0], 4)] [4; 2; 0; 0] 7))).
Defined.

(** ** GameBoard: the random tile *)

Section Spawn.

Implicit Types (cells : list Z) (self : GameBoard.t).

Lemma getitem_lookup {A} (l : list A) i x : l !! i = Some x → getitem l i = Ok x.
Proof. unfold getitem. now intros ->. Qed.

Lemma getitem_lt {A} (l : list A) i : (i < length l)%nat → ∃ x, l !! i = Some x ∧ getitem l i = Ok x.
Proof.
  intros H. apply lookup_lt_is_Some in H. destruct H as [x Hx].
  exists x. split; [assumption|now apply getitem_lookup].
Qed.

Lemma setitem_lt {A} (l : list A) i (v : A) :
  (i < length l)%nat → setitem l i v = Ok (<[i := v]> l).
Proof. intros H. unfold setitem. destruct (decide _); [reflexivity|lia]. Qed.

(** The comprehension that collects the empty cells, from any index on. *)
Lemma collect_empty cells (acc : list nat) start n :
  (start + n ≤ length cells)%nat →
  for_each
    (λ acc i, v ← getitem cells i; Ok (if decide (v = 0) then acc ++ [i] else acc))
    acc (seq start n)
  = Ok (acc ++ filter (λ i, cells !! i = Some 0) (seq start n)).
Proof.
  revert acc start. induction n as [|n IH]; intros acc start H; simpl.
  - now rewrite app_nil_r.
  - destruct (getitem_lt cells start) as (v & Hv & ->); [lia|]. unfold_monad.
    rewrite IH by lia. rewrite filter_cons, Hv.
    destruct (decide (v = 0)) as [->|Hne].
    + rewrite decide_True by reflexivity. now rewrite <- app_assoc.
    + rewrite decide_False by congruence. reflexivity.
Qed.

Lemma empty_cells_ok self :
  well_formed self →
  GameBoard.empty_cells self = Ok (empty_indices (GameBoard.board self)).
Proof.
  intros H. unfold GameBoard.empty_cells, range, empty_indices.
  rewrite collect_empty by (rewrite H; lia). now rewrite H.
Qed.

Lemma empty_indices_spec cells i :
  i ∈ empty_indices cells ↔ cells !! i = Some 0.
Proof.
  unfold empty_indices. rewrite list_elem_of_filter, elem_of_seq. split; [tauto|].
  intros H. split; [assumption|]. apply lookup_lt_Some in H. lia.
Qed.

Lemma empty_indices_NoDup cells : NoDup (empty_indices cells).
Proof. apply NoDup_filter, NoDup_seq. Qed.

Lemma empty_indices_nil cells : empty_indices cells = [] ↔ 0 ∉ cells.
Proof.
  split.
  - intros H C. apply list_elem_of_lookup in C. destruct C as [i Hi].
    apply empty_indices_spec in Hi. rewrite H in Hi. inversion Hi.
  - intros H. destruct (empty_indices cells) as [|i l] eqn:E; [reflexivity|].
    exfalso. apply H. assert (Hi : i ∈ empty_indices cells) by (rewrite E; left).
    apply empty_indices_spec in Hi. now apply list_elem_of_lookup_2 in Hi.
Qed.

(** Filling an empty cell takes one from the count of empty cells. *)
Lemma count_after_fill cells i (v : Z) :
  cells !! i = Some 0 → v ≠ 0 →
  S (length (filter (λ x, x = 0) (<[i := v]> cells))) = length (filter (λ x, x = 0) cells).
Proof.
  revert i. induction cells as [|c cells IH]; intros i Hi Hv; [discriminate Hi|].
  destruct i as [|i]; simpl in *.
  - injection Hi as ->. rewrite !filter_cons. rewrite decide_False by assumption.
    rewrite decide_True by reflexivity. reflexivity.
  - rewrite !filter_cons. destruct (decide (c = 0)); simpl; now rewrite IH.
Qed.

End Spawn.

(** C7: on a grid of [size * size] cells and for every random source:
    the list that [random.choice] draws from holds each empty cell once
    and nothing else, so that each empty cell is the choice for exactly
    one index into it; if the grid has no empty cell, [_add_random_tile]
    returns false, leaves the grid as it is and draws nothing; if it has
    one, it returns true, the cell it fills is the element of that list
    chosen by the source, which was empty, the tile is 2 when
    [random.random()] is below 0.9 and 4 otherwise, every other cell is
    unchanged and the count of empty cells goes down by exactly one. *)
Theorem C7_add_random_tile (self : GameBoard.t) (r : Random) :
  well_formed self →
  let cells := GameBoard.board self in
  let empties := empty_indices cells in
  NoDup empties
  ∧ (∀ i, i ∈ empties ↔ cells !! i = Some 0)
  ∧ (∀ p, cells !! p = Some 0 →
          ∃ k, empties !! k = Some p ∧ ∀ k', empties !! k' = Some p → k' = k)
  ∧ (0 ∉ cells → GameBoard._add_random_tile self r = (Ok (false, self), r))
  ∧ (0 ∈ cells →
     ∃ position,
       let tile := new_tile (fraction (advance r)) in
       let after := GameBoard.set_board self (<[position := tile]> cells) in
       GameBoard._add_random_tile self r = (Ok (true, after), advance (advance r))
       ∧ empties !! (N.to_nat (r O) mod length empties)%nat = Some position
       ∧ cells !! position = Some 0
       ∧ GameBoard.board after !! position = Some tile
       ∧ (tile = 2 ↔ Qlt (fraction (advance r)) (9 # 10))
       ∧ (tile = 4 ↔ Qle (9 # 10) (fraction (advance r)))
       ∧ (∀ j, j ≠ position → GameBoard.board after !! j = cells !! j)
       ∧ GameBoard.get_empty_cell_count after = GameBoard.get_empty_cell_count self - 1
       ∧ well_formed after).
Proof.
  intros Hwf cells empties.
  split; [apply empty_indices_NoDup|]. split; [apply empty_indices_spec|].
  split.
  { intros p Hp. apply empty_indices_spec, list_elem_of_lookup in Hp.
    destruct Hp as [k Hk]. exists k. split; [exact Hk|]. intros k' Hk'.
    eapply NoDup_lookup; [apply empty_indices_NoDup|exact Hk'|exact Hk]. }
  assert (Hrun : GameBoard.empty_cells self = Ok empties) by now apply empty_cells_ok.
  split.
  - intros H. apply empty_indices_nil in H. fold empties in H.
    unfold GameBoard._add_random_tile. unfold_monad. now rewrite Hrun, H.
  - intros H.
    assert (Hne : empties ≠ []) by (intros C; now apply empty_indices_nil in C).
    assert (Hk : (N.to_nat (r O) mod length empties < length empties)%nat).
    { apply Nat.mod_upper_bound. destruct empties; [congruence|simpl; lia]. }
    destruct (getitem_lt empties _ Hk) as (position & Hpos & Hget).
    assert (Hzero : cells !! position = Some 0).
    { apply empty_indices_spec. now apply list_elem_of_lookup_2 in Hpos. }
    assert (Hlt : (position < length cells)%nat) by now apply lookup_lt_Some in Hzero.
    exists position. intros tile after.
    assert (Htile : tile ≠ 0).
    { unfold tile, new_tile. destruct (Qlt_le_dec _ _); lia. }
    split; [|split; [exact Hpos|split; [exact Hzero|]]].
    + unfold GameBoard._add_random_tile. unfold_monad. rewrite Hrun.
      destruct empties as [|e es] eqn:E; [congruence|].
      unfold choice. rewrite Hget. unfold random. fold (fraction (advance r)).
      fold (new_tile (fraction (advance r))). fold tile. fold cells.
      now rewrite setitem_lt.
    + split; [now apply list_lookup_insert_eq|].
      split; [|split; [|split; [|split]]].
      * unfold tile, new_tile. destruct (Qlt_le_dec _ _) as [L|L]; split; intros; try easy.
        exfalso. apply (Qlt_irrefl (9 # 10)). eapply Qle_lt_trans; eassumption.
      * unfold tile, new_tile. destruct (Qlt_le_dec _ _) as [L|L]; split; intros; try easy.
        exfalso. apply (Qlt_irrefl (9 # 10)). eapply Qle_lt_trans; eassumption.
      * intros j Hj. simpl. now apply list_lookup_insert_ne.
      * unfold GameBoard.get_empty_cell_count. simpl. fold cells.
        rewrite <- (count_after_fill cells position tile Hzero Htile). lia.
      * unfold well_formed. simpl. rewrite length_insert. exact Hwf.
Qed.

(** The grid [[2,0,0,4]] of side 2 is well formed and has an empty cell:
    with the all-zero source a tile is placed on a cell that was empty. *)
Lemma C7_add_random_tile_witness :
  well_formed (GameBoard.Build 2 [2; 0; 0; 4])
  ∧ ∃ position,
      fst (GameBoard._add_random_tile (GameBoard.Build 2 [2; 0; 0; 4]) zero_source)
      = Ok (true, GameBoard.Build 2
                    (<[position := new_tile (fraction (advance zero_source))]> [2; 0; 0; 4]))
      ∧ [2; 0; 0; 4] !! position = Some 0.
Proof.
  assert (H : well_formed (GameBoard.Build 2 [2; 0; 0; 4])) by reflexivity.
  split; [exact H|].
  destruct (C7_add_random_tile (GameBoard.Build 2 [2; 0; 0; 4]) zero_source H)
    as (_ & _ & _ & _ & T).
  destruct T as (position & Hrun & _ & Hzero & _).
  { apply list_elem_of_lookup. exists 1%nat. reflexivity. }
  exists position. rewrite Hrun. split; [reflexivity|exact Hzero].
Defined.

(** ** AIPlayer: the heuristic *)

Section Heuristic.

Implicit Types (cells : list Z) (b : GameBoard.t) (d : list (Z * Z)).

Lemma bias_loop b (total : Z) start n :
  GameBoard.size b ≠ O → (start + n ≤ length (GameBoard.board b))%nat →
  for_each
    (λ total i,
       col ← py_mod i (GameBoard.size b);
       row ← py_div i (GameBoard.size b);
       let weight := Z.of_nat (col + row) ^ 3 in
       cell ← getitem (GameBoard.board b) i;
       Ok (total + weight * cell))
    total (seq start n)
  = Ok (total
        + Zsum ((λ i, Z.of_nat (row (GameBoard.size b) i + col (GameBoard.size b) i) ^ 3
                      * default 0 (GameBoard.board b !! i)) <$> seq start n)).
Proof.
  intros Hsize. revert total start. induction n as [|n IH]; intros total start H; simpl.
  - now rewrite Z.add_0_r.
  - unfold py_mod, py_div. rewrite !decide_False by assumption. unfold_monad.
    fold (@for_each Z nat).
    destruct (getitem_lt (GameBoard.board b) start) as (v & Hv & ->); [lia|].
    rewrite IH by lia. rewrite Hv. simpl. unfold row, col.
    rewrite (Nat.add_comm (start mod _)). f_equal. symmetry. apply Z.add_assoc.
Qed.

Lemma bias_ok b :
  well_formed b →
  AIPlayer._calculate_bottom_right_bias b = Ok (positional_bias b).
Proof.
  intros H. unfold AIPlayer._calculate_bottom_right_bias, positional_bias, range.
  rewrite H.
  destruct (decide (GameBoard.size b = O)) as [E|E].
  - unfold GameBoard.total_cells. rewrite E. reflexivity.
  - rewrite bias_loop; [reflexivity|assumption|]. rewrite H. lia.
Qed.

(** *** The variety score: the dictionary against the sum over values *)

Lemma Zsum_cons (x : Z) (l : list Z) : Zsum (x :: l) = x + Zsum l.
Proof. reflexivity. Qed.

Ltac sum_step := rewrite ?fmap_cons, ?Zsum_cons.

Lemma Zsum_plus {A} (f g : A → Z) (l : list A) :
  Zsum ((λ x, f x + g x) <$> l) = Zsum (f <$> l) + Zsum (g <$> l).
Proof. induction l as [|x l IH]; [reflexivity|]. sum_step. rewrite IH. lia. Qed.

Lemma Zsum_ext {A} (f g : A → Z) (l : list A) :
  (∀ x, x ∈ l → f x = g x) → Zsum (f <$> l) = Zsum (g <$> l).
Proof.
  induction l as [|x l IH]; intros H; [reflexivity|]. sum_step.
  rewrite H by left. rewrite IH; [reflexivity|]. intros y Hy. apply H. now right.
Qed.

Lemma variety_fold (max_value : Z) d (acc : Z) :
  foldl (λ variety_score '(value, count),
           if decide (value ≠ 0) then variety_score + (max_value / value) * count
           else variety_score) acc d
  = acc + Zsum ((λ '(v, c), share max_value v * c) <$> d).
Proof.
  revert acc. induction d as [|[v c] d IH]; intros acc; [simpl; lia|].
  cbn [foldl]. rewrite IH. sum_step. unfold share. destruct (decide (v ≠ 0)); lia.
Qed.

Lemma count_set_sum (max_value : Z) d (v : Z) :
  Zsum ((λ '(v, c), share max_value v * c) <$> count_set d v (count_get d v + 1))
  = Zsum ((λ '(v, c), share max_value v * c) <$> d) + share max_value v.
Proof.
  induction d as [|[k c] d IH]; [simpl; lia|].
  cbn [count_set count_get].
  destruct (decide (k = v)) as [->|Hne]; sum_step; [lia|]. rewrite IH. lia.
Qed.

Lemma count_all_sum (max_value : Z) cells d :
  Zsum ((λ '(v, c), share max_value v * c)
        <$> foldl (λ variety value, count_set variety value (count_get variety value + 1))
              d cells)
  = Zsum ((λ '(v, c), share max_value v * c) <$> d) + Zsum (share max_value <$> cells).
Proof.
  revert d. induction cells as [|x cells IH]; intros d; [simpl; lia|].
  cbn [foldl]. sum_step. rewrite IH, count_set_sum. lia.
Qed.

Lemma variety_code b (max_value : Z) :
  AIPlayer._calculate_variety_score b max_value
  = Zsum (share max_value <$> GameBoard.board b).
Proof.
  unfold AIPlayer._calculate_variety_score. rewrite variety_fold, count_all_sum.
  simpl. lia.
Qed.

Lemma count_cons (v x : Z) cells :
  count v (x :: cells) = count v cells + (if decide (x = v) then 1 else 0).
Proof.
  unfold count. rewrite filter_cons. destruct (decide (x = v)); simpl length; lia.
Qed.

Lemma count_absent (v : Z) cells : v ∉ cells → count v cells = 0.
Proof.
  intros H. unfold count. induction cells as [|x cells IH]; [reflexivity|].
  rewrite filter_cons. rewrite not_elem_of_cons in H. destruct H as [H1 H2].
  rewrite decide_False by congruence. now apply IH.
Qed.

(** A sum that picks the one element equal to [x] of a list without
    duplicates. *)
Lemma Zsum_pick (g : Z → Z) (x : Z) (l : list Z) :
  NoDup l →
  Zsum ((λ v, g v * (if decide (x = v) then 1 else 0)) <$> l)
  = if decide (x ∈ l) then g x else 0.
Proof.
  induction 1 as [|y l Hy Hnd IH].
  - rewrite decide_False; [reflexivity|]. apply not_elem_of_nil.
  - sum_step. rewrite IH.
    destruct (decide (x = y)) as [->|Hne]; destruct (decide (_ ∈ l)) as [Hl|Hl];
      destruct (decide (_ ∈ _ :: l)) as [Hc|Hc]; try lia; exfalso;
      rewrite elem_of_cons in Hc; tauto.
Qed.

(** A sum over the elements is the sum over the distinct values, each
    taken as often as it occurs. *)
Lemma Zsum_by_value (g : Z → Z) cells :
  Zsum (g <$> cells) = Zsum ((λ v, g v * count v cells) <$> remove_dups cells).
Proof.
  induction cells as [|x cells IH]; [reflexivity|].
  assert (Hsplit : ∀ l, Zsum ((λ v, g v * count v (x :: cells)) <$> l)
                        = Zsum ((λ v, g v * count v cells) <$> l)
                          + Zsum ((λ v, g v * (if decide (x = v) then 1 else 0)) <$> l)).
  { intros l. rewrite <- Zsum_plus. apply Zsum_ext. intros v _. rewrite count_cons. lia. }
  cbn [remove_dups]. sum_step. destruct (decide_rel elem_of x cells) as [E|E].
  - rewrite Hsplit, <- IH, Zsum_pick by apply NoDup_remove_dups.
    rewrite decide_True by now apply elem_of_remove_dups. lia.
  - sum_step. rewrite Hsplit, <- IH, Zsum_pick by apply NoDup_remove_dups.
    rewrite decide_False by now rewrite elem_of_remove_dups.
    rewrite count_cons, count_absent by assumption.
    rewrite decide_True by reflexivity. lia.
Qed.

Lemma variety_by_cell cells (max_value : Z) :
  variety cells max_value = Zsum (share max_value <$> cells).
Proof.
  unfold variety.
  transitivity (Zsum (share max_value <$> filter (λ v, v ≠ 0) cells)).
  - rewrite (Zsum_by_value (share max_value)). apply Zsum_ext. intros v Hv.
    apply elem_of_remove_dups, list_elem_of_filter in Hv. destruct Hv as [Hv _].
    unfold share. rewrite decide_True by assumption. f_equal.
    unfold count. f_equal. clear -Hv.
    induction cells as [|x cells IH]; [reflexivity|].
    rewrite (filter_cons (λ v, v ≠ 0)). destruct (decide (x ≠ 0)) as [Hx|Hx].
    + rewrite !filter_cons. destruct (decide (x = v)); simpl; now rewrite IH.
    + rewrite filter_cons. rewrite decide_False by (intros ->; now apply Hx). exact IH.
  - induction cells as [|x cells IH]; [reflexivity|].
    rewrite filter_cons. destruct (decide (x ≠ 0)) as [Hx|Hx]; sum_step; rewrite IH.
    + reflexivity.
    + unfold share at 2. rewrite decide_False by assumption. lia.
Qed.

(** *** The greatest value and the number of empty cells *)

Lemma foldr_max_swap (l : list Z) (x y : Z) :
  foldr Z.max (Z.max x y) l = Z.max y (foldr Z.max x l).
Proof. induction l as [|z l IH]; simpl; [lia|]. rewrite IH. lia. Qed.

Lemma foldl_max_foldr (l : list Z) (x : Z) : foldl Z.max x l = foldr Z.max x l.
Proof.
  revert x. induction l as [|y l IH]; intros x; simpl; [reflexivity|].
  rewrite IH. apply foldr_max_swap.
Qed.

(** [get_max_value] returns the greatest value of the grid. *)
Lemma max_value_code b : GameBoard.get_max_value b = max_value (GameBoard.board b).
Proof.
  unfold GameBoard.get_max_value, max_value.
  destruct (GameBoard.board b) as [|x l]; [reflexivity|]. apply foldl_max_foldr.
Qed.

(** The greatest value is a value of the grid that no cell exceeds. *)
Lemma max_value_greatest cells :
  (cells ≠ [] → max_value cells ∈ cells) ∧ Forall (λ v, v ≤ max_value cells) cells.
Proof.
  destruct cells as [|x l]; [split; [congruence|constructor]|].
  unfold max_value. revert x. induction l as [|y l IH]; intros x.
  - simpl. split; [intros _; left|]. constructor; [lia|constructor].
  - destruct (IH x) as [Hin Hall]. specialize (Hin ltac:(discriminate)).
    apply Forall_cons in Hall. destruct Hall as [Hx Hall]. cbn [foldr] in *.
    split.
    + intros _. destruct (Z.max_spec y (foldr Z.max x l)) as [[_ ->]|[_ ->]].
      * apply elem_of_cons in Hin. destruct Hin as [Hin|Hin]; [rewrite Hin; left|].
        right. now right.
      * right. left.
    + constructor; [lia|]. constructor; [lia|].
      eapply Forall_impl; [exact Hall|]. intros v Hv. simpl in Hv. lia.
Qed.

(** [get_empty_cell_count] returns the number of empty cells. *)
Lemma empty_count_code b :
  GameBoard.get_empty_cell_count b = empty_count (GameBoard.board b).
Proof. reflexivity. Qed.

End Heuristic.

(** ** GameBoard: the game-over test *)

Section GameOver.

Implicit Types (b : GameBoard.t).

Lemma split_index (size i : nat) :
  size ≠ O → ∃ q r, i = (size * q + r)%nat ∧ (r < size)%nat
                    ∧ (i / size)%nat = q ∧ (i mod size)%nat = r.
Proof.
  intros H. exists (i / size)%nat, (i mod size)%nat.
  split; [apply Nat.div_mod_eq|]. split; [now apply Nat.mod_upper_bound|]. easy.
Qed.

Lemma right_in_range (size i : nat) :
  (i < size * size)%nat → (i mod size < size - 1)%nat → (i + 1 < size * size)%nat.
Proof.
  intros Hi Hc. assert (Hs : size ≠ O) by lia.
  destruct (split_index size i Hs) as (q & r & -> & Hr & _ & Hm).
  rewrite Hm in Hc. assert (q < size)%nat by nia. nia.
Qed.

Lemma below_in_range (size i : nat) :
  (i < size * size)%nat → ((i / size < size - 1)%nat ↔ (i + size < size * size)%nat).
Proof.
  intros Hi. assert (Hs : size ≠ O) by lia.
  destruct (split_index size i Hs) as (q & r & -> & Hr & Hd & _).
  rewrite Hd. assert (q < size)%nat by nia. nia.
Qed.

Lemma same_row (size i : nat) :
  size ≠ O → ((i mod size < size - 1)%nat ↔ row size i = row size (i + 1)).
Proof.
  intros Hs. unfold row.
  destruct (split_index size i Hs) as (q & r & Hi & Hr & Hd & Hm).
  destruct (split_index size (i + 1) Hs) as (q' & r' & Hi' & Hr' & Hd' & Hm').
  rewrite Hm, Hd, Hd'. nia.
Qed.

Lemma and_equal_ok b (guard : bool) j (value : Z) :
  (guard = true → (j < length (GameBoard.board b))%nat) →
  GameBoard.and_equal b guard j value
  = Ok (guard && bool_decide (GameBoard.board b !! j = Some value)).
Proof.
  intros H. unfold GameBoard.and_equal. destruct guard; [|reflexivity].
  destruct (getitem_lt (GameBoard.board b) j) as (x & Hx & ->); [now apply H|].
  unfold_monad. simpl. rewrite Hx. f_equal. apply bool_decide_ext.
  split; congruence.
Qed.

Lemma game_over_loop b start n :
  well_formed b → (start + n ≤ GameBoard.total_cells b)%nat →
  ∃ over, GameBoard.is_game_over_loop b (seq start n) = Ok over
          ∧ (over = true ↔ ∀ i, (start ≤ i < start + n)%nat → ¬ pair_at b i).
Proof.
  intros Hwf. revert start. induction n as [|n IH]; intros start H.
  - exists true. split; [reflexivity|]. split; [intros; lia|reflexivity].
  - assert (Hlt : (start < GameBoard.size b * GameBoard.size b)%nat)
      by (unfold GameBoard.total_cells in H; lia).
    assert (Hs : GameBoard.size b ≠ O) by lia.
    destruct (IH (S start)) as (rest & Hrest & Hiff); [lia|].
    cbn [seq GameBoard.is_game_over_loop].
    destruct (getitem_lt (GameBoard.board b) start) as (x & Hx & ->).
    { rewrite Hwf. exact Hlt. }
    unfold py_mod, py_div. rewrite !decide_False by assumption. unfold_monad.
    rewrite and_equal_ok.
    2:{ intros G. apply bool_decide_eq_true in G. rewrite Hwf.
        now apply right_in_range. }
    destruct (bool_decide (start mod _ < _)%nat && _) eqn:R.
    { exists false. split; [reflexivity|]. split; [discriminate|]. intros C. exfalso.
      apply andb_true_iff in R. destruct R as [R1 R2].
      apply bool_decide_eq_true in R1, R2.
      apply (C start); [lia|]. exists x. split; [assumption|]. left. now split. }
    rewrite and_equal_ok.
    2:{ intros G. apply bool_decide_eq_true in G. rewrite Hwf.
        now apply below_in_range. }
    destruct (bool_decide (start / _ < _)%nat && _) eqn:B.
    { exists false. split; [reflexivity|]. split; [discriminate|]. intros C. exfalso.
      apply andb_true_iff in B. destruct B as [B1 B2].
      apply bool_decide_eq_true in B1, B2.
      apply (C start); [lia|]. exists x. split; [assumption|]. right. now split. }
    exists rest. split; [exact Hrest|]. rewrite Hiff. split.
    + intros C i Hi. destruct (decide (i = start)) as [->|Hne]; [|apply C; lia].
      intros (y & Hy & [[P1 P2]|[P1 P2]]); rewrite Hx in Hy; injection Hy as <-.
      * rewrite bool_decide_eq_true_2 in R by assumption.
        rewrite bool_decide_eq_true_2 in R by assumption. discriminate R.
      * rewrite bool_decide_eq_true_2 in B by assumption.
        rewrite bool_decide_eq_true_2 in B by assumption. discriminate B.
    + intros C i Hi. apply C. lia.
Qed.

Lemma is_game_over_terminal b :
  well_formed b →
  ∃ over, GameBoard.is_game_over b = Ok over ∧ (over = true ↔ terminal b).
Proof.
  intros Hwf. unfold GameBoard.is_game_over, terminal.
  destruct (bool_decide (0 ∈ GameBoard.board b)) eqn:Z0.
  { apply bool_decide_eq_true in Z0. exists false. split; [reflexivity|].
    split; [discriminate|]. intros [C _]. contradiction. }
  apply bool_decide_eq_false in Z0.
  destruct (game_over_loop b 0 (GameBoard.total_cells b) Hwf) as (over & Hrun & Hiff); [lia|].
  exists over. split; [exact Hrun|]. rewrite Hiff. split.
  - intros C. split; [exact Z0|]. intros i j x Hadj Hi Hj. exfalso.
    assert (Hlt : (i < GameBoard.size b * GameBoard.size b)%nat).
    { apply lookup_lt_Some in Hi. rewrite Hwf in Hi. exact Hi. }
    apply (C i). { unfold GameBoard.total_cells. lia. }
    exists x. split; [exact Hi|]. destruct Hadj as [[-> Hrow]|Hbelow].
    + left. split; [|exact Hj]. apply same_row; [lia|exact Hrow].
    + right. unfold below in Hbelow. subst j. split; [|exact Hj].
      apply below_in_range; [exact Hlt|].
      apply lookup_lt_Some in Hj. rewrite Hwf in Hj. exact Hj.
  - intros [_ C] i _ (x & Hi & Hpair). apply Z0.
    assert (Hs : GameBoard.size b ≠ O).
    { apply lookup_lt_Some in Hi. rewrite Hwf in Hi. unfold GameBoard.total_cells in Hi. lia. }
    assert (x = 0) as ->; [|now apply list_elem_of_lookup_2 in Hi].
    destruct Hpair as [[P1 P2]|[P1 P2]].
    + apply (C i (i + 1)%nat x); [left|exact Hi|exact P2].
      split; [reflexivity|]. now apply same_row.
    + apply (C i (i + GameBoard.size b)%nat x); [right; reflexivity|exact Hi|exact P2].
Qed.

End GameOver.

(** C10: on a grid of [size * size] cells, [_evaluate_position] returns
    [-(score^4)] when the board is terminal (no empty cell and no two
    cells adjacent in a row or a column with equal non-zero values), and
    otherwise exactly [empty_count^2 * max_value * 1024
    + 4 * Σ_i (row(i)+col(i))^3 * grid[i] + max_value * score
    + Σ_{v≠0} floor(max_value / v) * count(v)], where [empty_count] is the
    number of cells that hold 0 and [max_value] the greatest value of a
    cell (0 for a grid without cells). *)
Theorem C10_evaluate_position (b : GameBoard.t) (score : Z) :
  well_formed b →
  ∃ over,
    GameBoard.is_game_over b = Ok over
    ∧ (over = true ↔ terminal b)
    ∧ AIPlayer._evaluate_position b score
      = Ok (if over then - score ^ 4 else evaluation b score).
Proof.
  intros Hwf. destruct (is_game_over_terminal b Hwf) as (over & Hrun & Hiff).
  exists over. split; [exact Hrun|]. split; [exact Hiff|].
  unfold AIPlayer._evaluate_position. rewrite Hrun. unfold_monad.
  destruct over; [f_equal; lia|].
  rewrite bias_ok by exact Hwf. rewrite variety_code, <- variety_by_cell.
  rewrite empty_count_code, max_value_code. unfold evaluation. cbn zeta. f_equal. lia.
Qed.

(** The board [[2,4,0,2]] of side 2 is well formed and not terminal: with
    score 4 its value is [1^2 * 4 * 1024 + 4 * 20 + 4 * 4 + 5 = 4197]; the
    board [[2,4,4,8]] is terminal. *)
Lemma C10_evaluate_position_witness :
  well_formed (GameBoard.Build 2 [2; 4; 0; 2])
  ∧ AIPlayer._evaluate_position (GameBoard.Build 2 [2; 4; 0; 2]) 4 = Ok 4197
  ∧ AIPlayer._evaluate_position (GameBoard.Build 2 [2; 4; 4; 8]) 3 = Ok (-81).
Proof.
  assert (H1 : well_formed (GameBoard.Build 2 [2; 4; 0; 2])) by reflexivity.
  assert (H2 : well_formed (GameBoard.Build 2 [2; 4; 4; 8])) by reflexivity.
  split; [exact H1|]. split.
  - destruct (C10_evaluate_position (GameBoard.Build 2 [2; 4; 0; 2]) 4 H1)
      as (over & Hrun & _ & Heval).
    rewrite Heval. vm_compute in Hrun. injection Hrun as <-. reflexivity.
  - destruct (C10_evaluate_position (GameBoard.Build 2 [2; 4; 4; 8]) 3 H2)
      as (over & Hrun & _ & Heval).
    rewrite Heval. vm_compute in Hrun. injection Hrun as <-. reflexivity.
Defined.

(** C4: whatever the session and the random source, [get_ai_move] raises:
    its first statement reads [self.player_type], which no session has,
    and the name [PlayerType], which the module does not bind; nor has a
    session the attributes [stuck_counter] and [ai] that the rest of the
    method reads. *)
Theorem C4_get_ai_move_raises (g : Game2048.t) (r : Random) :
  Game2048.get_ai_move g r = (Raise AttributeError, r)
  ∧ Game2048.getattr g "player_type" = Raise AttributeError
  ∧ global_name "PlayerType" = Raise NameError
  ∧ Game2048.getattr g "stuck_counter" = Raise AttributeError
  ∧ Game2048.getattr g "ai" = Raise AttributeError.
Proof. repeat split; reflexivity. Qed.

(** ** MoveDirection: the traversal orders *)

Section Orders.

Lemma range_down_length n : length (range_down n) = n.
Proof. induction n as [|n IH]; simpl; [reflexivity|now rewrite IH]. Qed.

Lemma range_down_below n : Forall (λ i, i < n)%nat (range_down n).
Proof.
  induction n as [|n IH]; simpl; constructor; [lia|].
  eapply Forall_impl; [exact IH|]. simpl. intros. lia.
Qed.

Lemma range_step_count (size i : nat) :
  (i < size)%nat → ((size * size - i + size - 1) / size)%nat = size.
Proof.
  intros H. symmetry. apply (Nat.div_unique _ _ _ (size - 1 - i)); [lia|nia].
Qed.

Lemma range_step_order (size i : nat) :
  (i < size)%nat →
  length (range_step i (size * size) size) = size
  ∧ Forall (λ j, j < size * size)%nat (range_step i (size * size) size).
Proof.
  intros H. unfold range_step. rewrite range_step_count by assumption. split.
  - now rewrite length_fmap, length_seq.
  - apply Forall_fmap, Forall_forall. intros k Hk. apply elem_of_seq in Hk. simpl. nia.
Qed.

(** Blocks of [size] indices below [total], one per element of [starts]. *)
Lemma blocks_order (size total : nat) (block : nat → list nat) (starts : list nat) :
  (∀ i, i ∈ starts → length (block i) = size ∧ Forall (λ j, j < total)%nat (block i)) →
  length (mjoin (block <$> starts)) = (length starts * size)%nat
  ∧ Forall (λ j, j < total)%nat (mjoin (block <$> starts)).
Proof.
  induction starts as [|i starts IH]; intros H; [split; [reflexivity|constructor]|].
  destruct (H i) as [H1 H2]; [left|].
  destruct IH as [IH1 IH2]; [intros j Hj; apply H; now right|].
  rewrite fmap_cons. cbn [mjoin list_join]. split.
  - rewrite length_app, H1. simpl. f_equal. exact IH1.
  - apply Forall_app. now split.
Qed.

Lemma directions_order (size : nat) (direction : string) (order : list nat) :
  dict_get (MoveDirection.directions (MoveDirection.__init__ size)) direction = Some order →
  order_for (size * size) order.
Proof.
  unfold MoveDirection.directions, MoveDirection.__init__. cbn [dict_get
    MoveDirection.up MoveDirection.down MoveDirection.left MoveDirection.right].
  repeat (destruct (decide _) as [_|_]; [intros [= <-]|]); [| | | |discriminate].
  - split; [apply length_seq|]. apply Forall_forall. intros i Hi.
    apply elem_of_seq in Hi. lia.
  - destruct (blocks_order size (size * size)
                (λ i, range_step i (size * size) size) (range size)) as [H1 H2].
    { intros i Hi. apply elem_of_seq in Hi. apply range_step_order. lia. }
    split; [|exact H2]. rewrite H1. unfold range. now rewrite length_seq.
  - split; [apply range_down_length|apply range_down_below].
  - destruct (blocks_order size (size * size)
                (λ i, range_step i (size * size) size) (range_down size)) as [H1 H2].
    { intros i Hi. apply range_step_order.
      pose proof (range_down_below size) as B. rewrite Forall_forall in B. now apply B. }
    split; [|exact H2]. rewrite H1. now rewrite range_down_length.
Qed.

Lemma keys_directions (size : nat) (direction : string) :
  direction ∈ keys →
  ∃ order,
    dict_get (MoveDirection.directions (MoveDirection.__init__ size)) direction = Some order
    ∧ MoveDirection.get_direction_indices (MoveDirection.__init__ size) direction = order.
Proof.
  intros H. unfold MoveDirection.get_direction_indices.
  unfold keys in H. repeat (apply elem_of_cons in H; destruct H as [->|H]);
    [eexists; split; reflexivity ..|]. inversion H.
Qed.

End Orders.

(** ** GameLogic: the slide and merge step returns *)

Section ProcessMove.

Implicit Types (cells : list Z) (order : list nat).

Lemma nonneg_insert cells i (v : Z) :
  Forall (λ x, 0 ≤ x) cells → 0 ≤ v → Forall (λ x, 0 ≤ x) (<[i := v]> cells).
Proof. intros H Hv. now apply Forall_insert. Qed.

Lemma nonneg_lookup cells i (v : Z) :
  Forall (λ x, 0 ≤ x) cells → cells !! i = Some v → 0 ≤ v.
Proof. intros H Hv. rewrite Forall_forall in H. apply H. now apply list_elem_of_lookup_2 in Hv. Qed.

(** With fuel above [next_i] the loop runs to its end: it returns the
    cells, as many as before, and a score; on cells that are not negative
    the score does not go down and no cell becomes negative. *)
Lemma look_backward_ok (total size : nat) order :
  (0 < size)%nat → order_for total order →
  ∀ (fuel : nat) cells (pos : nat) (next_i score : Z),
    length cells = total → (pos < total)%nat →
    next_i < Z.of_nat fuel → next_i < Z.of_nat total →
    ∃ cells' score',
      GameLogic.look_backward fuel size order cells pos next_i score = Ok (cells', score')
      ∧ length cells' = total
      ∧ (Forall (λ x, 0 ≤ x) cells → Forall (λ x, 0 ≤ x) cells' ∧ score ≤ score').
Proof.
  intros Hsize [Hlen Hbelow].
  induction fuel as [|fuel IH]; intros cells pos next_i score Hcells Hpos Hfuel Hnext.
  - exists cells, score. simpl. rewrite decide_True by lia.
    split; [reflexivity|]. split; [assumption|]. intros; split; [assumption|lia].
  - cbn [GameLogic.look_backward]. destruct (decide (next_i < 0)) as [Hneg|Hneg].
    { exists cells, score. split; [reflexivity|]. split; [assumption|].
      intros; split; [assumption|lia]. }
    destruct (getitem_lt order (Z.to_nat next_i)) as (next_pos & Hnp & Hg1); [lia|].
    run Hg1.
    assert (Hnext_pos : (next_pos < total)%nat).
    { rewrite Forall_forall in Hbelow. apply Hbelow. now apply list_elem_of_lookup_2 in Hnp. }
    destruct (getitem_lt cells next_pos) as (target & Htarget & Hg2); [lia|]. run Hg2.
    destruct (getitem_lt cells pos) as (tile & Htile & Hg3); [lia|].
    destruct (decide (target = 0)) as [Hzero|Hzero].
    + run Hg3. rewrite !setitem_lt by (rewrite ?length_insert; lia).
      destruct (IH (<[pos := 0]> (<[next_pos := tile]> cells)) next_pos
                  (next_i - Z.of_nat size) score)
        as (cells' & score' & Hrun & Hlen' & Hnonneg);
        [rewrite !length_insert; lia|lia|lia|lia|].
      exists cells', score'. split; [exact Hrun|]. split; [exact Hlen'|].
      intros H. apply Hnonneg. apply nonneg_insert; [|lia].
      apply nonneg_insert; [assumption|]. now apply (nonneg_lookup cells pos).
    + run Hg3. destruct (decide (tile = target)) as [->|Hdiff].
      * rewrite !setitem_lt by (rewrite ?length_insert; lia).
        destruct (getitem_lt (<[pos := 0]> (<[next_pos := 2 * target]> cells)) next_pos)
          as (merged & Hmerged & Hg4); [rewrite !length_insert; lia|].
        rewrite Hg4.
        eexists _, _. split; [reflexivity|]. split; [rewrite !length_insert; lia|].
        intros H.
        assert (Hall : Forall (λ x, 0 ≤ x) (<[pos := 0]> (<[next_pos := 2 * target]> cells))).
        { apply nonneg_insert; [|lia]. apply nonneg_insert; [assumption|].
          pose proof (nonneg_lookup cells pos target H Htile). lia. }
        split; [exact Hall|]. pose proof (nonneg_lookup _ _ _ Hall Hmerged). lia.
      * exists cells, score. split; [reflexivity|]. split; [assumption|].
        intros; split; [assumption|lia].
Qed.

Lemma process_position_ok (total size : nat) order cells (score : Z) (i : nat) :
  (0 < size)%nat → order_for total order → length cells = total → (i < total)%nat →
  ∃ cells' score',
    GameLogic.process_position size order (cells, score) i = Ok (cells', score')
    ∧ length cells' = total
    ∧ (Forall (λ x, 0 ≤ x) cells → Forall (λ x, 0 ≤ x) cells' ∧ score ≤ score').
Proof.
  intros Hsize Horder Hcells Hi. unfold GameLogic.process_position.
  destruct Horder as [Hlen Hbelow].
  destruct (getitem_lt order i) as (pos & Hpos & Hg1); [lia|]. run Hg1.
  assert (Hp : (pos < total)%nat).
  { rewrite Forall_forall in Hbelow. apply Hbelow. now apply list_elem_of_lookup_2 in Hpos. }
  destruct (getitem_lt cells pos) as (tile & Htile & Hg2); [lia|]. run Hg2.
  destruct (decide (tile = 0)).
  - exists cells, score. split; [reflexivity|]. split; [assumption|].
    intros; split; [assumption|lia].
  - apply (look_backward_ok total size order Hsize (conj Hlen Hbelow)); lia.
Qed.

Lemma process_loop_ok (total size : nat) order (indices : list nat) :
  (0 < size)%nat → order_for total order → Forall (λ i, i < total)%nat indices →
  ∀ cells (score : Z), length cells = total →
    ∃ cells' score',
      for_each (GameLogic.process_position size order) (cells, score) indices
      = Ok (cells', score')
      ∧ length cells' = total
      ∧ (Forall (λ x, 0 ≤ x) cells → Forall (λ x, 0 ≤ x) cells' ∧ score ≤ score').
Proof.
  intros Hsize Horder. induction indices as [|i indices IH]; intros Hind cells score Hcells.
  - exists cells, score. split; [reflexivity|]. split; [assumption|].
    intros; split; [assumption|lia].
  - apply Forall_cons in Hind. destruct Hind as [Hi Hind].
    destruct (process_position_ok total size order cells score i Hsize Horder Hcells Hi)
      as (cells1 & score1 & Hrun1 & Hlen1 & Hnn1).
    destruct (IH Hind cells1 score1 Hlen1) as (cells2 & score2 & Hrun2 & Hlen2 & Hnn2).
    exists cells2, score2. cbn [for_each]. rewrite Hrun1. unfold_monad.
    split; [exact Hrun2|]. split; [exact Hlen2|].
    intros H. destruct (Hnn1 H) as [H1 L1]. destruct (Hnn2 H1) as [H2 L2].
    split; [exact H2|lia].
Qed.

(** On a well-formed board and for each of the four keys,
    [_process_move] returns: a score and as many cells as before. *)
Lemma process_move_ok (b : GameBoard.t) (direction : string) :
  well_formed b → direction ∈ keys →
  ∃ score cells,
    GameLogic._process_move (logic_of b) direction = Ok (score, cells)
    ∧ length cells = GameBoard.total_cells b
    ∧ (Forall (λ x, 0 ≤ x) (GameBoard.board b) → Forall (λ x, 0 ≤ x) cells ∧ 0 ≤ score).
Proof.
  intros Hwf Hkey. unfold GameLogic._process_move, logic_of.
  cbn [GameLogic.board GameLogic.move_direction].
  destruct (keys_directions (GameBoard.size b) direction Hkey) as (order & Hget & ->).
  apply directions_order in Hget.
  destruct (decide (GameBoard.size b = O)) as [E|E].
  - unfold GameBoard.total_cells, range. rewrite E. simpl. unfold_monad.
    eexists _, _. split; [reflexivity|]. split.
    + rewrite Hwf. unfold GameBoard.total_cells. now rewrite E.
    + intros; split; [assumption|lia].
  - destruct (process_loop_ok (GameBoard.total_cells b) (GameBoard.size b) order
                (range (GameBoard.total_cells b))) with (cells := GameBoard.board b) (score := 0)
      as (cells & score & Hrun & Hlen & Hnn); [lia|exact Hget| |exact Hwf|].
    { apply Forall_forall. intros i Hi. apply elem_of_seq in Hi. lia. }
    rewrite Hrun. unfold_monad. exists score, cells. split; [reflexivity|].
    split; [exact Hlen|exact Hnn].
Qed.

(** The fuel is never what stops [_process_move]: on any board, well
    formed or not, and for any string it returns or raises. *)
Lemma look_backward_fuel (size : nat) order :
  (0 < size)%nat →
  ∀ (fuel : nat) cells (pos : nat) (next_i score : Z),
    next_i < Z.of_nat fuel →
    GameLogic.look_backward fuel size order cells pos next_i score ≠ Timeout.
Proof.
  intros Hsize. induction fuel as [|fuel IH]; intros cells pos next_i score Hfuel.
  - simpl. rewrite decide_True by lia. discriminate.
  - cbn [GameLogic.look_backward]. destruct (decide (next_i < 0)); [discriminate|].
    unfold getitem, setitem. unfold_monad.
    repeat (match goal with
            | |- context [match ?l !! ?i with _ => _ end] => destruct (l !! i)
            | |- context [decide ?P] => destruct (decide P)
            end; try discriminate).
    all: apply IH; lia.
Qed.

Lemma process_loop_fuel (size : nat) order (indices : list nat) st :
  (0 < size)%nat →
  for_each (GameLogic.process_position size order) st indices ≠ Timeout.
Proof.
  intros Hsize. revert st. induction indices as [|i indices IH]; intros [cells score].
  - discriminate.
  - cbn [for_each]. unfold_monad.
    destruct (GameLogic.process_position size order (cells, score) i) as [st'|e|] eqn:E;
      [apply IH|discriminate|].
    exfalso. revert E. unfold GameLogic.process_position, getitem. unfold_monad.
    destruct (order !! i) as [pos|]; [|discriminate].
    destruct (cells !! pos) as [tile|]; [|discriminate].
    destruct (decide (tile = 0)); [discriminate|].
    apply look_backward_fuel; [exact Hsize|lia].
Qed.

Lemma process_move_fuel (self : GameLogic.t) (direction : string) :
  ∃ outcome, GameLogic._process_move self direction = outcome
             ∧ match outcome with Timeout => False | _ => True end.
Proof.
  eexists. split; [reflexivity|]. unfold GameLogic._process_move.
  destruct (decide (GameBoard.size (GameLogic.board self) = O)) as [E|E].
  - unfold GameBoard.total_cells. rewrite E. exact I.
  - pose proof (process_loop_fuel (GameBoard.size (GameLogic.board self))
                  (MoveDirection.get_direction_indices (GameLogic.move_direction self)
                     direction)
                  (range (GameBoard.total_cells (GameLogic.board self)))
                  (GameBoard.board (GameLogic.board self), 0)) as H.
    unfold_monad. destruct (for_each _ _ _) as [[cells score]|e|]; [exact I|exact I|].
    apply H; [lia|reflexivity].
Qed.

End ProcessMove.

(** ** AIPlayer: the search *)

Section Search.

Implicit Types (b : GameBoard.t) (r : Random).

(** [_add_random_tile] on a well-formed board, in one equation. *)
Lemma add_random_tile_run b r :
  well_formed b →
  GameBoard._add_random_tile b r
  = match empty_indices (GameBoard.board b)
            !! (N.to_nat (r O) mod length (empty_indices (GameBoard.board b)))%nat with
    | None => (Ok (false, b), r)
    | Some position =>
      (Ok (true, GameBoard.set_board b
                   (<[position := new_tile (fraction (advance r))]> (GameBoard.board b))),
       advance (advance r))
    end.
Proof.
  intros Hwf. unfold GameBoard._add_random_tile. unfold_monad.
  rewrite empty_cells_ok by exact Hwf.
  destruct (empty_indices (GameBoard.board b)) as [|e es] eqn:E; [reflexivity|].
  assert (Hk : (N.to_nat (r O) mod length (e :: es) < length (e :: es))%nat).
  { apply Nat.mod_upper_bound. simpl. lia. }
  destruct (getitem_lt (e :: es) _ Hk) as (position & Hpos & Hget).
  unfold choice. rewrite Hget, Hpos. unfold random.
  fold (fraction (advance r)). fold (new_tile (fraction (advance r))).
  rewrite setitem_lt; [reflexivity|].
  assert (Hin : position ∈ empty_indices (GameBoard.board b)).
  { rewrite E. now apply list_elem_of_lookup_2 in Hpos. }
  apply empty_indices_spec in Hin. now apply lookup_lt_Some in Hin.
Qed.

Lemma new_tile_positive (u : Q) : 0 < new_tile u.
Proof. unfold new_tile. destruct (Qlt_le_dec _ _); lia. Qed.

(** [_add_random_tile] returns, and keeps the board well formed, of the
    same size and without negative cells. *)
Lemma add_random_tile_ok b r :
  well_formed b →
  ∃ placed b' r',
    GameBoard._add_random_tile b r = (Ok (placed, b'), r')
    ∧ well_formed b' ∧ GameBoard.size b' = GameBoard.size b
    ∧ (Forall (λ x, 0 ≤ x) (GameBoard.board b) → Forall (λ x, 0 ≤ x) (GameBoard.board b')).
Proof.
  intros Hwf. rewrite add_random_tile_run by exact Hwf.
  destruct (_ !! _) as [position|].
  - eexists _, _, _. split; [reflexivity|]. split; [|split; [reflexivity|]].
    + unfold well_formed. simpl. rewrite length_insert. exact Hwf.
    + intros H. simpl. apply nonneg_insert; [exact H|].
      pose proof (new_tile_positive (fraction (advance r))). lia.
  - eexists _, _, _. split; [reflexivity|]. easy.
Qed.

(** The constructor returns a board of the size asked for. *)
Lemma init_ok (size : nat) r :
  ∃ b' r', GameBoard.__init__ size r = (Ok b', r') ∧ GameBoard.size b' = size.
Proof.
  unfold GameBoard.__init__, GameBoard._initialize_board.
  set (b0 := GameBoard.set_board _ _).
  assert (H0 : well_formed b0).
  { unfold well_formed, b0. simpl. now rewrite length_replicate. }
  destruct (add_random_tile_ok b0 r H0) as (p1 & b1 & r1 & Hrun1 & H1 & Hs1 & _).
  destruct (add_random_tile_ok b1 r1 H1) as (p2 & b2 & r2 & Hrun2 & H2 & Hs2 & _).
  exists b2, r2. unfold_monad. rewrite Hrun1, Hrun2. split; [reflexivity|].
  rewrite Hs2, Hs1. reflexivity.
Qed.

(** [copy] returns the board itself: same size, same cells. *)
Lemma copy_ok b r : ∃ r', GameBoard.copy b r = (Ok b, r').
Proof.
  unfold GameBoard.copy. destruct (init_ok (GameBoard.size b) r) as (b' & r' & Hrun & Hs).
  exists r'. unfold_monad. rewrite Hrun. unfold GameBoard.set_board. rewrite Hs.
  now destruct b.
Qed.

(** The heuristic returns a number on a well-formed board. *)
Lemma evaluate_position_ok b (score : Z) :
  well_formed b → ∃ value, AIPlayer._evaluate_position b score = Ok value.
Proof.
  intros Hwf. destruct (is_game_over_terminal b Hwf) as (over & Hover & _).
  unfold AIPlayer._evaluate_position. rewrite Hover. unfold_monad.
  destruct over; [eauto|]. rewrite bias_ok by exact Hwf. eauto.
Qed.

(** [make_move] of the game logic on a well-formed board, for one of the
    four keys: without a change it returns the logic as it was and draws
    nothing; with a change it places a tile. *)
Lemma make_move_cases b (direction : string) r :
  well_formed b → direction ∈ keys →
  ∃ score cells,
    GameLogic._process_move (logic_of b) direction = Ok (score, cells)
    ∧ (Forall (λ x, 0 ≤ x) (GameBoard.board b) → 0 ≤ score)
    ∧ (cells = GameBoard.board b →
       GameLogic.make_move (logic_of b) direction r = (Ok (score, false, logic_of b), r))
    ∧ (cells ≠ GameBoard.board b →
       ∃ b' r',
         GameLogic.make_move (logic_of b) direction r = (Ok (score, true, logic_of b'), r')
         ∧ well_formed b' ∧ GameBoard.size b' = GameBoard.size b
         ∧ (Forall (λ x, 0 ≤ x) (GameBoard.board b) →
            Forall (λ x, 0 ≤ x) (GameBoard.board b'))).
Proof.
  intros Hwf Hkey.
  destruct (process_move_ok b direction Hwf Hkey) as (score & cells & Hrun & Hlen & Hnn).
  exists score, cells. split; [exact Hrun|]. split; [intros H; now apply Hnn|].
  destruct (keys_directions (GameBoard.size b) direction Hkey) as (order & Hget & _).
  unfold GameLogic.make_move. cbn [logic_of GameLogic.move_direction GameLogic.board].
  rewrite Hget. unfold_monad. fold (logic_of b). rewrite Hrun. split.
  - intros ->. rewrite bool_decide_eq_false_2 by (intros C; now apply C).
    unfold logic_of, GameBoard.set_board. now destruct b.
  - intros Hne. rewrite bool_decide_eq_true_2 by exact Hne.
    assert (Hwf' : well_formed (GameBoard.set_board b cells)) by exact Hlen.
    destruct (add_random_tile_ok _ r Hwf') as (placed & b' & r' & Hadd & Hwf'' & Hsize & Hnn').
    cbn [GameLogic.board GameLogic.move_direction]. rewrite Hadd.
    exists b', r'. split; [|split; [exact Hwf''|split; [exact Hsize|]]].
    + unfold logic_of. rewrite Hsize. reflexivity.
    + intros H. apply Hnn'. now apply Hnn.
Qed.

(** One turn of the search on a well-formed board. *)
Lemma try_direction_cases (self : AIPlayer.t) b (score : Z)
    (best_move : string) (best_score : bound) (direction : string) r :
  well_formed b →
  GameLogic.move_direction (AIPlayer.game_logic self) = MoveDirection.__init__ (GameBoard.size b) →
  direction ∈ keys →
  (¬ changes b direction →
   ∃ r', AIPlayer.try_direction self b score (best_move, best_score) direction r
         = (Ok (best_move, best_score), r'))
  ∧ (changes b direction →
     ∃ value r',
       AIPlayer.try_direction self b score (best_move, best_score) direction r
       = (Ok (if exceeds value best_score then (direction, Fin value)
              else (best_move, best_score)), r')).
Proof.
  intros Hwf Hmd Hkey. unfold AIPlayer.try_direction.
  destruct (copy_ok b r) as (r1 & Hcopy). unfold_monad. rewrite Hcopy, Hmd.
  fold (logic_of b).
  destruct (make_move_cases b direction r1 Hwf Hkey)
    as (gained & cells & Hrun & _ & Hsame & Hdiff).
  split.
  - intros Hno. destruct (decide (cells = GameBoard.board b)) as [E|E].
    + rewrite (Hsame E). eauto.
    + exfalso. apply Hno. exists gained, cells. now split.
  - intros (gained' & cells' & Hrun' & Hne). rewrite Hrun in Hrun'.
    injection Hrun' as <- <-.
    destruct (Hdiff Hne) as (b' & r' & Hmove & Hwf' & _). rewrite Hmove.
    cbn [logic_of GameLogic.board].
    destruct (evaluate_position_ok b' (score + gained) Hwf') as (value & Heval).
    rewrite Heval. exists value, r'. destruct (exceeds _ _); reflexivity.
Qed.

Lemma for_each_rand_app {S X} (body : S → X → rand S) (st st1 : S) (l1 l2 : list X) r r1 :
  for_each_rand body st l1 r = (Ok st1, r1) →
  for_each_rand body st (l1 ++ l2) r = for_each_rand body st1 l2 r1.
Proof.
  revert st r. induction l1 as [|x l1 IH]; intros st r H.
  - cbn in H. injection H as <- <-. reflexivity.
  - cbn [app for_each_rand] in *. unfold_monad.
    destruct (body st x r) as [[st'|e|] r']; try discriminate H. now apply IH.
Qed.

(** Directions that change nothing leave the best move found so far. *)
Lemma search_skips (self : AIPlayer.t) b (score : Z) (directions : list string) :
  well_formed b →
  GameLogic.move_direction (AIPlayer.game_logic self) = MoveDirection.__init__ (GameBoard.size b) →
  (∀ d, d ∈ directions → d ∈ keys ∧ ¬ changes b d) →
  ∀ st r, ∃ r', for_each_rand (AIPlayer.try_direction self b score) st directions r
                = (Ok st, r').
Proof.
  intros Hwf Hmd. induction directions as [|d directions IH]; intros H [bm bs] r.
  - exists r. reflexivity.
  - destruct (H d) as [Hkey Hno]; [left|].
    destruct (try_direction_cases self b score bm bs d r Hwf Hmd Hkey) as [Hskip _].
    destruct (Hskip Hno) as (r1 & Hrun1).
    destruct (IH (λ d' Hd', H d' (list_elem_of_further _ _ _ Hd')) (bm, bs) r1) as (r2 & Hrun2).
    exists r2. cbn [for_each_rand]. unfold_monad. now rewrite Hrun1.
Qed.

(** With the stuck counter at most 5 and no direction that changes the
    grid, [get_move] returns the key it starts from. *)
Lemma get_move_no_change (self : AIPlayer.t) b (score : Z) r :
  well_formed b →
  GameLogic.move_direction (AIPlayer.game_logic self) = MoveDirection.__init__ (GameBoard.size b) →
  AIPlayer.stuck_counter self ≤ 5 →
  (∀ d, d ∈ keys → ¬ changes b d) →
  fst (AIPlayer.get_move self b score r) = Ok "w".
Proof.
  intros Hwf Hmd Hstuck Hno. unfold AIPlayer.get_move.
  rewrite !decide_False by lia. unfold AIPlayer._get_best_move.
  destruct (search_skips self b score keys Hwf Hmd) with (st := ("w", NegInf)) (r := r)
    as (r' & Hrun).
  { intros d Hd. split; [exact Hd|now apply Hno]. }
  unfold keys in Hrun. now rewrite Hrun.
Qed.

(** With the stuck counter at most 5 and one direction that changes the
    grid, [get_move] returns that direction. *)
Lemma get_move_one_change (self : AIPlayer.t) b (score : Z) (direction : string) r :
  well_formed b →
  GameLogic.move_direction (AIPlayer.game_logic self) = MoveDirection.__init__ (GameBoard.size b) →
  AIPlayer.stuck_counter self ≤ 5 →
  direction ∈ keys → changes b direction →
  (∀ d, d ∈ keys → d ≠ direction → ¬ changes b d) →
  fst (AIPlayer.get_move self b score r) = Ok direction.
Proof.
  intros Hwf Hmd Hstuck Hkey Hyes Hno. unfold AIPlayer.get_move.
  rewrite !decide_False by lia. unfold AIPlayer._get_best_move.
  assert (Hnodup : NoDup keys) by (apply (bool_decide_unpack (NoDup keys)); vm_compute; exact I).
  destruct (list_elem_of_split _ _ Hkey) as (before & after & Hsplit).
  fold keys. rewrite Hsplit in Hnodup |- *.
  apply NoDup_app in Hnodup. destruct Hnodup as (_ & Hbefore & Hafter).
  apply NoDup_cons in Hafter. destruct Hafter as [Hafter _].
  assert (Hin : ∀ d, d ∈ before ∨ d ∈ after → d ∈ keys ∧ ¬ changes b d).
  { intros d Hd. assert (Hk : d ∈ keys).
    { rewrite Hsplit, elem_of_app, elem_of_cons. tauto. }
    split; [exact Hk|]. apply Hno; [exact Hk|]. intros ->. destruct Hd as [Hd|Hd].
    - apply (Hbefore direction Hd). left.
    - now apply Hafter. }
  destruct (search_skips self b score before Hwf Hmd) with (st := ("w", NegInf)) (r := r)
    as (r1 & Hrun1); [intros d Hd; apply Hin; now left|].
  destruct (try_direction_cases self b score "w" NegInf direction r1 Hwf Hmd Hkey)
    as [_ Htry].
  destruct (Htry Hyes) as (value & r2 & Hrun2). cbn [exceeds] in Hrun2.
  destruct (search_skips self b score after Hwf Hmd) with (st := (direction, Fin value)) (r := r2)
    as (r3 & Hrun3); [intros d Hd; apply Hin; now right|].
  assert (Hall : for_each_rand (AIPlayer.try_direction self b score) ("w", NegInf)
                   (before ++ direction :: after) r = (Ok (direction, Fin value), r3)).
  { rewrite (for_each_rand_app _ _ _ _ _ _ _ Hrun1). cbn [for_each_rand].
    unfold_monad. now rewrite Hrun2. }
  now rewrite Hall.
Qed.

End Search.

(** The cases of a key. *)
Ltac each_key H :=
  unfold keys in H; repeat (apply elem_of_cons in H; destruct H as [->|H]);
  [ | | | |inversion H].

(** A direction that leaves a concrete board as it is. *)
Ltac no_change :=
  let s := fresh in let c := fresh in let H := fresh in let Hne := fresh in
  intros (s & c & H & Hne); vm_compute in H; injection H as <- <-; now apply Hne.

Lemma stuck_board_no_change (d : string) : d ∈ keys → ¬ changes stuck_board d.
Proof. intros H. each_key H; no_change. Qed.

Lemma right_only_board_change : changes right_only_board "d".
Proof. exists 0, [0; 2; 0; 4]. split; [vm_compute; reflexivity|discriminate]. Qed.

Lemma right_only_board_no_change (d : string) :
  d ∈ keys → d ≠ "d" → ¬ changes right_only_board d.
Proof. intros H Hne. each_key H; [no_change ..|contradiction]. Qed.

(** C3, as stated, fails: on [stuck_board], where no direction changes the
    grid, with the stuck counter at 0, not every direction can be returned:
    whatever the random source, the answer is never Left. *)
Lemma C3_stuck_board_never_left :
  (∀ d, d ∈ keys → ¬ changes stuck_board d)
  ∧ AIPlayer.stuck_counter (AIPlayer.__init__ (logic_of stuck_board)) ≤ 5
  ∧ ¬ (∀ d, d ∈ keys →
         ∃ r, fst (AIPlayer.get_move (AIPlayer.__init__ (logic_of stuck_board))
                     stuck_board 0 r) = Ok d).
Proof.
  split; [exact stuck_board_no_change|]. split; [simpl; lia|].
  intros C. destruct (C "a") as (r & Hr). { unfold keys. set_solver. }
  rewrite get_move_no_change in Hr;
    [discriminate Hr|reflexivity|reflexivity|simpl; lia|exact stuck_board_no_change].
Qed.

(** C3, amended: on a well-formed board, with the traversal tables of its
    size and the stuck counter at most 5, if none of the four directions
    changes the grid then [get_move] returns Up (the key [w]), whatever
    the random source. *)
Theorem C3_no_change_returns_up (self : AIPlayer.t) (b : GameBoard.t) (score : Z)
    (r : Random) :
  well_formed b →
  GameLogic.move_direction (AIPlayer.game_logic self) = MoveDirection.__init__ (GameBoard.size b) →
  AIPlayer.stuck_counter self ≤ 5 →
  (∀ d, d ∈ keys → ¬ changes b d) →
  fst (AIPlayer.get_move self b score r) = Ok "w".
Proof. apply get_move_no_change. Qed.

Lemma C3_no_change_returns_up_witness :
  fst (AIPlayer.get_move (AIPlayer.__init__ (logic_of stuck_board)) stuck_board 0 zero_source)
  = Ok "w".
Proof.
  apply (C3_no_change_returns_up (AIPlayer.__init__ (logic_of stuck_board)) stuck_board 0
           zero_source).
  - reflexivity.
  - reflexivity.
  - simpl. lia.
  - exact stuck_board_no_change.
Defined.

(** C6: on a well-formed board, with the traversal tables of its size and
    the stuck counter at most 5, if exactly one of the four directions
    changes the grid then [get_move] returns that direction, whatever the
    score, the heuristic value and the random source. *)
Theorem C6_single_legal_move (self : AIPlayer.t) (b : GameBoard.t) (score : Z)
    (direction : string) (r : Random) :
  well_formed b →
  GameLogic.move_direction (AIPlayer.game_logic self) = MoveDirection.__init__ (GameBoard.size b) →
  AIPlayer.stuck_counter self ≤ 5 →
  direction ∈ keys → changes b direction →
  (∀ d, d ∈ keys → d ≠ direction → ¬ changes b d) →
  fst (AIPlayer.get_move self b score r) = Ok direction.
Proof. apply get_move_one_change. Qed.

Lemma C6_single_legal_move_witness :
  fst (AIPlayer.get_move (AIPlayer.__init__ (logic_of right_only_board))
         right_only_board 0 zero_source) = Ok "d".
Proof.
  apply (C6_single_legal_move (AIPlayer.__init__ (logic_of right_only_board))
           right_only_board 0 "d" zero_source).
  - reflexivity.
  - reflexivity.
  - simpl. lia.
  - unfold keys. set_solver.
  - exact right_only_board_change.
  - exact right_only_board_no_change.
Defined.

(** ** Game2048: the score *)

Section Score.

Implicit Types (g : Game2048.t) (b : GameBoard.t) (h : GameHistory.t) (r : Random).

Lemma initialize_board_ok b r :
  ∃ b' r', GameBoard._initialize_board b r = (Ok b', r')
           ∧ GameBoard.size b' = GameBoard.size b
           ∧ grid_of (GameBoard.size b') (GameBoard.board b').
Proof.
  unfold GameBoard._initialize_board.
  set (b0 := GameBoard.set_board _ _).
  assert (H0 : well_formed b0).
  { unfold well_formed, b0. simpl. now rewrite length_replicate. }
  assert (N0 : Forall (λ x, 0 ≤ x) (GameBoard.board b0)).
  { unfold b0. simpl. apply Forall_replicate. lia. }
  destruct (add_random_tile_ok b0 r H0) as (p1 & b1 & r1 & Hrun1 & H1 & Hs1 & N1).
  destruct (add_random_tile_ok b1 r1 H1) as (p2 & b2 & r2 & Hrun2 & H2 & Hs2 & N2).
  exists b2, r2. unfold_monad. rewrite Hrun1, Hrun2. split; [reflexivity|].
  split; [now rewrite Hs2, Hs1|]. split; [exact H2|]. apply N2, N1, N0.
Qed.

Lemma stored_after_grids (size : nat) h (board : list Z) (score : Z) :
  grid_of size board → 0 ≤ score →
  Forall (grid_of size) (GameHistory.board_history h) →
  Forall (λ s, 0 ≤ s) (GameHistory.score_history h) →
  Forall (grid_of size) (GameHistory.board_history (stored_after h board score))
  ∧ Forall (λ s, 0 ≤ s) (GameHistory.score_history (stored_after h board score)).
Proof.
  intros Hb Hs Hbs Hss. unfold stored_after.
  assert (Forall (grid_of size) (GameHistory.board_history h ++ [board])).
  { apply Forall_app. split; [assumption|]. now constructor. }
  assert (Forall (λ s, 0 ≤ s) (GameHistory.score_history h ++ [score])).
  { apply Forall_app. split; [assumption|]. now constructor. }
  destruct (decide _); simpl; split; try assumption; now apply Forall_drop.
Qed.

(** Pushing the live position keeps the history sound. *)
Lemma push_sound g :
  sound g →
  ∃ h', GameHistory.add_state (GameBoard.board (Game2048.board g)) (Game2048.score g)
          (Game2048.history g) = (Ok (), h')
        ∧ sound (Game2048.set_history h' g).
Proof.
  intros (Hgrid & Hmd & Hscore & Hstep & Hboards & Hscores).
  rewrite add_state_cases. eexists. split; [reflexivity|].
  destruct (decide _) as [E|E].
  - destruct g. simpl in *. repeat split; try assumption; apply Hgrid.
  - destruct (stored_after_grids _ (Game2048.history g) _ _ Hgrid Hscore Hboards Hscores)
      as [H1 H2].
    destruct g. simpl in *. repeat split; try assumption; try apply Hgrid.
    now apply stored_after_in_step.
Qed.

Lemma other_key (size : nat) (direction : string) :
  direction ∉ keys →
  dict_get (MoveDirection.directions (MoveDirection.__init__ size)) direction = None.
Proof.
  intros H. unfold MoveDirection.directions. cbn [dict_get].
  repeat (destruct (decide _) as [<-|_]; [exfalso; apply H; unfold keys; set_solver|]).
  reflexivity.
Qed.

(** [make_move] of the game logic for any string: it returns, the board
    stays a grid of the same side, and the score it reports is not
    negative; when it reports a move the score is the gain of
    [_process_move], which changed the cells. *)
Lemma logic_make_move b (direction : string) r :
  grid_of (GameBoard.size b) (GameBoard.board b) →
  ∃ gain moved b' r',
    GameLogic.make_move (logic_of b) direction r = (Ok (gain, moved, logic_of b'), r')
    ∧ GameBoard.size b' = GameBoard.size b
    ∧ grid_of (GameBoard.size b') (GameBoard.board b')
    ∧ 0 ≤ gain
    ∧ (moved = true →
       ∃ cells, GameLogic._process_move (logic_of b) direction = Ok (gain, cells)
                ∧ cells ≠ GameBoard.board b).
Proof.
  intros [Hwf Hnn]. destruct (decide (direction ∈ keys)) as [Hkey|Hkey].
  - destruct (make_move_cases b direction r Hwf Hkey)
      as (gain & cells & Hrun & Hgain & Hsame & Hdiff).
    destruct (decide (cells = GameBoard.board b)) as [E|E].
    + exists gain, false, b, r. rewrite (Hsame E).
      repeat split; auto; discriminate.
    + destruct (Hdiff E) as (b' & r' & Hmove & Hwf' & Hsize & Hnn').
      exists gain, true, b', r'. rewrite Hmove. repeat split; auto.
      exists cells. now split.
  - exists 0, false, b, r. unfold GameLogic.make_move.
    cbn [logic_of GameLogic.move_direction]. rewrite other_key by exact Hkey.
    repeat split; auto; try lia; discriminate.
Qed.

Lemma game_logic_of g :
  Game2048.move_direction g = MoveDirection.__init__ (GameBoard.size (Game2048.board g)) →
  Game2048.game_logic g = logic_of (Game2048.board g).
Proof. intros H. unfold Game2048.game_logic, logic_of. now rewrite H. Qed.

(** [make_move] of a sound session returns a sound session, with a score
    that is not lower, and higher only by the gain of a move that changed
    the grid. *)
Lemma session_make_move g (direction : string) r :
  sound g →
  ∃ moved g' r',
    Game2048.make_move direction g r = (Ok (moved, g'), r')
    ∧ sound g'
    ∧ Game2048.score g ≤ Game2048.score g'
    ∧ (Game2048.score g' = Game2048.score g
       ∨ ∃ gain cells,
           GameLogic._process_move (Game2048.game_logic g) direction = Ok (gain, cells)
           ∧ cells ≠ GameBoard.board (Game2048.board g)
           ∧ Game2048.score g' = Game2048.score g + gain).
Proof.
  intros Hsound. unfold Game2048.make_move.
  destruct (decide (Game2048.state g ≠ PLAYING)) as [Hstate|Hstate].
  { exists false, g, r. repeat split; auto; try lia; apply Hsound. }
  destruct (push_sound g Hsound) as (h' & Hpush & Hsound').
  unfold Game2048.on_history. rewrite Hpush. unfold_monad.
  destruct Hsound' as (Hgrid & Hmd & Hscore & Hstep & Hboards & Hscores).
  rewrite (game_logic_of _ Hmd).
  rewrite (game_logic_of g) by apply Hsound.
  destruct g as [bs mh b md h sc st cp score best]. simpl in *.
  destruct (logic_make_move b direction r Hgrid)
    as (gain & moved & b' & r' & Hmove & Hsize & Hgrid' & Hgain & Hmoved).
  rewrite Hmove. cbn [GameLogic.board logic_of].
  destruct moved.
  - destruct (is_game_over_terminal b' (proj1 Hgrid')) as (over & Hover & _).
    unfold Game2048.set_board, Game2048.set_score, Game2048.set_stuck_counter,
      Game2048.set_best_score, Game2048.set_state. simpl.
    destruct (Hmoved eq_refl) as (cells & Hrun & Hne).
    assert (Hfinal : ∀ sc' st' best',
      sound (Game2048.Build bs mh b' md h' sc' st' cp (score + gain) best')).
    { intros. unfold sound. simpl. rewrite Hsize.
      repeat split; auto; try lia; try apply Hgrid'. rewrite <- Hsize. apply Hgrid'. }
    destruct (decide (cp = Some AIPlayer)); simpl;
      destruct (decide (best < score + gain)); simpl; rewrite Hover;
      destruct over; simpl;
      (eexists true, _, r'; split; [reflexivity|]; split; [apply Hfinal|];
       split; [simpl; lia|]; right; exists gain, cells; simpl; auto).
  - assert (Hfinal : ∀ sc', sound (Game2048.Build bs mh b' md h' sc' st cp score best)).
    { intros. unfold sound. simpl. rewrite Hsize.
      repeat split; auto; try lia; try apply Hgrid'. rewrite <- Hsize. apply Hgrid'. }
    unfold Game2048.set_board, Game2048.set_stuck_counter. simpl.
    destruct (decide (cp = Some AIPlayer)); simpl;
      (eexists false, _, r'; split; [reflexivity|]; split; [apply Hfinal|];
       split; [simpl; lia|]; left; reflexivity).
Qed.

(** [undo_move] of a sound session returns a sound session: the session
    itself when nothing is undone, and otherwise one whose score is the
    score stored with the older of the two newest entries. *)
Lemma session_undo_move g :
  sound g →
  ∃ undone g',
    Game2048.undo_move g = (Ok undone, g')
    ∧ sound g'
    ∧ (undone = false → g' = g)
    ∧ (undone = true →
       ∃ scores s2 s1,
         GameHistory.score_history (Game2048.history g) = scores ++ [s2; s1]
         ∧ Game2048.score g' = s2).
Proof.
  intros (Hgrid & Hmd & Hscore & Hstep & Hboards & Hscores). unfold Game2048.undo_move.
  destruct (negb _ || _) eqn:Hguard.
  { exists false, g. repeat split; auto; try apply Hgrid. discriminate. }
  apply orb_false_iff in Hguard. destruct Hguard as [Hcan _].
  apply negb_false_iff, can_undo_length in Hcan.
  destruct (undo_long _ Hstep Hcan) as (boards & scores & b2 & b1 & s2 & s1 & Hb & Hs & Hrun).
  unfold Game2048.on_history. rewrite Hrun.
  eexists true, _. split; [reflexivity|].
  rewrite Hb in Hboards. rewrite Hs in Hscores.
  apply Forall_app in Hboards. destruct Hboards as [Hboards Hlast].
  apply Forall_app in Hscores. destruct Hscores as [Hscores Hlast'].
  apply Forall_cons in Hlast. destruct Hlast as [Hb2 _].
  apply Forall_cons in Hlast'. destruct Hlast' as [Hs2 _].
  assert (Hlen : length boards = length scores).
  { unfold in_step in Hstep. rewrite Hb, Hs, !length_app in Hstep. simpl in Hstep. lia. }
  split; [|split; [discriminate|]].
  - destruct g. unfold sound. simpl in *. repeat split; auto; apply Hb2.
  - intros _. exists scores, s2, s1. split; [exact Hs|]. now destruct g.
Qed.

(** [start_game] of a sound session returns a sound session with score 0. *)
Lemma session_start_game g (is_human : bool) r :
  sound g →
  ∃ g' r', Game2048.start_game is_human g r = (Ok g', r')
           ∧ sound g' ∧ Game2048.score g' = 0.
Proof.
  intros (Hgrid & Hmd & _). unfold Game2048.start_game. unfold_monad.
  destruct g as [bs mh b md h sc st cp score best]. simpl in *.
  destruct (initialize_board_ok b r) as (b' & r' & Hrun & Hsize & Hgrid').
  rewrite Hrun. unfold Game2048.on_history, Game2048.set_history, Game2048.set_board,
    Game2048.set_stuck_counter. simpl.
  assert (Hfinal : ∀ sc' cp',
    sound (Game2048.Build bs mh b' md (GameHistory.Build mh [GameBoard.board b'] [0])
             sc' PLAYING cp' 0 best)).
  { intros. unfold sound. simpl. rewrite Hsize.
    repeat split; auto; try lia; try apply Hgrid'.
    - rewrite <- Hsize. apply Hgrid'.
    - constructor; [|constructor]. rewrite <- Hsize. exact Hgrid'.
    - constructor; [lia|constructor]. }
  rewrite add_state_stores by discriminate. unfold stored_after. simpl.
  destruct (decide (mh + 1 < 1)%nat) as [L|_]; [lia|].
  destruct is_human; simpl; eexists _, r'; (split; [reflexivity|]);
    (split; [apply Hfinal|reflexivity]).
Qed.

(** A new session is sound. *)
Lemma session_init (size max_history : nat) (best : Z) r g r' :
  Game2048.__init__ size max_history best r = (Ok g, r') → sound g.
Proof.
  unfold Game2048.__init__, GameBoard.__init__. unfold_monad.
  destruct (initialize_board_ok (GameBoard.Build size (replicate (size * size) 0)) r)
    as (b' & r1 & Hrun & Hsize & Hgrid').
  rewrite Hrun. intros [= <- <-]. unfold sound. simpl in *. rewrite Hsize.
  repeat split; auto; try lia; try apply Hgrid'.
  rewrite <- Hsize. apply Hgrid'.
Qed.

Lemma reachable_sound g : reachable g → sound g.
Proof.
  induction 1 as [size mh best r g r' Hinit
                 |g is_human r g' r' _ IH Hrun
                 |g direction r moved g' r' _ IH Hrun
                 |g undone g' _ IH Hrun
                 |g _ IH].
  - eapply session_init. exact Hinit.
  - destruct (session_start_game g is_human r IH) as (g0 & r0 & Hrun0 & Hsound & _).
    rewrite Hrun0 in Hrun. now injection Hrun as <- <-.
  - destruct (session_make_move g direction r IH) as (m0 & g0 & r0 & Hrun0 & Hsound & _).
    rewrite Hrun0 in Hrun. now injection Hrun as <- <- <-.
  - destruct (session_undo_move g IH) as (u0 & g0 & Hrun0 & Hsound & _).
    rewrite Hrun0 in Hrun. now injection Hrun as <- <-.
  - destruct g. exact IH.
Qed.

End Score.

Lemma session2_reachable : reachable session2.
Proof.
  assert (Hnew : reachable session_new).
  { destruct (Game2048.__init__ 2 5 0 zero_source) as [x r'] eqn:E.
    assert (Hx : x = Ok session_new).
    { change x with (fst (x, r')). rewrite <- E. vm_compute. reflexivity. }
    subst x. eapply reach_init. exact E. }
  assert (Hstarted : reachable session_started).
  { destruct (Game2048.start_game true session_new zero_source) as [x r'] eqn:E.
    assert (Hx : x = Ok session_started).
    { change x with (fst (x, r')). rewrite <- E. vm_compute. reflexivity. }
    subst x. eapply reach_start; [exact Hnew|exact E]. }
  assert (Hmoved : reachable session_moved).
  { destruct (Game2048.make_move "a" session_started zero_source) as [x r'] eqn:E.
    assert (Hx : x = Ok (true, session_moved)).
    { change x with (fst (x, r')). rewrite <- E. vm_compute. reflexivity. }
    subst x. eapply reach_move; [exact Hstarted|exact E]. }
  destruct (Game2048.make_move "d" session_moved zero_source) as [x r'] eqn:E.
  assert (Hx : x = Ok (false, session2)).
  { change x with (fst (x, r')). rewrite <- E. vm_compute. reflexivity. }
  subst x. eapply reach_move; [exact Hmoved|exact E].
Qed.

(** C5, as stated, fails: [session2] is reached by starting a game, a move
    Left and a move Right; it is in play with score 4, and [undo_move]
    succeeds and leaves the score at 0. *)
Lemma C5_undo_lowers_score :
  reachable session2
  ∧ Game2048.state session2 = PLAYING
  ∧ ∃ g', Game2048.undo_move session2 = (Ok true, g')
          ∧ Game2048.score g' < Game2048.score session2.
Proof.
  split; [exact session2_reachable|]. split; [reflexivity|].
  exists (session_of [2; 2; 0; 0] [] [] PLAYING (Some HumanPlayer) 0 4).
  split; [vm_compute; reflexivity|]. simpl. lia.
Qed.

(** C5, amended: in every reachable session the score is an integer that
    is not negative; [make_move] returns, with a score that is not lower
    than before and that is higher only by the gain that [_process_move]
    reports for a move that changed the grid; [undo_move] returns, and
    when it undoes it sets the score to the score stored with the
    restored position (which may be lower), still not negative. *)
Theorem C5_score (g : Game2048.t) :
  reachable g →
  0 ≤ Game2048.score g
  ∧ (∀ (direction : string) (r : Random),
       ∃ moved g' r',
         Game2048.make_move direction g r = (Ok (moved, g'), r')
         ∧ Game2048.score g ≤ Game2048.score g'
         ∧ (Game2048.score g' = Game2048.score g
            ∨ ∃ gain cells,
                GameLogic._process_move (Game2048.game_logic g) direction = Ok (gain, cells)
                ∧ cells ≠ GameBoard.board (Game2048.board g)
                ∧ Game2048.score g' = Game2048.score g + gain))
  ∧ ∃ undone g',
      Game2048.undo_move g = (Ok undone, g')
      ∧ 0 ≤ Game2048.score g'
      ∧ (undone = false → g' = g)
      ∧ (undone = true →
         ∃ scores s2 s1,
           GameHistory.score_history (Game2048.history g) = scores ++ [s2; s1]
           ∧ Game2048.score g' = s2).
Proof.
  intros Hreach. pose proof (reachable_sound g Hreach) as Hsound.
  split; [apply Hsound|]. split.
  - intros direction r.
    destruct (session_make_move g direction r Hsound) as (moved & g' & r' & Hrun & _ & H).
    exists moved, g', r'. split; [exact Hrun|exact H].
  - destruct (session_undo_move g Hsound) as (undone & g' & Hrun & Hsound' & H).
    exists undone, g'. split; [exact Hrun|]. split; [apply Hsound'|exact H].
Qed.

(** [session2] is reachable; its score is not negative and a further move
    Up does not lower it. *)
Lemma C5_score_witness :
  reachable session2
  ∧ 0 ≤ Game2048.score session2
  ∧ ∃ moved g' r',
      Game2048.make_move "w" session2 zero_source = (Ok (moved, g'), r')
      ∧ Game2048.score session2 ≤ Game2048.score g'.
Proof.
  split; [exact session2_reachable|].
  destruct (C5_score session2 session2_reachable) as (Hscore & Hmove & _).
  split; [exact Hscore|].
  destruct (Hmove "w" zero_source) as (moved & g' & r' & Hrun & Hle & _).
  exists moved, g', r'. split; [exact Hrun|exact Hle].
Defined.

(** * Further properties of the code *)

(** ** MoveDirection: the four orders in closed form *)

Section Tables.

Lemma range_down_lookup (n p : nat) :
  (p < n)%nat → range_down n !! p = Some (n - 1 - p)%nat.
Proof.
  revert p. induction n as [|n IH]; intros p H; [lia|].
  destruct p as [|p]; simpl.
  - f_equal. lia.
  - rewrite IH by lia. f_equal. lia.
Qed.

Lemma range_step_lookup (size i k : nat) :
  (i < size)%nat → (k < size)%nat →
  range_step i (size * size) size !! k = Some (i + k * size)%nat.
Proof.
  intros Hi Hk. unfold range_step. rewrite range_step_count by exact Hi.
  rewrite list_lookup_fmap, lookup_seq_lt by exact Hk. reflexivity.
Qed.

(** Position [a * size + k] of the blocks laid end to end is position [k]
    of the block of the [a]-th start. *)
Lemma blocks_lookup (size : nat) (starts : list nat) (a k i : nat) :
  Forall (λ i, i < size)%nat starts → starts !! a = Some i → (k < size)%nat →
  mjoin ((λ i, range_step i (size * size) size) <$> starts) !! (a * size + k)%nat
  = Some (i + k * size)%nat.
Proof.
  intros Hstarts Ha Hk.
  apply (join_lookup_Some_same_length' size); [|exact Hk|].
  - apply Forall_fmap. eapply Forall_impl; [exact Hstarts|].
    intros j Hj. simpl. now apply range_step_order.
  - exists (range_step i (size * size) size). split.
    + rewrite list_lookup_fmap, Ha. reflexivity.
    + apply range_step_lookup; [|exact Hk].
      rewrite Forall_forall in Hstarts. apply Hstarts.
      now apply list_elem_of_lookup_2 in Ha.
Qed.

Lemma position_split (size p : nat) :
  size ≠ O → p = ((p / size) * size + p mod size)%nat.
Proof. intros H. rewrite Nat.mul_comm. apply Nat.div_mod_eq. Qed.

Lemma position_row (size p : nat) : (p < size * size)%nat → (p / size < size)%nat.
Proof. intros H. apply Nat.Div0.div_lt_upper_bound. lia. Qed.

End Tables.

(** The four orders at a position, in closed form. *)
Lemma orders_closed_form (size p : nat) :
  (p < size * size)%nat →
  let md := MoveDirection.__init__ size in
  MoveDirection.up md !! p = Some p
  ∧ MoveDirection.down md !! p = Some (size * size - 1 - p)%nat
  ∧ MoveDirection.left md !! p = Some (p / size + (p mod size) * size)%nat
  ∧ MoveDirection.right md !! p = Some (size - 1 - p / size + (p mod size) * size)%nat.
Proof.
  intros Hp md. assert (Hsize : size ≠ O) by lia.
  pose proof (position_row size p Hp) as Hrow.
  assert (Hcol : (p mod size < size)%nat) by now apply Nat.mod_upper_bound.
  unfold md, MoveDirection.__init__. cbn [MoveDirection.up MoveDirection.down
    MoveDirection.left MoveDirection.right]. unfold range.
  split; [now rewrite lookup_seq_lt|]. split; [now apply range_down_lookup|]. split.
  - rewrite (position_split size p Hsize) at 1.
    apply blocks_lookup; [|now rewrite lookup_seq_lt|exact Hcol].
    apply Forall_forall. intros i Hi. apply elem_of_seq in Hi. lia.
  - rewrite (position_split size p Hsize) at 1.
    apply blocks_lookup; [apply range_down_below| |exact Hcol].
    now apply range_down_lookup.
Qed.


(** X1: for a board of side [size] and a position [p] below
    [size * size], the four traversal orders are: Up the index [p] itself,
    Down the index [size*size - 1 - p], Left the index in row [p mod size]
    and column [p / size], Right the index in row [p mod size] and column
    [size - 1 - p / size]. *)
Theorem X1_orders_closed_form (size p : nat) :
  (p < size * size)%nat →
  let md := MoveDirection.__init__ size in
  MoveDirection.up md !! p = Some p
  ∧ MoveDirection.down md !! p = Some (size * size - 1 - p)%nat
  ∧ MoveDirection.left md !! p = Some (p / size + (p mod size) * size)%nat
  ∧ MoveDirection.right md !! p = Some (size - 1 - p / size + (p mod size) * size)%nat.
Proof. apply orders_closed_form. Qed.

Lemma X1_orders_closed_form_witness :
  MoveDirection.left (MoveDirection.__init__ 4) !! 6%nat = Some 9%nat
  ∧ MoveDirection.right (MoveDirection.__init__ 4) !! 6%nat = Some 10%nat.
Proof.
  assert (H : (6 < 4 * 4)%nat) by lia.
  destruct (X1_orders_closed_form 4 6 H) as (_ & _ & Hl & Hr).
  split; [exact Hl|exact Hr].
Defined.

Section TablesPermutation.

Lemma cell_at (size a r : nat) :
  (a < size)%nat →
  ((a + r * size) / size)%nat = r ∧ ((a + r * size) mod size)%nat = a.
Proof.
  intros H. assert (Hs : size ≠ O) by lia. split.
  - rewrite Nat.div_add by exact Hs. rewrite Nat.div_small by exact H. reflexivity.
  - rewrite Nat.Div0.mod_add. now apply Nat.mod_small.
Qed.

Lemma cell_at_inj (size a r a' r' : nat) :
  (a < size)%nat → (a' < size)%nat →
  (a + r * size = a' + r' * size)%nat → a = a' ∧ r = r'.
Proof.
  intros Ha Ha' H.
  destruct (cell_at size a r Ha) as [H1 H2]. destruct (cell_at size a' r' Ha') as [H3 H4].
  rewrite H in H1, H2. split; congruence.
Qed.

Lemma directions_NoDup (size : nat) (direction : string) (order : list nat) :
  dict_get (MoveDirection.directions (MoveDirection.__init__ size)) direction = Some order →
  NoDup order.
Proof.
  intros Hget. pose proof (directions_order size direction order Hget) as [Hlen _].
  apply NoDup_alt. intros i j x Hi Hj.
  assert (Hi' : (i < size * size)%nat) by (apply lookup_lt_Some in Hi; lia).
  assert (Hj' : (j < size * size)%nat) by (apply lookup_lt_Some in Hj; lia).
  assert (Hsize : size ≠ O) by lia.
  destruct (orders_closed_form size i Hi') as (Ui & Di & Li & Ri).
  destruct (orders_closed_form size j Hj') as (Uj & Dj & Lj & Rj).
  pose proof (position_row size i Hi'). pose proof (position_row size j Hj').
  pose proof (Nat.mod_upper_bound i size Hsize).
  pose proof (Nat.mod_upper_bound j size Hsize).
  revert Hget. unfold MoveDirection.directions. cbn [dict_get].
  repeat (destruct (decide _) as [_|_]; [intros [= <-]|]); [| | | |discriminate].
  all: unfold MoveDirection.__init__ in *;
    cbn [MoveDirection.up MoveDirection.down MoveDirection.left MoveDirection.right] in *.
  - rewrite Ui in Hi. rewrite Uj in Hj. congruence.
  - rewrite Li in Hi. rewrite Lj in Hj. injection Hi as <-. injection Hj as Hj.
    apply cell_at_inj in Hj; [|lia|lia]. destruct Hj as [Hq Hr].
    rewrite (position_split size i Hsize), (position_split size j Hsize). congruence.
  - rewrite Di in Hi. rewrite Dj in Hj. injection Hi as <-. injection Hj as Hj. lia.
  - rewrite Ri in Hi. rewrite Rj in Hj. injection Hi as <-. injection Hj as Hj.
    apply cell_at_inj in Hj; [|lia|lia]. destruct Hj as [Hq Hr].
    rewrite (position_split size i Hsize), (position_split size j Hsize).
    assert (i / size = j / size)%nat by lia. congruence.
Qed.

End TablesPermutation.

(** Each order is a permutation of the indices. *)
Lemma orders_permutation (size : nat) (direction : string) (order : list nat) :
  dict_get (MoveDirection.directions (MoveDirection.__init__ size)) direction = Some order →
  order ≡ₚ seq 0 (size * size).
Proof.
  intros Hget. pose proof (directions_order size direction order Hget) as [Hlen Hbelow].
  apply submseteq_length_Permutation.
  - apply NoDup_submseteq; [now apply (directions_NoDup size direction)|].
    intros x Hx. rewrite Forall_forall in Hbelow. apply elem_of_seq.
    specialize (Hbelow x Hx). lia.
  - rewrite length_seq, Hlen. lia.
Qed.


(** X2: each of the four traversal orders of a board of side [size] is a
    permutation of the indices [0 .. size*size - 1]. *)
Theorem X2_orders_permutation (size : nat) (direction : string) (order : list nat) :
  dict_get (MoveDirection.directions (MoveDirection.__init__ size)) direction = Some order →
  order ≡ₚ seq 0 (size * size).
Proof. apply orders_permutation. Qed.

Lemma X2_orders_permutation_witness :
  MoveDirection.right (MoveDirection.__init__ 3) ≡ₚ seq 0 (3 * 3).
Proof.
  apply (X2_orders_permutation 3 "d"). reflexivity.
Defined.

Section LookBack.

Lemma step_back (size p : nat) :
  size ≠ O → (size ≤ p)%nat →
  (1 ≤ p / size)%nat
  ∧ ((p - size) / size)%nat = (p / size - 1)%nat
  ∧ ((p - size) mod size)%nat = (p mod size)%nat.
Proof.
  intros Hs Hp. pose proof (Nat.mod_upper_bound p size Hs) as Hr.
  assert (Hq : (1 ≤ p / size)%nat).
  { apply Nat.div_le_lower_bound; [exact Hs|lia]. }
  split; [exact Hq|].
  assert (E : (p - size = p mod size + (p / size - 1) * size)%nat).
  { pose proof (Nat.div_mod_eq p size). nia. }
  rewrite E. apply cell_at. exact Hr.
Qed.

Lemma look_back_cell (size : nat) (direction : string) (order : list nat) (p c : nat) :
  dict_get (MoveDirection.directions (MoveDirection.__init__ size)) direction = Some order →
  order !! p = Some c →
  ((p < size)%nat → on_edge size direction c)
  ∧ ((size ≤ p)%nat →
     ∃ c', order !! (p - size)%nat = Some c' ∧ toward_edge size direction c c').
Proof.
  intros Hget Hc. pose proof (directions_order size direction order Hget) as [Hlen _].
  assert (Hp : (p < size * size)%nat) by (apply lookup_lt_Some in Hc; lia).
  assert (Hsize : size ≠ O) by lia.
  pose proof (position_row size p Hp) as Hrow.
  pose proof (Nat.mod_upper_bound p size Hsize) as Hcol.
  destruct (orders_closed_form size p Hp) as (Up & Dp & Lp & Rp).
  assert (Hback : (size ≤ p)%nat →
    let q := (p - size)%nat in
    (1 ≤ p / size)%nat ∧ (q / size)%nat = (p / size - 1)%nat
    ∧ (q mod size)%nat = (p mod size)%nat
    ∧ MoveDirection.up (MoveDirection.__init__ size) !! q = Some q
    ∧ MoveDirection.down (MoveDirection.__init__ size) !! q = Some (size * size - 1 - q)%nat
    ∧ MoveDirection.left (MoveDirection.__init__ size) !! q
      = Some (q / size + (q mod size) * size)%nat
    ∧ MoveDirection.right (MoveDirection.__init__ size) !! q
      = Some (size - 1 - q / size + (q mod size) * size)%nat).
  { intros Hge q. destruct (step_back size p Hsize Hge) as (H1 & H2 & H3).
    destruct (orders_closed_form size q) as (U & D & L & R); [unfold q; lia|].
    repeat split; assumption. }
  revert Hget Hc. unfold MoveDirection.directions, toward_edge, on_edge, row, col.
  cbn [dict_get].
  repeat (destruct (decide (_ = direction)) as [<-|_]; [intros [= <-] Hc|]);
    [| | | |discriminate].
  all: unfold MoveDirection.__init__ in *;
    cbn [MoveDirection.up MoveDirection.down MoveDirection.left MoveDirection.right] in *;
    repeat (first [rewrite decide_True by reflexivity|rewrite decide_False by discriminate]).
  - rewrite Up in Hc. injection Hc as <-. split.
    + intros Hlt. now apply Nat.div_small.
    + intros Hge. destruct (Hback Hge) as (H1 & H2 & H3 & U & _).
      exists (p - size)%nat. split; [exact U|]. rewrite H2, H3. split; [lia|reflexivity].
  - rewrite Lp in Hc. injection Hc as <-.
    destruct (cell_at size (p / size) (p mod size) Hrow) as [Hr Hk].
    split.
    + intros Hlt. rewrite Hk. now apply Nat.div_small.
    + intros Hge. destruct (Hback Hge) as (H1 & H2 & H3 & _ & _ & L & _).
      eexists. split; [exact L|]. rewrite H2, H3.
      destruct (cell_at size (p / size - 1) (p mod size)) as [Hr' Hk']; [lia|].
      rewrite Hr, Hk, Hr', Hk'. split; [reflexivity|lia].
  - rewrite Dp in Hc. injection Hc as <-. split.
    + intros Hlt.
      assert (E : (size * size - 1 - p = (size - 1 - p) + (size - 1) * size)%nat) by nia.
      rewrite E. apply cell_at. lia.
    + intros Hge. destruct (Hback Hge) as (H1 & H2 & H3 & _ & D & _).
      eexists. split; [exact D|].
      assert (E : (size * size - 1 - (p - size) = (size * size - 1 - p) + 1 * size)%nat) by nia.
      rewrite E. rewrite Nat.div_add, Nat.Div0.mod_add by exact Hsize. split; [lia|reflexivity].
  - rewrite Rp in Hc. injection Hc as <-.
    destruct (cell_at size (size - 1 - p / size) (p mod size)) as [Hr Hk]; [lia|].
    split.
    + intros Hlt. rewrite Hk. rewrite (Nat.div_small p size) by exact Hlt. lia.
    + intros Hge. destruct (Hback Hge) as (H1 & H2 & H3 & _ & _ & _ & R).
      eexists. split; [exact R|]. rewrite H2, H3.
      destruct (cell_at size (size - 1 - (p / size - 1)) (p mod size)) as [Hr' Hk']; [lia|].
      rewrite Hr, Hk, Hr', Hk'. split; [reflexivity|lia].
Qed.

End LookBack.

(** X3: in each traversal order the first [size] positions are the cells
    on the edge where the tiles gather, and the position [size] places
    before any later position holds the neighbouring cell one step toward
    that edge, in the same column (Up, Down) or row (Left, Right): the
    backward scan of [_process_move] never leaves the row or column. *)
Theorem X3_look_back_neighbour (size : nat) (direction : string) (order : list nat)
    (p c : nat) :
  dict_get (MoveDirection.directions (MoveDirection.__init__ size)) direction = Some order →
  order !! p = Some c →
  ((p < size)%nat → on_edge size direction c)
  ∧ ((size ≤ p)%nat →
     ∃ c', order !! (p - size)%nat = Some c' ∧ toward_edge size direction c c').
Proof. apply look_back_cell. Qed.

Lemma X3_look_back_neighbour_witness :
  ∃ c', MoveDirection.left (MoveDirection.__init__ 4) !! 2%nat = Some c'
        ∧ toward_edge 4 "a" 9 c'.
Proof.
  destruct (X3_look_back_neighbour 4 "a" (MoveDirection.left (MoveDirection.__init__ 4)) 6 9)
    as [_ H]; [reflexivity|reflexivity|].
  apply H. lia.
Defined.

(** ** GameLogic: what the slide and merge step keeps *)

Section Rule.

Variables (size : nat) (order : list nat).
Hypothesis size_positive : (0 < size)%nat.
Hypothesis order_NoDup : NoDup order.

(** A property of the cells and the score that a slide into an empty cell
    and a merge of two equal tiles both keep. *)
Variable Inv : list Z → Z → Prop.

Hypothesis slide_keeps : ∀ cells score pos next_pos tile,
  pos ≠ next_pos → cells !! next_pos = Some 0 → cells !! pos = Some tile → tile ≠ 0 →
  Inv cells score → Inv (<[pos := 0]> (<[next_pos := tile]> cells)) score.

Hypothesis merge_keeps : ∀ cells score pos next_pos tile,
  pos ≠ next_pos → cells !! next_pos = Some tile → cells !! pos = Some tile → tile ≠ 0 →
  Inv cells score → Inv (<[pos := 0]> (<[next_pos := 2 * tile]> cells)) (score + 2 * tile).

Lemma getitem_Ok {A} (l : list A) i x : getitem l i = Ok x → l !! i = Some x.
Proof. unfold getitem. destruct (l !! i); [intros [= ->]; reflexivity|discriminate]. Qed.

Lemma setitem_Ok {A} (l l' : list A) i v :
  setitem l i v = Ok l' → l' = <[i := v]> l ∧ (i < length l)%nat.
Proof. unfold setitem. destruct (decide _); [intros [= <-]; now split|discriminate]. Qed.

Lemma look_backward_rule (fuel : nat) :
  ∀ cells (pos cur : nat) (next_i score : Z) (tile : Z) cells' score',
    order !! cur = Some pos → next_i < Z.of_nat cur →
    cells !! pos = Some tile → tile ≠ 0 → Inv cells score →
    GameLogic.look_backward fuel size order cells pos next_i score = Ok (cells', score') →
    Inv cells' score'.
Proof.
  induction fuel as [|fuel IH]; intros cells pos cur next_i score tile cells' score'
    Hcur Hlt Htile Hnz Hinv; cbn [GameLogic.look_backward].
  - destruct (decide (next_i < 0)); [intros [= <- <-]; exact Hinv|discriminate].
  - destruct (decide (next_i < 0)); [intros [= <- <-]; exact Hinv|].
    destruct (getitem order (Z.to_nat next_i)) as [next_pos| |] eqn:G1; try discriminate.
    apply getitem_Ok in G1. unfold_monad.
    destruct (getitem cells next_pos) as [target| |] eqn:G2; try discriminate.
    apply getitem_Ok in G2. rewrite (getitem_lookup cells pos tile Htile).
    assert (Hne : pos ≠ next_pos).
    { intros ->. pose proof (NoDup_lookup order _ _ _ order_NoDup Hcur G1). lia. }
    assert (Hpos : (pos < length cells)%nat) by now apply lookup_lt_Some in Htile.
    assert (Hnext : (next_pos < length cells)%nat) by now apply lookup_lt_Some in G2.
    destruct (decide (target = 0)) as [->|Hz].
    + rewrite !setitem_lt by (rewrite ?length_insert; lia).
      apply (IH _ next_pos (Z.to_nat next_i) _ _ tile); [exact G1|lia| |exact Hnz|].
      * rewrite list_lookup_insert_ne by exact Hne. now apply list_lookup_insert_eq.
      * now apply slide_keeps.
    + destruct (decide (tile = target)) as [<-|Hd]; [|intros [= <- <-]; exact Hinv].
      rewrite !setitem_lt by (rewrite ?length_insert; lia).
      rewrite (getitem_lookup _ next_pos (2 * tile)).
      2:{ rewrite list_lookup_insert_ne by exact Hne. now apply list_lookup_insert_eq. }
      intros [= <- <-]. now apply merge_keeps.
Qed.

Lemma process_position_rule cells (score : Z) (i : nat) cells' score' :
  Inv cells score →
  GameLogic.process_position size order (cells, score) i = Ok (cells', score') →
  Inv cells' score'.
Proof.
  intros Hinv. unfold GameLogic.process_position. unfold_monad.
  destruct (getitem order i) as [pos| |] eqn:G1; try discriminate.
  destruct (getitem cells pos) as [tile| |] eqn:G2; try discriminate.
  apply getitem_Ok in G1, G2.
  destruct (decide (tile = 0)); [intros [= <- <-]; exact Hinv|].
  apply (look_backward_rule _ _ _ i _ _ tile); try assumption. lia.
Qed.

Lemma process_loop_rule (indices : list nat) :
  ∀ cells (score : Z) cells' score',
    Inv cells score →
    for_each (GameLogic.process_position size order) (cells, score) indices
    = Ok (cells', score') →
    Inv cells' score'.
Proof.
  induction indices as [|i indices IH]; intros cells score cells' score' Hinv;
    cbn [for_each].
  - intros [= <- <-]. exact Hinv.
  - unfold_monad.
    destruct (GameLogic.process_position size order (cells, score) i)
      as [[cells1 score1]| |] eqn:E; try discriminate.
    apply IH. eapply process_position_rule; eassumption.
Qed.

End Rule.

(** The rule for [_process_move]: what a slide and a merge keep, the move
    keeps. *)
Lemma process_move_rule (Inv : list Z → Z → Prop) (b : GameBoard.t)
    (direction : string) (score : Z) (cells : list Z) :
  (∀ cells score pos next_pos tile,
     pos ≠ next_pos → cells !! next_pos = Some 0 → cells !! pos = Some tile → tile ≠ 0 →
     Inv cells score → Inv (<[pos := 0]> (<[next_pos := tile]> cells)) score) →
  (∀ cells score pos next_pos tile,
     pos ≠ next_pos → cells !! next_pos = Some tile → cells !! pos = Some tile → tile ≠ 0 →
     Inv cells score → Inv (<[pos := 0]> (<[next_pos := 2 * tile]> cells)) (score + 2 * tile)) →
  direction ∈ keys →
  Inv (GameBoard.board b) 0 →
  GameLogic._process_move (logic_of b) direction = Ok (score, cells) →
  Inv cells score.
Proof.
  intros Hslide Hmerge Hkey Hinv. unfold GameLogic._process_move, logic_of.
  cbn [GameLogic.board GameLogic.move_direction].
  destruct (keys_directions (GameBoard.size b) direction Hkey) as (order & Hget & ->).
  unfold_monad.
  destruct (for_each _ _ _) as [[cells1 score1]| |] eqn:E; try discriminate.
  intros [= <- <-].
  destruct (decide (GameBoard.size b = O)) as [Z0|Z0].
  - unfold GameBoard.total_cells in E. rewrite Z0 in E. cbn in E.
    injection E as <- <-. exact Hinv.
  - eapply (process_loop_rule (GameBoard.size b) order); try eassumption; [lia|].
    now apply (directions_NoDup (GameBoard.size b) direction).
Qed.

Section Kept.

Implicit Types (cells : list Z) (b : GameBoard.t).

Lemma Zsum_insert cells (i : nat) (x v : Z) :
  cells !! i = Some x → Zsum (<[i := v]> cells) = Zsum cells - x + v.
Proof.
  revert i. induction cells as [|c cells IH]; intros i H; [discriminate H|].
  destruct i as [|i]; simpl in *.
  - injection H as ->. lia.
  - rewrite (IH i H). lia.
Qed.

Lemma zeros_insert cells (i : nat) (x v : Z) :
  cells !! i = Some x →
  zeros (<[i := v]> cells)
  = zeros cells - (if decide (x = 0) then 1 else 0) + (if decide (v = 0) then 1 else 0).
Proof.
  unfold zeros. revert i. induction cells as [|c cells IH]; intros i H; [discriminate H|].
  destruct i as [|i]; simpl in *.
  - injection H as ->. rewrite !filter_cons.
    destruct (decide (x = 0)); destruct (decide (v = 0)); simpl length; lia.
  - specialize (IH i H). rewrite !filter_cons.
    destruct (decide (c = 0)); simpl length; lia.
Qed.

Lemma is_tile_double (v : Z) : is_tile v → is_tile (2 * v).
Proof.
  intros [->|(k & Hk & ->)]; [now left|right].
  exists (S k). split; [lia|]. rewrite Nat2Z.inj_succ, Z.pow_succ_r by lia. reflexivity.
Qed.

Lemma is_tile_nonneg (v : Z) : is_tile v → 0 ≤ v.
Proof. intros [->|(k & _ & ->)]; [lia|]. apply Z.pow_nonneg. lia. Qed.

(** The sum of the cells is kept. *)
Lemma process_move_sum b (direction : string) (score : Z) cells :
  direction ∈ keys →
  GameLogic._process_move (logic_of b) direction = Ok (score, cells) →
  Zsum cells = Zsum (GameBoard.board b).
Proof.
  intros Hkey.
  apply (process_move_rule (λ cells _, Zsum cells = Zsum (GameBoard.board b)));
    [| |exact Hkey|reflexivity].
  - intros cs sc pos next_pos tile Hne H0 Ht _ Hinv.
    rewrite (Zsum_insert _ pos tile), (Zsum_insert _ next_pos 0); [lia|exact H0|].
    now rewrite list_lookup_insert_ne.
  - intros cs sc pos next_pos tile Hne H0 Ht _ Hinv.
    rewrite (Zsum_insert _ pos tile), (Zsum_insert _ next_pos tile); [lia|exact H0|].
    now rewrite list_lookup_insert_ne.
Qed.

(** Tiles stay tiles. *)
Lemma process_move_tiles b (direction : string) (score : Z) cells :
  direction ∈ keys → Forall is_tile (GameBoard.board b) →
  GameLogic._process_move (logic_of b) direction = Ok (score, cells) →
  Forall is_tile cells.
Proof.
  intros Hkey Htiles.
  apply (process_move_rule (λ cells _, Forall is_tile cells)); [| |exact Hkey|exact Htiles].
  - intros cs sc pos next_pos tile _ _ Ht _ Hinv.
    apply Forall_insert; [|now left]. apply Forall_insert; [exact Hinv|].
    rewrite Forall_forall in Hinv. apply Hinv. now apply list_elem_of_lookup_2 in Ht.
  - intros cs sc pos next_pos tile _ _ Ht _ Hinv.
    apply Forall_insert; [|now left]. apply Forall_insert; [exact Hinv|].
    apply is_tile_double. rewrite Forall_forall in Hinv. apply Hinv.
    now apply list_elem_of_lookup_2 in Ht.
Qed.

(** Empty cells are not lost; a score is gained only with an empty cell
    more; and cells that changed have an empty cell. *)
Lemma process_move_zeros b (direction : string) (score : Z) cells :
  direction ∈ keys →
  GameLogic._process_move (logic_of b) direction = Ok (score, cells) →
  zeros (GameBoard.board b) ≤ zeros cells
  ∧ (score = 0 ∨ zeros (GameBoard.board b) < zeros cells)
  ∧ (cells = GameBoard.board b ∨ 0 ∈ cells).
Proof.
  intros Hkey.
  apply (process_move_rule
           (λ cells score, zeros (GameBoard.board b) ≤ zeros cells
                           ∧ (score = 0 ∨ zeros (GameBoard.board b) < zeros cells)
                           ∧ (cells = GameBoard.board b ∨ 0 ∈ cells)));
    [| |exact Hkey|].
  - intros cs sc pos next_pos tile Hne H0 Ht Hnz (H1 & H2 & _).
    assert (Hpos : <[next_pos := tile]> cs !! pos = Some tile)
      by now rewrite list_lookup_insert_ne.
    rewrite (zeros_insert _ pos tile 0 Hpos), (zeros_insert _ next_pos 0 tile H0).
    destruct (decide (tile = 0)); [contradiction|].
    destruct (decide (0 = 0)); [|contradiction].
    split; [lia|]. split; [lia|]. right.
    apply (list_elem_of_lookup_2 _ pos). apply list_lookup_insert_eq.
    rewrite length_insert. now apply lookup_lt_Some in Ht.
  - intros cs sc pos next_pos tile Hne H0 Ht Hnz (H1 & H2 & _).
    assert (Hpos : <[next_pos := 2 * tile]> cs !! pos = Some tile)
      by now rewrite list_lookup_insert_ne.
    rewrite (zeros_insert _ pos tile 0 Hpos), (zeros_insert _ next_pos tile (2 * tile) H0).
    destruct (decide (tile = 0)); [contradiction|].
    destruct (decide (0 = 0)); [|contradiction].
    destruct (decide (2 * tile = 0)); [lia|].
    split; [lia|]. split; [lia|]. right.
    apply (list_elem_of_lookup_2 _ pos). apply list_lookup_insert_eq.
    rewrite length_insert. now apply lookup_lt_Some in Ht.
  - split; [lia|]. split; [now left|now left].
Qed.

End Kept.

(** X4: on a well-formed board and for each of the four keys,
    [_process_move] returns, and the cells it leaves have the same number
    and the same sum as before: sliding and merging neither create nor
    lose tile value. *)
Theorem X4_move_conserves_sum (b : GameBoard.t) (direction : string) :
  well_formed b → direction ∈ keys →
  ∃ score cells,
    GameLogic._process_move (logic_of b) direction = Ok (score, cells)
    ∧ length cells = length (GameBoard.board b)
    ∧ Zsum cells = Zsum (GameBoard.board b).
Proof.
  intros Hwf Hkey.
  destruct (process_move_ok b direction Hwf Hkey) as (score & cells & Hrun & Hlen & _).
  exists score, cells. split; [exact Hrun|]. split; [now rewrite Hlen, Hwf|].
  now apply (process_move_sum b direction score).
Qed.

Lemma X4_move_conserves_sum_witness :
  ∃ score cells,
    GameLogic._process_move (logic_of right_only_board) "d" = Ok (score, cells)
    ∧ Zsum cells = 6.
Proof.
  destruct (X4_move_conserves_sum right_only_board "d") as (score & cells & Hrun & _ & Hsum).
  - reflexivity.
  - unfold keys. set_solver.
  - exists score, cells. split; [exact Hrun|exact Hsum].
Defined.

(** X5: on a well-formed board whose cells are all 0 or a power of two
    from 2 on, [_process_move] leaves only such cells, and the score it
    returns is not negative. *)
Theorem X5_move_keeps_tiles (b : GameBoard.t) (direction : string) :
  well_formed b → Forall is_tile (GameBoard.board b) → direction ∈ keys →
  ∃ score cells,
    GameLogic._process_move (logic_of b) direction = Ok (score, cells)
    ∧ Forall is_tile cells
    ∧ 0 ≤ score.
Proof.
  intros Hwf Htiles Hkey.
  destruct (process_move_ok b direction Hwf Hkey) as (score & cells & Hrun & _ & Hnn).
  exists score, cells. split; [exact Hrun|]. split.
  - now apply (process_move_tiles b direction score).
  - apply Hnn. eapply Forall_impl; [exact Htiles|]. apply is_tile_nonneg.
Qed.

Lemma tiles_2_0_4_0 : Forall is_tile [2; 0; 4; 0].
Proof.
  assert (T0 : is_tile 0) by now left.
  assert (T2 : is_tile 2) by (right; exists 1%nat; split; [lia|reflexivity]).
  assert (T4 : is_tile 4) by (right; exists 2%nat; split; [lia|reflexivity]).
  repeat (apply Forall_cons_2; [assumption|]). apply Forall_nil_2.
Qed.

Lemma X5_move_keeps_tiles_witness :
  ∃ score cells,
    GameLogic._process_move (logic_of right_only_board) "d" = Ok (score, cells)
    ∧ Forall is_tile cells.
Proof.
  destruct (X5_move_keeps_tiles right_only_board "d") as (score & cells & Hrun & Ht & _).
  - reflexivity.
  - exact tiles_2_0_4_0.
  - unfold keys. set_solver.
  - exists score, cells. split; [exact Hrun|exact Ht].
Defined.

(** X6: on a well-formed board [_process_move] never lowers the number of
    empty cells; it returns score 0 whenever it leaves the cells as they
    were, and a score other than 0 only together with more empty cells
    than before. *)
Theorem X6_move_empty_cells (b : GameBoard.t) (direction : string) :
  well_formed b → direction ∈ keys →
  ∃ score cells,
    GameLogic._process_move (logic_of b) direction = Ok (score, cells)
    ∧ zeros (GameBoard.board b) ≤ zeros cells
    ∧ (cells = GameBoard.board b → score = 0)
    ∧ (score ≠ 0 → zeros (GameBoard.board b) < zeros cells).
Proof.
  intros Hwf Hkey.
  destruct (process_move_ok b direction Hwf Hkey) as (score & cells & Hrun & _ & _).
  destruct (process_move_zeros b direction score cells Hkey Hrun) as (H1 & H2 & _).
  exists score, cells. split; [exact Hrun|]. split; [exact H1|]. split.
  - intros ->. destruct H2 as [H2|H2]; [exact H2|lia].
  - intros Hs. destruct H2 as [H2|H2]; [contradiction|exact H2].
Qed.

Lemma X6_move_empty_cells_witness :
  ∃ score cells,
    GameLogic._process_move (logic_of (GameBoard.Build 2 [2; 2; 0; 0])) "a"
    = Ok (score, cells)
    ∧ zeros [2; 2; 0; 0] ≤ zeros cells.
Proof.
  destruct (X6_move_empty_cells (GameBoard.Build 2 [2; 2; 0; 0]) "a")
    as (score & cells & Hrun & Hz & _).
  - reflexivity.
  - unfold keys. set_solver.
  - exists score, cells. split; [exact Hrun|exact Hz].
Defined.

(** What [make_move] of the game logic returns on a well-formed board. *)
Lemma make_move_outcome (b : GameBoard.t) (direction : string) (r : Random) :
  well_formed b → direction ∈ keys →
  ∃ score cells,
    GameLogic._process_move (logic_of b) direction = Ok (score, cells)
    ∧ (cells = GameBoard.board b →
       GameLogic.make_move (logic_of b) direction r = (Ok (0, false, logic_of b), r))
    ∧ (cells ≠ GameBoard.board b →
       ∃ position,
         cells !! position = Some 0
         ∧ GameLogic.make_move (logic_of b) direction r
           = (Ok (score, true,
                  logic_of (GameBoard.set_board b
                     (<[position := new_tile (fraction (advance r))]> cells))),
              advance (advance r))).
Proof.
  intros Hwf Hkey.
  destruct (process_move_ok b direction Hwf Hkey) as (score & cells & Hrun & Hlen & _).
  destruct (process_move_zeros b direction score cells Hkey Hrun) as (_ & Hscore & Hzero).
  exists score, cells. split; [exact Hrun|].
  destruct (keys_directions (GameBoard.size b) direction Hkey) as (order & Hget & _).
  split.
  - intros E. destruct (make_move_cases b direction r Hwf Hkey)
      as (score' & cells' & Hrun' & _ & Hsame & _).
    rewrite Hrun in Hrun'. injection Hrun' as <- <-.
    rewrite (Hsame E). destruct Hscore as [->|Hlt]; [reflexivity|].
    rewrite E in Hlt. lia.
  - intros Hne. destruct Hzero as [E|Hzero]; [contradiction|].
    unfold GameLogic.make_move. cbn [logic_of GameLogic.move_direction GameLogic.board].
    rewrite Hget. unfold_monad. fold (logic_of b). rewrite Hrun.
    rewrite bool_decide_eq_true_2 by exact Hne.
    cbn [GameLogic.board GameLogic.move_direction].
    assert (Hwf' : well_formed (GameBoard.set_board b cells)) by exact Hlen.
    rewrite (add_random_tile_run _ r Hwf'). cbn [GameBoard.set_board GameBoard.board].
    destruct (empty_indices cells !! _) as [position|] eqn:Hpos.
    + exists position. split.
      * apply empty_indices_spec. now apply list_elem_of_lookup_2 in Hpos.
      * reflexivity.
    + exfalso. apply lookup_ge_None in Hpos.
      assert (Hnil : empty_indices cells ≠ []).
      { intros C. apply empty_indices_nil in C. contradiction. }
      destruct (empty_indices cells) as [|e es]; [congruence|].
      pose proof (Nat.mod_upper_bound (N.to_nat (r O)) (length (e :: es))) as Hm.
      simpl in *. lia.
Qed.


(** X7: [make_move] of the game logic on a well-formed board, for one of
    the four keys.  If the slide and merge step leaves the cells as they
    were, it returns [(0, False)], the board is untouched and nothing is
    drawn from the random source.  If the cells changed, it returns the
    score with [True], and the board is the slid cells with exactly one
    of their empty cells filled by a new tile: the tile that is due after
    a move is always placed. *)
Theorem X7_make_move_outcome (b : GameBoard.t) (direction : string) (r : Random) :
  well_formed b → direction ∈ keys →
  ∃ score cells,
    GameLogic._process_move (logic_of b) direction = Ok (score, cells)
    ∧ (cells = GameBoard.board b →
       GameLogic.make_move (logic_of b) direction r = (Ok (0, false, logic_of b), r))
    ∧ (cells ≠ GameBoard.board b →
       ∃ position,
         cells !! position = Some 0
         ∧ GameLogic.make_move (logic_of b) direction r
           = (Ok (score, true,
                  logic_of (GameBoard.set_board b
                     (<[position := new_tile (fraction (advance r))]> cells))),
              advance (advance r))).
Proof. apply make_move_outcome. Qed.

Lemma X7_make_move_outcome_witness :
  GameLogic.make_move (logic_of stuck_board) "a" zero_source
  = (Ok (0, false, logic_of stuck_board), zero_source).
Proof.
  destruct (X7_make_move_outcome stuck_board "a" zero_source)
    as (score & cells & Hrun & Hsame & _).
  - reflexivity.
  - unfold keys. set_solver.
  - apply Hsame. vm_compute in Hrun. now injection Hrun as _ <-.
Defined.

Lemma any_other_key (md : MoveDirection.t) (direction : string) :
  direction ∉ keys → dict_get (MoveDirection.directions md) direction = None.
Proof.
  intros H. unfold MoveDirection.directions. cbn [dict_get].
  repeat (destruct (decide _) as [<-|_]; [exfalso; apply H; unfold keys; set_solver|]).
  reflexivity.
Qed.

(** X8: a string that is none of the four keys is no direction:
    [get_direction_indices] returns the empty list for it, [make_move] of
    the game logic returns [(0, False)] and leaves the board and the
    random source untouched, and [_process_move] itself, which does not
    look at the key, raises [IndexError] on a board that has cells. *)
Theorem X8_unknown_direction (self : GameLogic.t) (direction : string) (r : Random) :
  direction ∉ keys →
  MoveDirection.get_direction_indices (GameLogic.move_direction self) direction = []
  ∧ GameLogic.make_move self direction r = (Ok (0, false, self), r)
  ∧ ((0 < GameBoard.size (GameLogic.board self))%nat →
     GameLogic._process_move self direction = Raise IndexError).
Proof.
  intros Hkey. pose proof (any_other_key (GameLogic.move_direction self) direction Hkey) as Hnone.
  split; [|split].
  - unfold MoveDirection.get_direction_indices. now rewrite Hnone.
  - unfold GameLogic.make_move. now rewrite Hnone.
  - intros Hsize. unfold GameLogic._process_move, MoveDirection.get_direction_indices.
    rewrite Hnone. unfold GameBoard.total_cells, range.
    destruct (GameBoard.size (GameLogic.board self)) as [|n]; [lia|]. reflexivity.
Qed.

Lemma X8_unknown_direction_witness :
  GameLogic.make_move (logic_of stuck_board) "x" zero_source
  = (Ok (0, false, logic_of stuck_board), zero_source).
Proof.
  apply (X8_unknown_direction (logic_of stuck_board) "x" zero_source).
  unfold keys. intros H. repeat (apply elem_of_cons in H; destruct H as [H|H]; [discriminate H|]).
  inversion H.
Defined.

(** ** GameLogic: after a move the tiles are packed *)

Section Packed.

Variables (size : nat) (order : list nat).
Hypothesis size_positive : (0 < size)%nat.
Hypothesis order_NoDup : NoDup order.

Implicit Types (cells : list Z).

Lemma order_inj (p q c : nat) : order !! p = Some c → order !! q = Some c → p = q.
Proof. intros Hp Hq. eapply NoDup_lookup; eassumption. Qed.

Lemma look_backward_packed (i : nat) (fuel : nat) :
  ∀ cells (pos cur : nat) (score tile : Z) cells' score',
    (cur ≤ i)%nat → order !! cur = Some pos →
    cells !! pos = Some tile → tile ≠ 0 → sliding size order i cur cells →
    GameLogic.look_backward fuel size order cells pos
      (Z.of_nat cur - Z.of_nat size) score = Ok (cells', score') →
    packed_upto size order (S i) cells'.
Proof.
  induction fuel as [|fuel IH]; intros cells pos cur score tile cells' score'
    Hle Hcur Htile Hnz [J1 J2]; cbn [GameLogic.look_backward].
  - destruct (decide _) as [Hneg|]; [|discriminate]. intros [= <- <-].
    intros p c c' Hp Hc Hc' Hz. apply (J1 p c c'); try assumption; lia.
  - destruct (decide _) as [Hneg|Hge].
    { intros [= <- <-]. intros p c c' Hp Hc Hc' Hz.
      apply (J1 p c c'); try assumption; lia. }
    replace (Z.to_nat (Z.of_nat cur - Z.of_nat size)) with (cur - size)%nat by lia.
    destruct (getitem order (cur - size)) as [next_pos| |] eqn:G1; try discriminate.
    apply getitem_Ok in G1. unfold_monad.
    destruct (getitem cells next_pos) as [target| |] eqn:G2; try discriminate.
    apply getitem_Ok in G2. rewrite (getitem_lookup cells pos tile Htile).
    assert (Hne : pos ≠ next_pos).
    { intros ->. pose proof (order_inj _ _ _ Hcur G1). lia. }
    assert (Hpos : (pos < length cells)%nat) by now apply lookup_lt_Some in Htile.
    assert (Hnext : (next_pos < length cells)%nat) by now apply lookup_lt_Some in G2.
    destruct (decide (target = 0)) as [->|Hz].
    + rewrite !setitem_lt by (rewrite ?length_insert; lia).
      replace (Z.of_nat cur - Z.of_nat size - Z.of_nat size)
        with (Z.of_nat (cur - size) - Z.of_nat size) by lia.
      apply (IH _ next_pos (cur - size)%nat _ tile); [lia|exact G1| |exact Hnz|].
      { rewrite list_lookup_insert_ne by exact Hne. now apply list_lookup_insert_eq. }
      split.
      * intros p c c' Hp Hpc Hc Hc' Hzero.
        destruct (decide (p = cur)) as [->|Hpcur].
        { rewrite Hcur in Hc. injection Hc as <-. apply list_lookup_insert_eq.
          now rewrite length_insert. }
        assert (c ≠ pos) by (intros ->; apply Hpcur; eapply order_inj; eassumption).
        assert (c ≠ next_pos) by (intros ->; apply Hpc; eapply order_inj; eassumption).
        rewrite !list_lookup_insert_ne by congruence.
        destruct (decide (c' = pos)) as [->|Hc'pos].
        { assert (E : (p - size)%nat = cur) by (eapply order_inj; eassumption).
          apply J2; [lia|]. replace (cur + size)%nat with p by lia. exact Hc. }
        assert (c' ≠ next_pos).
        { intros ->. apply Hpcur.
          assert ((p - size)%nat = (cur - size)%nat) by (eapply order_inj; eassumption). lia. }
        rewrite !list_lookup_insert_ne in Hzero by congruence.
        now apply (J1 p c c').
      * intros _ c Hc. replace (cur - size + size)%nat with cur in Hc by lia.
        rewrite Hcur in Hc. injection Hc as <-. apply list_lookup_insert_eq.
        now rewrite length_insert.
    + destruct (decide (tile = target)) as [<-|Hd].
      * rewrite !setitem_lt by (rewrite ?length_insert; lia).
        destruct (getitem _ next_pos) as [merged| |]; try discriminate.
        intros [= <- <-]. intros p c c' Hp Hc Hc' Hzero.
        destruct (decide (p = cur)) as [->|Hpcur].
        { rewrite Hcur in Hc. injection Hc as <-. apply list_lookup_insert_eq.
          now rewrite length_insert. }
        assert (c ≠ pos) by (intros ->; apply Hpcur; eapply order_inj; eassumption).
        destruct (decide (c' = pos)) as [->|Hc'pos].
        { assert (E : (p - size)%nat = cur) by (eapply order_inj; eassumption).
          assert (c ≠ next_pos).
          { intros ->. assert (p = (cur - size)%nat) by (eapply order_inj; eassumption). lia. }
          rewrite !list_lookup_insert_ne by congruence.
          apply J2; [lia|]. replace (cur + size)%nat with p by lia. exact Hc. }
        assert (c' ≠ next_pos).
        { intros ->. apply Hpcur.
          assert ((p - size)%nat = (cur - size)%nat) by (eapply order_inj; eassumption). lia. }
        rewrite !list_lookup_insert_ne in Hzero by congruence.
        destruct (decide (c = next_pos)) as [->|Hcn].
        { exfalso. assert (E : p = (cur - size)%nat) by (eapply order_inj; eassumption).
          pose proof (J1 p next_pos c') as H1. rewrite G2 in H1.
          assert (Some tile = Some 0) as [= ->]; [|contradiction].
          apply H1; try assumption; lia. }
        rewrite !list_lookup_insert_ne by congruence.
        apply (J1 p c c'); try assumption; lia.
      * intros [= <- <-]. intros p c c' Hp Hc Hc' Hzero.
        destruct (decide (p = cur)) as [->|Hpcur].
        { exfalso. rewrite G1 in Hc'. injection Hc' as <-. rewrite G2 in Hzero.
          injection Hzero as ->. contradiction. }
        apply (J1 p c c'); try assumption; lia.
Qed.

Lemma process_position_packed cells (score : Z) (i : nat) cells' score' :
  packed_upto size order i cells →
  GameLogic.process_position size order (cells, score) i = Ok (cells', score') →
  packed_upto size order (S i) cells'.
Proof.
  intros Hpacked. unfold GameLogic.process_position. unfold_monad.
  destruct (getitem order i) as [pos| |] eqn:G1; try discriminate.
  destruct (getitem cells pos) as [tile| |] eqn:G2; try discriminate.
  apply getitem_Ok in G1, G2.
  destruct (decide (tile = 0)) as [->|Hnz].
  - intros [= <- <-]. intros p c c' Hp Hc Hc' Hzero.
    destruct (decide (p = i)) as [->|Hpi].
    + rewrite G1 in Hc. injection Hc as <-. exact G2.
    + apply (Hpacked p c c'); try assumption; lia.
  - apply (look_backward_packed i (S i) cells pos i score tile); try assumption; [lia|].
    split.
    + intros p c c' Hp Hpi. apply Hpacked. lia.
    + intros Habs. lia.
Qed.

Lemma process_loop_packed (n : nat) :
  ∀ (start : nat) cells (score : Z) cells' score',
    packed_upto size order start cells →
    for_each (GameLogic.process_position size order) (cells, score) (seq start n)
    = Ok (cells', score') →
    packed_upto size order (start + n) cells'.
Proof.
  induction n as [|n IH]; intros start cells score cells' score' Hpacked; cbn [seq for_each].
  - intros [= <- <-]. now rewrite Nat.add_0_r.
  - unfold_monad.
    destruct (GameLogic.process_position size order (cells, score) start)
      as [[cells1 score1]| |] eqn:E; try discriminate.
    intros Hrun. replace (start + S n)%nat with (S start + n)%nat by lia.
    apply (IH (S start) cells1 score1 cells' score'); [|exact Hrun].
    eapply process_position_packed; eassumption.
Qed.

End Packed.

Section PackedBoard.

Lemma index_of_row_col (size c : nat) :
  size ≠ O → c = (row size c * size + col size c)%nat.
Proof. intros H. unfold row, col. now apply position_split. Qed.

Lemma toward_edge_unique (size : nat) (direction : string) (c c1 c2 : nat) :
  size ≠ O → toward_edge size direction c c1 → toward_edge size direction c c2 → c1 = c2.
Proof.
  intros Hs. unfold toward_edge.
  repeat (destruct (decide _) as [_|_]); try contradiction;
    intros [H1 H2] [H3 H4];
    assert (Hr : row size c1 = row size c2) by lia;
    assert (Hc : col size c1 = col size c2) by lia;
    rewrite (index_of_row_col size c1 Hs), (index_of_row_col size c2 Hs);
    congruence.
Qed.

Lemma edge_has_no_neighbour (size : nat) (direction : string) (c c' : nat) :
  size ≠ O → on_edge size direction c → toward_edge size direction c c' →
  (size * size ≤ c')%nat.
Proof.
  intros Hs. unfold on_edge, toward_edge.
  pose proof (Nat.mod_upper_bound c' size Hs) as Hcol. fold (col size c') in Hcol.
  repeat (destruct (decide _) as [_|_]); try contradiction; intros He [H1 H2]; try lia.
  rewrite (index_of_row_col size c' Hs). rewrite H1, He. nia.
Qed.

(** After [_process_move] a cell holds a tile only if its neighbour
    toward the edge does. *)
Lemma process_move_packed (b : GameBoard.t) (direction : string) (score : Z)
    (cells : list Z) :
  well_formed b → direction ∈ keys →
  GameLogic._process_move (logic_of b) direction = Ok (score, cells) →
  ∀ c c' v, toward_edge (GameBoard.size b) direction c c' →
            cells !! c' = Some 0 → cells !! c = Some v → v = 0.
Proof.
  intros Hwf Hkey Hrun c c' v Hadj Hzero Hv.
  destruct (process_move_ok b direction Hwf Hkey) as (score0 & cells0 & Hrun0 & Hlen & _).
  rewrite Hrun in Hrun0. injection Hrun0 as <- <-.
  destruct (keys_directions (GameBoard.size b) direction Hkey) as (order & Hget & Hidx).
  assert (Hc : (c < GameBoard.size b * GameBoard.size b)%nat).
  { apply lookup_lt_Some in Hv. unfold GameBoard.total_cells in Hlen. lia. }
  assert (Hs : GameBoard.size b ≠ O) by lia.
  assert (Hpacked : packed_upto (GameBoard.size b) order (GameBoard.total_cells b) cells).
  { revert Hrun. unfold GameLogic._process_move, logic_of.
    cbn [GameLogic.board GameLogic.move_direction]. rewrite Hidx. unfold_monad.
    destruct (for_each _ _ _) as [[cells1 score1]| |] eqn:E; try discriminate.
    intros [= <- <-].
    apply (process_loop_packed (GameBoard.size b) order) in E; [exact E|lia| |].
    - now apply (directions_NoDup (GameBoard.size b) direction).
    - intros p ? ? Hp. lia. }
  assert (Hin : c ∈ order).
  { rewrite (orders_permutation _ _ _ Hget). apply elem_of_seq. lia. }
  apply list_elem_of_lookup in Hin. destruct Hin as [p Hp].
  destruct (look_back_cell _ _ _ p c Hget Hp) as [Hedge Hback].
  destruct (le_lt_dec (GameBoard.size b) p) as [Hge|Hlt].
  - destruct (Hback Hge) as (c'' & Hc'' & Hadj').
    assert (c'' = c') as -> by (eapply toward_edge_unique; eassumption).
    assert (Hpt : (p < GameBoard.total_cells b)%nat).
    { apply lookup_lt_Some in Hp.
      pose proof (directions_order _ _ _ Hget) as [Hl _].
      unfold GameBoard.total_cells. lia. }
    pose proof (Hpacked p c c' (conj Hge Hpt) Hp Hc'' Hzero) as H.
    rewrite Hv in H. now injection H.
  - exfalso. pose proof (edge_has_no_neighbour _ _ _ _ Hs (Hedge Hlt) Hadj) as H.
    apply lookup_lt_Some in Hzero. unfold GameBoard.total_cells in Hlen. lia.
Qed.

End PackedBoard.

(** X9: after [_process_move] on a well-formed board, for each of the
    four keys, no tile has an empty cell as its neighbour on the side
    toward which the move went: every row (Left, Right) or column (Up,
    Down) has its tiles packed against the edge. *)
Theorem X9_move_packs_tiles (b : GameBoard.t) (direction : string) :
  well_formed b → direction ∈ keys →
  ∃ score cells,
    GameLogic._process_move (logic_of b) direction = Ok (score, cells)
    ∧ ∀ c c' v, toward_edge (GameBoard.size b) direction c c' →
                cells !! c' = Some 0 → cells !! c = Some v → v = 0.
Proof.
  intros Hwf Hkey.
  destruct (process_move_ok b direction Hwf Hkey) as (score & cells & Hrun & _).
  exists score, cells. split; [exact Hrun|].
  now apply (process_move_packed b direction score).
Qed.

Lemma X9_move_packs_tiles_witness :
  ∃ score cells,
    GameLogic._process_move (logic_of right_only_board) "d" = Ok (score, cells)
    ∧ (cells !! 1%nat = Some 0 → ∀ v, cells !! 0%nat = Some v → v = 0).
Proof.
  destruct (X9_move_packs_tiles right_only_board "d") as (score & cells & Hrun & Hpacked).
  - reflexivity.
  - unfold keys. set_solver.
  - exists score, cells. split; [exact Hrun|]. intros Hz v Hv.
    apply (Hpacked 0%nat 1%nat v); [|exact Hz|exact Hv].
    unfold toward_edge, row, col. simpl. split; reflexivity.
Defined.

(** X10: [copy] returns a board with the size and the cells of the
    original, whatever the random source gives to the constructor that it
    goes through, and it never raises. *)
Theorem X10_copy_is_the_board (b : GameBoard.t) (r : Random) :
  fst (GameBoard.copy b r) = Ok b.
Proof. destruct (copy_ok b r) as (r' & H). now rewrite H. Qed.

Section MaxValue.

Lemma foldl_max_bound (l : list Z) (x : Z) :
  x ≤ foldl Z.max x l ∧ Forall (λ v, v ≤ foldl Z.max x l) l
  ∧ (foldl Z.max x l = x ∨ foldl Z.max x l ∈ l).
Proof.
  revert x. induction l as [|y l IH]; intros x; simpl.
  - split; [lia|]. split; [constructor|now left].
  - destruct (IH (Z.max x y)) as (H1 & H2 & H3). split; [lia|]. split.
    + constructor; [lia|exact H2].
    + destruct H3 as [H3|H3].
      * rewrite H3. destruct (Z.max_spec x y) as [[_ ->]|[_ ->]]; [right; left|now left].
      * right. now right.
Qed.

End MaxValue.

(** X11: [get_max_value] is 0 on a board without cells; otherwise it is
    the value of one of the cells and no cell is greater. *)
Theorem X11_max_value (b : GameBoard.t) :
  (GameBoard.board b = [] → GameBoard.get_max_value b = 0)
  ∧ (GameBoard.board b ≠ [] → GameBoard.get_max_value b ∈ GameBoard.board b)
  ∧ Forall (λ v, v ≤ GameBoard.get_max_value b) (GameBoard.board b).
Proof.
  unfold GameBoard.get_max_value. destruct (GameBoard.board b) as [|x l].
  - split; [reflexivity|]. split; [congruence|constructor].
  - destruct (foldl_max_bound l x) as (H1 & H2 & H3). split; [discriminate|]. split.
    + intros _. destruct H3 as [->|H3]; [left|now right].
    + constructor; assumption.
Qed.

(** ** GameBoard and GameLogic: game over means no move *)

Section NoMove.

Lemma toward_edge_adjacent (size : nat) (direction : string) (c c' : nat) :
  size ≠ O → toward_edge size direction c c' →
  beside size c c' ∨ below size c c' ∨ beside size c' c ∨ below size c' c.
Proof.
  intros Hs. unfold toward_edge, beside, below.
  pose proof (index_of_row_col size c Hs) as Ec.
  pose proof (index_of_row_col size c' Hs) as Ec'.
  repeat (destruct (decide _) as [_|_]); try contradiction; intros [H1 H2].
  - right. right. right. nia.
  - right. left. nia.
  - right. right. left. split; [nia|congruence].
  - left. split; [nia|congruence].
Qed.

Lemma for_each_fixed {S X} (body : S → X → res S) (st : S) (xs : list X) :
  (∀ x, x ∈ xs → body st x = Ok st) → for_each body st xs = Ok st.
Proof.
  induction xs as [|x xs IH]; intros H; [reflexivity|].
  cbn [for_each]. rewrite H by left. unfold_monad. apply IH. intros y Hy. apply H. now right.
Qed.

(** On a terminal board the slide and merge step changes nothing and
    gains nothing. *)
Lemma terminal_no_change (b : GameBoard.t) (direction : string) :
  well_formed b → terminal b → direction ∈ keys →
  GameLogic._process_move (logic_of b) direction = Ok (0, GameBoard.board b).
Proof.
  intros Hwf [Hfull Hdiffer] Hkey. unfold GameLogic._process_move, logic_of.
  cbn [GameLogic.board GameLogic.move_direction].
  destruct (keys_directions (GameBoard.size b) direction Hkey) as (order & Hget & ->).
  pose proof (directions_order _ _ _ Hget) as [Hlen Hbelow].
  rewrite for_each_fixed; [reflexivity|].
  intros i Hi. apply elem_of_seq in Hi. unfold GameBoard.total_cells in Hi.
  assert (Hs : GameBoard.size b ≠ O) by lia.
  unfold GameLogic.process_position.
  destruct (getitem_lt order i) as (pos & Hpos & Hg1); [lia|]. run Hg1.
  assert (Hp : (pos < length (GameBoard.board b))%nat).
  { rewrite Forall_forall in Hbelow. rewrite Hwf. apply Hbelow.
    now apply list_elem_of_lookup_2 in Hpos. }
  destruct (getitem_lt (GameBoard.board b) pos Hp) as (tile & Htile & Hg2). run Hg2.
  assert (Hnz : tile ≠ 0).
  { intros ->. apply Hfull. now apply list_elem_of_lookup_2 in Htile. }
  rewrite decide_False by exact Hnz. cbn [GameLogic.look_backward].
  destruct (decide _) as [Hneg|Hge]; [reflexivity|].
  destruct (look_back_cell _ _ _ i pos Hget Hpos) as [_ Hback].
  destruct Hback as (next_pos & Hnp & Hadj); [lia|].
  replace (Z.to_nat (Z.of_nat i - Z.of_nat (GameBoard.size b)))
    with (i - GameBoard.size b)%nat by lia.
  run (getitem_lookup _ _ _ Hnp).
  assert (Hn : (next_pos < length (GameBoard.board b))%nat).
  { rewrite Forall_forall in Hbelow. rewrite Hwf. apply Hbelow.
    now apply list_elem_of_lookup_2 in Hnp. }
  destruct (getitem_lt (GameBoard.board b) next_pos Hn) as (target & Htarget & Hg3). run Hg3.
  assert (Hnz' : target ≠ 0).
  { intros ->. apply Hfull. now apply list_elem_of_lookup_2 in Htarget. }
  rewrite decide_False by exact Hnz'. run Hg2.
  rewrite decide_False; [reflexivity|]. intros ->. apply Hnz'.
  destruct (toward_edge_adjacent _ _ _ _ Hs Hadj) as [H|[H|[H|H]]].
  - apply (Hdiffer pos next_pos target); auto.
  - apply (Hdiffer pos next_pos target); auto.
  - apply (Hdiffer next_pos pos target); auto.
  - apply (Hdiffer next_pos pos target); auto.
Qed.

End NoMove.

(** X12: [is_game_over] returns on every well-formed board, true exactly
    when no cell is empty and no two cells adjacent in a row or a column
    hold the same value; and when it returns true no direction changes
    the grid: [_process_move] returns score 0 and the same cells for each
    of the four keys. *)
Theorem X12_game_over_means_no_move (b : GameBoard.t) :
  well_formed b →
  ∃ over,
    GameBoard.is_game_over b = Ok over
    ∧ (over = true ↔ terminal b)
    ∧ (over = true →
       ∀ direction, direction ∈ keys →
         GameLogic._process_move (logic_of b) direction = Ok (0, GameBoard.board b)).
Proof.
  intros Hwf. destruct (is_game_over_terminal b Hwf) as (over & Hrun & Hiff).
  exists over. split; [exact Hrun|]. split; [exact Hiff|].
  intros Hover direction Hkey. apply terminal_no_change; [exact Hwf| |exact Hkey].
  now apply Hiff.
Qed.

Lemma X12_game_over_means_no_move_witness :
  GameBoard.is_game_over stuck_board = Ok true
  ∧ GameLogic._process_move (logic_of stuck_board) "w" = Ok (0, [2; 4; 4; 2]).
Proof.
  destruct (X12_game_over_means_no_move stuck_board) as (over & Hrun & _ & Hmove).
  - reflexivity.
  - assert (E : over = true) by (vm_compute in Hrun; now injection Hrun as <-).
    subst over. split; [exact Hrun|]. apply Hmove; [reflexivity|].
    unfold keys. set_solver.
Defined.

(** ** GameBoard: a new board *)

Section NewBoard.

Implicit Types (cells : list Z) (b : GameBoard.t) (r : Random).

Lemma zeros_nonneg cells : 0 ≤ zeros cells.
Proof. unfold zeros. lia. Qed.

Lemma zeros_zero cells : zeros cells = 0 ↔ 0 ∉ cells.
Proof.
  unfold zeros. induction cells as [|c cells IH]; simpl.
  - split; [intros _; apply not_elem_of_nil|reflexivity].
  - rewrite filter_cons, not_elem_of_cons. destruct (decide (c = 0)) as [->|Hc]; simpl.
    + split; [lia|]. intros [C _]. congruence.
    + rewrite IH. split; [intros H; split; [congruence|exact H]|tauto].
Qed.

Lemma zeros_replicate (n : nat) : zeros (replicate n 0) = Z.of_nat n.
Proof.
  unfold zeros. induction n as [|n IH]; [reflexivity|].
  cbn [replicate]. rewrite filter_cons, decide_True by reflexivity. simpl length. lia.
Qed.

(** [_add_random_tile] on a well-formed board: it places a tile exactly
    when there is an empty cell, which then is one fewer, and the tile is
    a 2 or a 4. *)
Lemma add_random_tile_zeros (P : Z → Prop) b r :
  well_formed b → P 2 → P 4 →
  ∃ placed b' r',
    GameBoard._add_random_tile b r = (Ok (placed, b'), r')
    ∧ well_formed b' ∧ GameBoard.size b' = GameBoard.size b
    ∧ zeros (GameBoard.board b') = zeros (GameBoard.board b) - (if placed then 1 else 0)
    ∧ (placed = false ↔ zeros (GameBoard.board b) = 0)
    ∧ (Forall P (GameBoard.board b) → Forall P (GameBoard.board b')).
Proof.
  intros Hwf P2 P4. rewrite add_random_tile_run by exact Hwf.
  destruct (empty_indices (GameBoard.board b) !! _) as [position|] eqn:Hpos.
  - assert (Hzero : GameBoard.board b !! position = Some 0).
    { apply empty_indices_spec. now apply list_elem_of_lookup_2 in Hpos. }
    eexists true, _, _. split; [reflexivity|]. cbn [GameBoard.set_board GameBoard.board
      GameBoard.size].
    split; [unfold well_formed; simpl; now rewrite length_insert|]. split; [reflexivity|].
    split; [|split].
    + rewrite (zeros_insert _ _ 0 _ Hzero). rewrite decide_True by reflexivity.
      pose proof (new_tile_positive (fraction (advance r))).
      rewrite decide_False by lia. lia.
    + split; [discriminate|]. intros H. apply zeros_zero in H. exfalso. apply H.
      now apply list_elem_of_lookup_2 in Hzero.
    + intros H. apply Forall_insert; [exact H|]. unfold new_tile.
      destruct (Qlt_le_dec _ _); assumption.
  - exists false, b, r. split; [reflexivity|]. split; [exact Hwf|]. split; [reflexivity|].
    split; [lia|]. split; [|tauto]. split; [|reflexivity]. intros _.
    apply zeros_zero, empty_indices_nil.
    destruct (empty_indices (GameBoard.board b)) as [|e es]; [reflexivity|].
    apply lookup_ge_None in Hpos.
    pose proof (Nat.mod_upper_bound (N.to_nat (r O)) (length (e :: es))) as Hm.
    simpl in *. lia.
Qed.

(** [_initialize_board] clears the board and places two tiles, or as many
    as there are cells. *)
Lemma initialize_board_tiles b r :
  ∃ b' r',
    GameBoard._initialize_board b r = (Ok b', r')
    ∧ GameBoard.size b' = GameBoard.size b
    ∧ well_formed b'
    ∧ Forall (λ v, v = 0 ∨ v = 2 ∨ v = 4) (GameBoard.board b')
    ∧ zeros (GameBoard.board b')
      = Z.of_nat (GameBoard.total_cells b) - Z.min 2 (Z.of_nat (GameBoard.total_cells b)).
Proof.
  unfold GameBoard._initialize_board.
  set (b0 := GameBoard.set_board _ _).
  assert (H0 : well_formed b0).
  { unfold well_formed, b0. simpl. now rewrite length_replicate. }
  assert (Z0 : zeros (GameBoard.board b0) = Z.of_nat (GameBoard.total_cells b)).
  { unfold b0. simpl. apply zeros_replicate. }
  assert (P0 : Forall (λ v, v = 0 ∨ v = 2 ∨ v = 4) (GameBoard.board b0)).
  { unfold b0. simpl. apply Forall_replicate. now left. }
  destruct (add_random_tile_zeros (λ v, v = 0 ∨ v = 2 ∨ v = 4) b0 r H0)
    as (p1 & b1 & r1 & Hrun1 & H1 & Hs1 & Z1 & E1 & P1); [tauto|tauto|].
  destruct (add_random_tile_zeros (λ v, v = 0 ∨ v = 2 ∨ v = 4) b1 r1 H1)
    as (p2 & b2 & r2 & Hrun2 & H2 & Hs2 & Z2 & E2 & P2); [tauto|tauto|].
  exists b2, r2. unfold_monad. rewrite Hrun1, Hrun2. split; [reflexivity|].
  split; [now rewrite Hs2, Hs1|]. split; [exact H2|]. split; [apply P2, P1, P0|].
  rewrite Z2, Z1, Z0. rewrite Z1, Z0 in E2. rewrite Z0 in E1.
  assert (N1 : if p1 then Z.of_nat (GameBoard.total_cells b) ≠ 0
               else Z.of_nat (GameBoard.total_cells b) = 0).
  { destruct p1; [intros C; apply E1 in C; discriminate C|now apply E1]. }
  assert (N2 : if p2 then Z.of_nat (GameBoard.total_cells b) - (if p1 then 1 else 0) ≠ 0
               else Z.of_nat (GameBoard.total_cells b) - (if p1 then 1 else 0) = 0).
  { destruct p2; [intros C; apply E2 in C; discriminate C|now apply E2]. }
  destruct p1, p2; lia.
Qed.

End NewBoard.

(** X13: the constructor of a board of side [size] returns a board of
    that side with [size * size] cells, each 0, 2 or 4, of which exactly
    two hold a tile; a board of side 1 gets one tile (the second call of
    [_add_random_tile] finds no empty cell) and a board of side 0 none. *)
Theorem X13_new_board_has_two_tiles (size : nat) (r : Random) :
  ∃ b r',
    GameBoard.__init__ size r = (Ok b, r')
    ∧ GameBoard.size b = size
    ∧ length (GameBoard.board b) = (size * size)%nat
    ∧ Forall (λ v, v = 0 ∨ v = 2 ∨ v = 4) (GameBoard.board b)
    ∧ zeros (GameBoard.board b)
      = Z.of_nat (size * size) - Z.min 2 (Z.of_nat (size * size)).
Proof.
  unfold GameBoard.__init__.
  destruct (initialize_board_tiles (GameBoard.Build size (replicate (size * size) 0)) r)
    as (b & r' & Hrun & Hsize & Hwf & Htiles & Hzeros).
  exists b, r'. split; [exact Hrun|]. simpl in Hsize. split; [exact Hsize|].
  split; [|split; [exact Htiles|exact Hzeros]].
  unfold well_formed, GameBoard.total_cells in Hwf. now rewrite Hwf, Hsize.
Qed.

(** ** GameHistory: pushes and undo together *)

(** X14: two pushes followed by [undo] are a round trip.  If [add_state]
    stores grid [A] and then a different grid [B], without reaching the
    bound, then [undo] returns [A] with its score and leaves the history
    as it was before the two pushes. *)
Theorem X14_push_push_undo (h : GameHistory.t) (A B : list Z) (sA sB : Z) :
  in_step h →
  last (GameHistory.board_history h) ≠ Some A → A ≠ B →
  (length (GameHistory.board_history h) + 2 ≤ GameHistory.max_history h + 1)%nat →
  GameHistory.undo
    (snd (GameHistory.add_state B sB (snd (GameHistory.add_state A sA h))))
  = (Ok (A, sA), h).
Proof.
  intros Hstep HA HAB Hroom. destruct h as [m boards scores]. simpl in *.
  rewrite (add_state_stores _ A sA) by exact HA. cbn [snd]. unfold stored_after.
  cbn [GameHistory.board_history GameHistory.score_history GameHistory.max_history].
  rewrite decide_False by (rewrite length_app; simpl; lia).
  rewrite (add_state_stores _ B sB).
  2:{ cbn [GameHistory.board_history]. rewrite last_snoc. congruence. }
  cbn [snd]. unfold stored_after.
  cbn [GameHistory.board_history GameHistory.score_history GameHistory.max_history].
  rewrite decide_False by (rewrite !length_app; simpl; lia).
  rewrite <- !app_assoc. simpl. apply undo_two. exact Hstep.
Qed.

Lemma X14_push_push_undo_witness :
  GameHistory.undo
    (snd (GameHistory.add_state [4; 2; 0; 0] 4
            (snd (GameHistory.add_state [2; 2; 0; 0] 0 (GameHistory.__init__ 5)))))
  = (Ok ([2; 2; 0; 0], 0), GameHistory.__init__ 5).
Proof.
  apply (X14_push_push_undo (GameHistory.__init__ 5) [2; 2; 0; 0] [4; 2; 0; 0] 0 4).
  - reflexivity.
  - discriminate.
  - discriminate.
  - simpl. lia.
Defined.

Section NoRepeat.

Implicit Types (grids : list (list Z)).

Lemma no_repeat_snoc grids (x : list Z) :
  no_repeat grids → last grids ≠ Some x → no_repeat (grids ++ [x]).
Proof.
  intros H Hlast i a c Ha Hc.
  destruct (decide (S i < length grids)%nat) as [Hlt|Hge].
  - rewrite lookup_app_l in Ha, Hc by lia. now apply (H i).
  - assert (Hi : S i = length grids).
    { apply lookup_lt_Some in Hc. rewrite length_app in Hc. simpl in Hc. lia. }
    rewrite lookup_app_l in Ha by lia.
    rewrite lookup_app_r, Hi, Nat.sub_diag in Hc by lia. injection Hc as <-.
    intros ->. apply Hlast. rewrite last_lookup. rewrite <- Hi. exact Ha.
Qed.

Lemma no_repeat_drop grids (n : nat) : no_repeat grids → no_repeat (drop n grids).
Proof.
  intros H i a c Ha Hc. rewrite lookup_drop in Ha, Hc.
  apply (H (n + i)%nat); [exact Ha|]. now rewrite <- Nat.add_succ_r.
Qed.

Lemma no_repeat_prefix grids (k : list (list Z)) : no_repeat (grids ++ k) → no_repeat grids.
Proof.
  intros H i a c Ha Hc. apply (H i).
  - rewrite lookup_app_l; [exact Ha|]. now apply lookup_lt_Some in Ha.
  - rewrite lookup_app_l; [exact Hc|]. now apply lookup_lt_Some in Hc.
Qed.

End NoRepeat.

(** X15: the history never holds the same grid twice in a row: a new
    history does not, and [add_state] and [undo] keep it so. *)
Theorem X15_no_consecutive_duplicates (h : GameHistory.t) (board : list Z) (score : Z) :
  in_step h → no_repeat (GameHistory.board_history h) →
  no_repeat (GameHistory.board_history (snd (GameHistory.add_state board score h)))
  ∧ no_repeat (GameHistory.board_history (snd (GameHistory.undo h)))
  ∧ no_repeat (GameHistory.board_history (GameHistory.__init__ (GameHistory.max_history h))).
Proof.
  intros Hstep H. split; [|split].
  - rewrite add_state_cases. cbn [snd]. destruct (decide _) as [E|E]; [exact H|].
    unfold stored_after. destruct (decide _); cbn [GameHistory.board_history].
    + apply no_repeat_drop. now apply no_repeat_snoc.
    + now apply no_repeat_snoc.
  - destruct (le_lt_dec 2 (length (GameHistory.board_history h))) as [L|L].
    + destruct (undo_long h Hstep L) as (boards & ? & ? & ? & ? & ? & Hb & _ & Hrun).
      rewrite Hrun. cbn [snd GameHistory.board_history]. rewrite Hb in H.
      now apply no_repeat_prefix in H.
    + now rewrite undo_short.
  - intros i x y Hx. discriminate Hx.
Qed.

Lemma X15_no_consecutive_duplicates_witness :
  no_repeat (GameHistory.board_history
               (snd (GameHistory.add_state [2; 2; 0; 0] 7 (Game2048.history session_started)))).
Proof.
  apply (X15_no_consecutive_duplicates (Game2048.history session_started) [2; 2; 0; 0] 7).
  - reflexivity.
  - intros i x y Hx Hy. destruct i; discriminate Hy.
Defined.

(** ** Game2048: what a move does to the session *)

Section Session.

Implicit Types (g : Game2048.t) (b : GameBoard.t) (r : Random).

(** [make_move] of the game logic keeps the cells tiles. *)
Lemma logic_make_move_tiles b (direction : string) r gain moved b' r' :
  well_formed b → Forall is_tile (GameBoard.board b) →
  GameLogic.make_move (logic_of b) direction r = (Ok (gain, moved, logic_of b'), r') →
  Forall is_tile (GameBoard.board b').
Proof.
  intros Hwf Htiles Hrun.
  destruct (decide (direction ∈ keys)) as [Hkey|Hkey].
  - destruct (make_move_outcome b direction r Hwf Hkey)
      as (score & cells & Hmove & Hsame & Hdiff).
    destruct (decide (cells = GameBoard.board b)) as [E|E].
    + rewrite (Hsame E) in Hrun. injection Hrun as _ _ Hb _. now subst b'.
    + destruct (Hdiff E) as (position & Hzero & Hrun'). rewrite Hrun' in Hrun.
      injection Hrun as _ _ Hb _. subst b'. simpl.
      apply Forall_insert; [now apply (process_move_tiles b direction score)|].
      unfold new_tile. destruct (Qlt_le_dec _ _); right.
      * exists 1%nat. split; [lia|reflexivity].
      * exists 2%nat. split; [lia|reflexivity].
  - unfold GameLogic.make_move in Hrun.
    rewrite (any_other_key _ _ Hkey) in Hrun. injection Hrun as _ _ Hb _.
    now subst b'.
Qed.

(** [make_move] of a sound session in play, written out: the history
    gets the position before the move, the board is what the game logic
    leaves, and score, best score, stuck counter and state follow from
    whether the grid changed. *)
Lemma make_move_shape g (direction : string) r :
  sound g → Game2048.state g = PLAYING →
  ∃ gain moved b' r' over,
    GameLogic.make_move (logic_of (Game2048.board g)) direction r
    = (Ok (gain, moved, logic_of b'), r')
    ∧ GameBoard.size b' = GameBoard.size (Game2048.board g)
    ∧ grid_of (GameBoard.size b') (GameBoard.board b')
    ∧ 0 ≤ gain
    ∧ GameBoard.is_game_over b' = Ok over
    ∧ (over = true ↔ terminal b')
    ∧ Game2048.make_move direction g r
      = (Ok (moved,
             Game2048.Build (Game2048.BOARD_SIZE g) (Game2048.MAX_HISTORY g) b'
               (Game2048.move_direction g)
               (snd (GameHistory.add_state (GameBoard.board (Game2048.board g))
                       (Game2048.score g) (Game2048.history g)))
               (if decide (Game2048.current_player g = Some AIPlayer)
                then (if moved then 0 else Game2048.stuck_counter g + 1)
                else Game2048.stuck_counter g)
               (if moved && over then GAME_OVER else PLAYING)
               (Game2048.current_player g)
               (if moved then Game2048.score g + gain else Game2048.score g)
               (if moved then Z.max (Game2048.best_score g) (Game2048.score g + gain)
                else Game2048.best_score g)),
         r').
Proof.
  intros Hsound Hstate. unfold Game2048.make_move.
  rewrite decide_False by (intros C; now apply C).
  destruct (push_sound g Hsound) as (h' & Hpush & Hsound').
  unfold Game2048.on_history. rewrite Hpush. unfold_monad. cbn [snd].
  destruct Hsound' as (Hgrid & Hmd & _).
  rewrite (game_logic_of _ Hmd).
  destruct g as [bs mh b md h sc st cp score best]. simpl in *. subst st.
  destruct (logic_make_move b direction r Hgrid)
    as (gain & moved & b' & r' & Hmove & Hsize & Hgrid' & Hgain & _).
  destruct (is_game_over_terminal b' (proj1 Hgrid')) as (over & Hover & Hiff).
  exists gain, moved, b', r', over.
  split; [exact Hmove|]. split; [exact Hsize|]. split; [exact Hgrid'|].
  split; [exact Hgain|]. split; [exact Hover|]. split; [exact Hiff|].
  rewrite Hmove. cbn [GameLogic.board logic_of].
  unfold Game2048.set_board, Game2048.set_score, Game2048.set_stuck_counter,
    Game2048.set_best_score, Game2048.set_state. simpl.
  destruct moved; simpl.
  - destruct (decide (cp = Some AIPlayer)); simpl;
      destruct (decide (best < score + gain)); simpl; rewrite Hover;
      destruct over; simpl; repeat f_equal; lia.
  - destruct (decide (cp = Some AIPlayer)); reflexivity.
Qed.

End Session.

Section SessionStart.

Implicit Types (g : Game2048.t) (b : GameBoard.t) (r : Random).

(** [start_game], written out. *)
Lemma start_game_shape g (is_human : bool) r :
  ∃ b' r',
    GameBoard._initialize_board (Game2048.board g) r = (Ok b', r')
    ∧ Game2048.start_game is_human g r
      = (Ok (Game2048.Build (Game2048.BOARD_SIZE g) (Game2048.MAX_HISTORY g) b'
               (Game2048.move_direction g)
               (GameHistory.Build (Game2048.MAX_HISTORY g) [GameBoard.board b'] [0])
               (if is_human then Game2048.stuck_counter g else 0)
               PLAYING
               (Some (if is_human then HumanPlayer else AIPlayer))
               0
               (Game2048.best_score g)),
         r').
Proof.
  destruct (initialize_board_tiles (Game2048.board g) r) as (b' & r' & Hrun & _).
  exists b', r'. split; [exact Hrun|].
  unfold Game2048.start_game. unfold_monad.
  destruct g as [bs mh b md h sc st cp score best]. simpl in *.
  rewrite Hrun. unfold Game2048.on_history, Game2048.set_history, Game2048.set_board,
    Game2048.set_stuck_counter. simpl.
  rewrite add_state_stores by discriminate. unfold stored_after. simpl.
  destruct (decide (mh + 1 < 1)%nat) as [L|_]; [lia|].
  destruct is_human; reflexivity.
Qed.

End SessionStart.

(** X16: [start_game] on any session returns a session in play with score
    0 and the best score it had; the board has the side it had, cells 0,
    2 or 4, and exactly two tiles (as many as fit on a side below 2); the
    history holds this position alone, with score 0, so that [undo_move]
    right after it returns false; an automatic player starts with stuck
    counter 0. *)
Theorem X16_start_game (g : Game2048.t) (is_human : bool) (r : Random) :
  ∃ g' r',
    Game2048.start_game is_human g r = (Ok g', r')
    ∧ Game2048.state g' = PLAYING
    ∧ Game2048.score g' = 0
    ∧ Game2048.best_score g' = Game2048.best_score g
    ∧ Game2048.current_player g' = Some (if is_human then HumanPlayer else AIPlayer)
    ∧ (is_human = false → Game2048.stuck_counter g' = 0)
    ∧ GameBoard.size (Game2048.board g') = GameBoard.size (Game2048.board g)
    ∧ well_formed (Game2048.board g')
    ∧ Forall (λ v, v = 0 ∨ v = 2 ∨ v = 4) (GameBoard.board (Game2048.board g'))
    ∧ zeros (GameBoard.board (Game2048.board g'))
      = Z.of_nat (GameBoard.total_cells (Game2048.board g))
        - Z.min 2 (Z.of_nat (GameBoard.total_cells (Game2048.board g)))
    ∧ GameHistory.board_history (Game2048.history g') = [GameBoard.board (Game2048.board g')]
    ∧ GameHistory.score_history (Game2048.history g') = [0]
    ∧ Game2048.undo_move g' = (Ok false, g').
Proof.
  destruct (start_game_shape g is_human r) as (b' & r' & Hinit & Hrun).
  destruct (initialize_board_tiles (Game2048.board g) r)
    as (b0 & r0 & Hinit0 & Hsize & Hwf & Htiles & Hzeros).
  rewrite Hinit in Hinit0. injection Hinit0 as <- <-.
  eexists _, r'. split; [exact Hrun|]. cbn.
  repeat (split; [first [reflexivity|assumption|now intros ->]|]).
  reflexivity.
Qed.

(** X17: the first move of a game cannot be undone.  In a reachable
    session, after [start_game] and one [make_move] in any direction,
    whether it changed the grid or not, the history still holds the
    starting position alone (the push before the move repeats it), and
    [undo_move] returns false and leaves the session as the move made it. *)
Theorem X17_first_move_cannot_be_undone (g g1 g2 : Game2048.t) (is_human moved : bool)
    (direction : string) (r r1 r2 : Random) :
  reachable g →
  Game2048.start_game is_human g r = (Ok g1, r1) →
  Game2048.make_move direction g1 r1 = (Ok (moved, g2), r2) →
  GameHistory.board_history (Game2048.history g2) = [GameBoard.board (Game2048.board g1)]
  ∧ Game2048.undo_move g2 = (Ok false, g2).
Proof.
  intros Hreach Hstart Hmove.
  pose proof (reachable_sound g Hreach) as Hsound.
  destruct (session_start_game g is_human r Hsound) as (g1' & r1' & Hstart' & Hsound1 & _).
  rewrite Hstart in Hstart'. injection Hstart' as <- <-.
  destruct (start_game_shape g is_human r) as (b1 & r1' & _ & Hshape).
  rewrite Hstart in Hshape. injection Hshape as -> ->.
  destruct (make_move_shape _ direction r1' Hsound1 eq_refl)
    as (gain & moved' & b' & r' & over & _ & _ & _ & _ & _ & _ & Hrun).
  rewrite Hmove in Hrun. injection Hrun as -> -> ->.
  cbn [Game2048.board Game2048.score Game2048.history] in *.
  rewrite add_state_duplicate by reflexivity. split; reflexivity.
Qed.

Lemma X17_first_move_cannot_be_undone_witness :
  Game2048.undo_move session_moved = (Ok false, session_moved).
Proof.
  assert (Hnew : reachable session_new).
  { destruct (Game2048.__init__ 2 5 0 zero_source) as [x r'] eqn:E.
    assert (Hx : x = Ok session_new).
    { change x with (fst (x, r')). rewrite <- E. vm_compute. reflexivity. }
    subst x. eapply reach_init. exact E. }
  destruct (Game2048.start_game true session_new zero_source) as [x1 r1] eqn:E1.
  assert (Hx1 : x1 = Ok session_started).
  { change x1 with (fst (x1, r1)). rewrite <- E1. vm_compute. reflexivity. }
  subst x1.
  destruct (Game2048.make_move "a" session_started r1) as [x2 r2] eqn:E2.
  assert (Hx2 : x2 = Ok (true, session_moved)).
  { change x2 with (fst (x2, r2)). rewrite <- E2.
    assert (Hr : r1 = snd (Game2048.start_game true session_new zero_source))
      by now rewrite E1.
    rewrite Hr. vm_compute. reflexivity. }
  subst x2.
  apply (X17_first_move_cannot_be_undone session_new session_started session_moved
           true true "a" zero_source r1 r2 Hnew E1 E2).
Defined.

(** ** GameLogic: when the slide and merge step changes the grid *)

Section Legal.

Variables (b : GameBoard.t) (direction : string) (order : list nat).
Hypothesis Hwf : well_formed b.
Hypothesis Hget :
  dict_get (MoveDirection.directions (MoveDirection.__init__ (GameBoard.size b))) direction
  = Some order.


Lemma step_cases (i : nat) :
  (i < GameBoard.total_cells b)%nat →
  (GameLogic.process_position (GameBoard.size b) order (GameBoard.board b, 0) i
   = Ok (GameBoard.board b, 0) ∧ inert b direction order i)
  ∨ (∃ c c' v, toward_edge (GameBoard.size b) direction c c'
               ∧ GameBoard.board b !! c = Some v ∧ v ≠ 0 ∧ GameBoard.board b !! c' = Some 0)
  ∨ (∃ c c' v, toward_edge (GameBoard.size b) direction c c'
               ∧ GameBoard.board b !! c = Some v ∧ v ≠ 0 ∧ GameBoard.board b !! c' = Some v
               ∧ ∃ cells1 score1,
                   GameLogic.process_position (GameBoard.size b) order (GameBoard.board b, 0) i
                   = Ok (cells1, score1)
                   ∧ zeros cells1 = zeros (GameBoard.board b) + 1).
Proof.
  intros Hi. unfold GameBoard.total_cells in Hi.
  pose proof (directions_order _ _ _ Hget) as [Hlen Hbelow].
  assert (Hs : GameBoard.size b ≠ O) by lia.
  unfold GameLogic.process_position.
  destruct (getitem_lt order i) as (pos & Hpos & Hg1); [lia|]. run Hg1.
  assert (Hp : (pos < length (GameBoard.board b))%nat).
  { rewrite Forall_forall in Hbelow. rewrite Hwf. apply Hbelow.
    now apply list_elem_of_lookup_2 in Hpos. }
  destruct (getitem_lt (GameBoard.board b) pos Hp) as (tile & Htile & Hg2). run Hg2.
  destruct (look_back_cell _ _ _ i pos Hget Hpos) as [Hedge Hback].
  destruct (decide (tile = 0)) as [->|Hnz].
  { left. split; [reflexivity|]. intros c c' v Hc _ Hv Hvnz.
    rewrite Hpos in Hc. injection Hc as <-. rewrite Htile in Hv. now injection Hv as <-. }
  cbn [GameLogic.look_backward].
  destruct (decide _) as [Hneg|Hge].
  { left. split; [reflexivity|]. intros c c' v Hc Hadj Hv Hvnz [H|H].
    all: rewrite Hpos in Hc; injection Hc as <-.
    all: pose proof (edge_has_no_neighbour _ _ _ _ Hs (Hedge ltac:(lia)) Hadj) as Hout.
    all: apply lookup_lt_Some in H; unfold well_formed, GameBoard.total_cells in Hwf; lia. }
  destruct Hback as (next_pos & Hnp & Hadj); [lia|].
  replace (Z.to_nat (Z.of_nat i - Z.of_nat (GameBoard.size b)))
    with (i - GameBoard.size b)%nat by lia.
  run (getitem_lookup _ _ _ Hnp).
  assert (Hn : (next_pos < length (GameBoard.board b))%nat).
  { rewrite Forall_forall in Hbelow. rewrite Hwf. apply Hbelow.
    now apply list_elem_of_lookup_2 in Hnp. }
  destruct (getitem_lt (GameBoard.board b) next_pos Hn) as (target & Htarget & Hg3). run Hg3.
  destruct (decide (target = 0)) as [->|Hnz'].
  { right. left. exists pos, next_pos, tile. repeat split; assumption. }
  run Hg2.
  destruct (decide (tile = target)) as [<-|Hd].
  - right. right. exists pos, next_pos, tile. repeat (split; [assumption|]).
    assert (Hne : pos ≠ next_pos).
    { intros E. rewrite <- E in Hnp.
      pose proof (NoDup_lookup order _ _ _ (directions_NoDup _ _ _ Hget) Hpos Hnp). lia. }
    rewrite !setitem_lt by (rewrite ?length_insert; lia). unfold_monad.
    rewrite (getitem_lookup _ next_pos (2 * tile)).
    2:{ rewrite list_lookup_insert_ne by exact Hne. now apply list_lookup_insert_eq. }
    eexists _, _. split; [reflexivity|].
    assert (Hpos' : <[next_pos := 2 * tile]> (GameBoard.board b) !! pos = Some tile)
      by now rewrite list_lookup_insert_ne.
    rewrite (zeros_insert _ pos tile 0 Hpos'), (zeros_insert _ next_pos tile (2 * tile) Htarget).
    destruct (decide (tile = 0)); [contradiction|].
    destruct (decide (0 = 0)); [|contradiction].
    destruct (decide (2 * tile = 0)); lia.
  - left. split; [reflexivity|]. intros c c' v Hc Hadj' Hv Hvnz.
    rewrite Hpos in Hc. injection Hc as <-. rewrite Htile in Hv. injection Hv as <-.
    assert (c' = next_pos) as -> by (eapply toward_edge_unique; eassumption).
    rewrite Htarget. intros [[= E]|[= E]]; congruence.
Qed.


Lemma loop_zeros (indices : list nat) cells (score : Z) cells' score' :
  for_each (GameLogic.process_position (GameBoard.size b) order) (cells, score) indices
  = Ok (cells', score') →
  zeros cells ≤ zeros cells'.
Proof.
  intros Hrun.
  destruct (decide (GameBoard.size b = O)) as [Z0|Z0].
  { pose proof (directions_order _ _ _ Hget) as [Hlen _]. rewrite Z0 in Hlen.
    destruct order; [|discriminate Hlen].
    destruct indices as [|i indices]; cbn in Hrun; [injection Hrun as <- <-; lia|].
    discriminate Hrun. }
  revert Hrun.
  apply (process_loop_rule (GameBoard.size b) order ltac:(lia)
           (directions_NoDup _ _ _ Hget) (λ cs _, zeros cells ≤ zeros cs)); [| |lia].
  - intros cs sc pos next_pos tile Hne H0 Ht Hnz H.
    assert (Hpos : <[next_pos := tile]> cs !! pos = Some tile)
      by now rewrite list_lookup_insert_ne.
    rewrite (zeros_insert _ pos tile 0 Hpos), (zeros_insert _ next_pos 0 tile H0).
    destruct (decide (tile = 0)); [contradiction|].
    destruct (decide (0 = 0)); [lia|contradiction].
  - intros cs sc pos next_pos tile Hne H0 Ht Hnz H.
    assert (Hpos : <[next_pos := 2 * tile]> cs !! pos = Some tile)
      by now rewrite list_lookup_insert_ne.
    rewrite (zeros_insert _ pos tile 0 Hpos), (zeros_insert _ next_pos tile (2 * tile) H0).
    destruct (decide (tile = 0)); [contradiction|].
    destruct (decide (0 = 0)); [|contradiction].
    destruct (decide (2 * tile = 0)); lia.
Qed.

Lemma loop_cases (indices : list nat) :
  Forall (λ i, i < GameBoard.total_cells b)%nat indices →
  (for_each (GameLogic.process_position (GameBoard.size b) order) (GameBoard.board b, 0) indices
   = Ok (GameBoard.board b, 0) ∧ Forall (inert b direction order) indices)
  ∨ (∃ c c' v, toward_edge (GameBoard.size b) direction c c'
               ∧ GameBoard.board b !! c = Some v ∧ v ≠ 0 ∧ GameBoard.board b !! c' = Some 0)
  ∨ (∃ c c' v, toward_edge (GameBoard.size b) direction c c'
               ∧ GameBoard.board b !! c = Some v ∧ v ≠ 0 ∧ GameBoard.board b !! c' = Some v
               ∧ ∀ cells' score',
                   for_each (GameLogic.process_position (GameBoard.size b) order)
                     (GameBoard.board b, 0) indices = Ok (cells', score') →
                   zeros (GameBoard.board b) < zeros cells').
Proof.
  induction indices as [|i indices IH]; intros Hall.
  - left. split; [reflexivity|constructor].
  - apply Forall_cons in Hall. destruct Hall as [Hi Hall].
    destruct (step_cases i Hi) as [[Hstep Hinert]|[Hslide|Hmerge]].
    + destruct (IH Hall) as [[Hrun Hrest]|[Hslide|Hmerge]].
      * left. split; [|now constructor]. cbn [for_each]. now run Hstep.
      * right. now left.
      * right. right. destruct Hmerge as (c & c' & v & H1 & H2 & H3 & H4 & H5).
        exists c, c', v. repeat (split; [assumption|]).
        intros cells' score'. cbn [for_each]. run Hstep. apply H5.
    + right. now left.
    + right. right.
      destruct Hmerge as (c & c' & v & H1 & H2 & H3 & H4 & cells1 & score1 & Hstep & Hz).
      exists c, c', v. repeat (split; [assumption|]).
      intros cells' score'. cbn [for_each]. run Hstep. intros Hrun.
      apply loop_zeros in Hrun. lia.
Qed.

End Legal.

Lemma legal_move (b : GameBoard.t) (direction : string) :
  well_formed b → direction ∈ keys →
  (changes b direction ↔ can_move (GameBoard.size b) direction (GameBoard.board b))
  ∧ (¬ changes b direction →
     GameLogic._process_move (logic_of b) direction = Ok (0, GameBoard.board b)).
Proof.
  intros Hwf Hkey.
  destruct (keys_directions (GameBoard.size b) direction Hkey) as (order & Hget & Hidx).
  destruct (process_move_ok b direction Hwf Hkey) as (score & cells & Hrun & Hlen & _).
  assert (Hloop : ∃ score0,
    for_each (GameLogic.process_position (GameBoard.size b) order) (GameBoard.board b, 0)
      (range (GameBoard.total_cells b)) = Ok (cells, score0)).
  { revert Hrun. unfold GameLogic._process_move, logic_of.
    cbn [GameLogic.board GameLogic.move_direction]. rewrite Hidx. unfold_monad.
    destruct (for_each _ _ _) as [[cells1 score1]| |]; try discriminate.
    intros [= <- <-]. eauto. }
  destruct Hloop as (score0 & Hloop).
  destruct (loop_cases b direction order Hwf Hget (range (GameBoard.total_cells b)))
    as [[Hfix Hinert]|[Hslide|Hmerge]].
  { apply Forall_forall. intros i Hi. apply elem_of_seq in Hi. lia. }
  - rewrite Hfix in Hloop. injection Hloop as <- <-.
    assert (Hsame : GameLogic._process_move (logic_of b) direction = Ok (0, GameBoard.board b)).
    { unfold GameLogic._process_move, logic_of.
      cbn [GameLogic.board GameLogic.move_direction]. rewrite Hidx. now run Hfix. }
    assert (Hno : ¬ changes b direction).
    { intros (s & cs & Hr & Hne). rewrite Hsame in Hr. injection Hr as <- <-. now apply Hne. }
    split; [|intros _; exact Hsame]. split; [intros H; contradiction|].
    intros (c & c' & v & Hadj & Hv & Hnz & Hnext). exfalso.
    assert (Hin : c ∈ order).
    { rewrite (orders_permutation _ _ _ Hget). apply elem_of_seq.
      apply lookup_lt_Some in Hv. unfold well_formed, GameBoard.total_cells in Hwf. lia. }
    apply list_elem_of_lookup in Hin. destruct Hin as [p Hp].
    rewrite Forall_forall in Hinert.
    apply (Hinert p) with (c := c) (c' := c') (v := v); try assumption.
    apply elem_of_seq. apply lookup_lt_Some in Hp.
    pose proof (directions_order _ _ _ Hget) as [Hl _].
    unfold GameBoard.total_cells. lia.
  - destruct Hslide as (c & c' & v & Hadj & Hv & Hnz & Hzero).
    assert (Hyes : changes b direction).
    { exists score, cells. split; [exact Hrun|]. intros E.
      apply Hnz. apply (process_move_packed b direction score cells Hwf Hkey Hrun c c' v Hadj);
        now rewrite E. }
    split; [|intros H; contradiction]. split; [|intros _; exact Hyes].
    intros _. exists c, c', v. repeat (split; [assumption|]). now left.
  - destruct Hmerge as (c & c' & v & Hadj & Hv & Hnz & Hsame & Hz).
    assert (Hyes : changes b direction).
    { exists score, cells. split; [exact Hrun|]. intros E.
      specialize (Hz cells score0 Hloop). rewrite E in Hz. lia. }
    split; [|intros H; contradiction]. split; [|intros _; exact Hyes].
    intros _. exists c, c', v. repeat (split; [assumption|]). now right.
Qed.

(** ** GameBoard: a position that is not over has a move *)

Section Stuck.

Lemma first_flip (P : nat → Prop) (Hdec : ∀ k, Decision (P k)) (d : nat) :
  ∀ a, P a → ¬ P (a + S d)%nat → ∃ k, (a ≤ k < a + S d)%nat ∧ P k ∧ ¬ P (S k).
Proof.
  induction d as [|d IH]; intros a Ha Hb.
  - exists a. split; [lia|]. split; [exact Ha|]. now replace (S a) with (a + 1)%nat by lia.
  - destruct (decide (P (S a))) as [Hyes|Hno].
    + destruct (IH (S a) Hyes) as (k & Hk & H1 & H2).
      { now replace (S a + S d)%nat with (a + S (S d))%nat by lia. }
      exists k. split; [lia|]. now split.
    + exists a. split; [lia|]. now split.
Qed.

(** In a line with a tile and an empty cell, a tile lies next to an empty
    cell. *)
Lemma neighbours_in_line (f : nat → Z) (n a e : nat) :
  (a < n)%nat → (e < n)%nat → f a ≠ 0 → f e = 0 →
  ∃ k, (S k < n)%nat ∧ ((f k ≠ 0 ∧ f (S k) = 0) ∨ (f k = 0 ∧ f (S k) ≠ 0)).
Proof.
  intros Ha He Hfa Hfe.
  destruct (lt_eq_lt_dec a e) as [[Hlt|Heq]|Hgt].
  - destruct (first_flip (λ k, f k ≠ 0) _ (e - a - 1) a Hfa) as (k & Hk & H1 & H2).
    { replace (a + S (e - a - 1))%nat with e by lia. intros C. now apply C. }
    exists k. split; [lia|]. left. split; [exact H1|].
    destruct (decide (f (S k) = 0)); [assumption|contradiction].
  - subst e. contradiction.
  - destruct (first_flip (λ k, f k = 0) _ (a - e - 1) e Hfe) as (k & Hk & H1 & H2).
    { replace (e + S (a - e - 1))%nat with a by lia. exact Hfa. }
    exists k. split; [lia|]. right. now split.
Qed.

Lemma line_has_empty (f : nat → Z) (n : nat) :
  (∃ k, (k < n)%nat ∧ f k = 0) ∨ (∀ k, (k < n)%nat → f k ≠ 0).
Proof.
  induction n as [|n [(k & Hk & H)|IH]].
  - right. intros k Hk. lia.
  - left. exists k. split; [lia|exact H].
  - destruct (decide (f n = 0)) as [H|H].
    + left. exists n. split; [lia|exact H].
    + right. intros k Hk. destruct (decide (k = n)) as [->|Hne]; [exact H|apply IH; lia].
Qed.

Lemma toward_edge_cases (size c c' : nat) :
  (toward_edge size "w" c c' ↔ (row size c' + 1)%nat = row size c ∧ col size c' = col size c)
  ∧ (toward_edge size "s" c c' ↔ row size c' = (row size c + 1)%nat ∧ col size c' = col size c)
  ∧ (toward_edge size "a" c c' ↔ row size c' = row size c ∧ (col size c' + 1)%nat = col size c)
  ∧ (toward_edge size "d" c c' ↔ row size c' = row size c ∧ col size c' = (col size c + 1)%nat).
Proof.
  unfold toward_edge.
  repeat (first [rewrite decide_True by reflexivity|rewrite decide_False by discriminate]).
  tauto.
Qed.

(** On a board with a tile and an empty cell, some tile has an empty cell
    beside it, above it or below it. *)
Lemma tile_beside_empty (b : GameBoard.t) (t e : nat) (v : Z) :
  well_formed b →
  GameBoard.board b !! t = Some v → v ≠ 0 → GameBoard.board b !! e = Some 0 →
  ∃ direction, direction ∈ keys
               ∧ can_move (GameBoard.size b) direction (GameBoard.board b).
Proof.
  intros Hwf Ht Hv He. set (size := GameBoard.size b).
  set (cell := λ c : nat, default 0 (GameBoard.board b !! c)).
  assert (Hlen : length (GameBoard.board b) = (size * size)%nat) by exact Hwf.
  assert (Htl : (t < size * size)%nat) by (apply lookup_lt_Some in Ht; lia).
  assert (Hel : (e < size * size)%nat) by (apply lookup_lt_Some in He; lia).
  assert (Hs : size ≠ O) by lia.
  assert (Hcell : ∀ k r, (k < size)%nat → (r < size)%nat →
            GameBoard.board b !! (k + r * size)%nat = Some (cell (k + r * size)%nat)).
  { intros k r Hk Hr. unfold cell.
    destruct (lookup_lt_is_Some_2 (GameBoard.board b) (k + r * size)%nat) as [x Hx]; [nia|].
    now rewrite Hx. }
  pose proof (position_row size t Htl) as Hrt.
  pose proof (position_row size e Hel) as Hre.
  pose proof (Nat.mod_upper_bound t size Hs) as Hct.
  pose proof (Nat.mod_upper_bound e size Hs) as Hce.
  assert (Et : t = (t mod size + (t / size) * size)%nat)
    by (pose proof (position_split size t Hs); lia).
  assert (Ee : e = (e mod size + (e / size) * size)%nat)
    by (pose proof (position_split size e Hs); lia).
  assert (Hcellt : cell t = v) by (unfold cell; now rewrite Ht).
  assert (Hcelle : cell e = 0) by (unfold cell; now rewrite He).
  (* two cells next to each other in a row *)
  assert (Hrow : ∀ r k, (r < size)%nat → (S k < size)%nat →
            (toward_edge size "d" (k + r * size) (S k + r * size))
            ∧ (toward_edge size "a" (S k + r * size) (k + r * size))).
  { intros r k Hr Hk.
    destruct (cell_at size k r) as [R1 C1]; [lia|].
    destruct (cell_at size (S k) r) as [R2 C2]; [lia|].
    destruct (toward_edge_cases size (k + r * size) (S k + r * size)) as (_ & _ & _ & D).
    destruct (toward_edge_cases size (S k + r * size) (k + r * size)) as (_ & _ & A & _).
    split; [apply D|apply A]; unfold row, col; rewrite R1, C1, R2, C2; lia. }
  (* two cells next to each other in a column *)
  assert (Hcol : ∀ k r, (k < size)%nat → (S r < size)%nat →
            (toward_edge size "s" (k + r * size) (k + S r * size))
            ∧ (toward_edge size "w" (k + S r * size) (k + r * size))).
  { intros k r Hk Hr.
    destruct (cell_at size k r) as [R1 C1]; [lia|].
    destruct (cell_at size k (S r)) as [R2 C2]; [lia|].
    destruct (toward_edge_cases size (k + r * size) (k + S r * size)) as (_ & S' & _ & _).
    destruct (toward_edge_cases size (k + S r * size) (k + r * size)) as (W & _ & _ & _).
    split; [apply S'|apply W]; unfold row, col; rewrite R1, C1, R2, C2; lia. }
  destruct (line_has_empty (λ k, cell (k + (t / size) * size)%nat) size)
    as [(k0 & Hk0 & Hzero)|Hfull].
  - destruct (neighbours_in_line (λ k, cell (k + (t / size) * size)%nat) size
                (t mod size) k0) as (k & Hk & [[H1 H2]|[H1 H2]]); try assumption.
    { cbn beta. rewrite <- Et. now rewrite Hcellt. }
    + exists "d". split; [unfold keys; repeat constructor|].
      exists (k + t / size * size)%nat, (S k + t / size * size)%nat, (cell (k + t / size * size)%nat).
      split; [now apply Hrow|]. split; [apply Hcell; lia|]. split; [exact H1|].
      left. rewrite Hcell by lia. now rewrite H2.
    + exists "a". split; [unfold keys; repeat constructor|].
      exists (S k + t / size * size)%nat, (k + t / size * size)%nat,
        (cell (S k + t / size * size)%nat).
      split; [now apply Hrow|]. split; [apply Hcell; lia|]. split; [exact H2|].
      left. rewrite Hcell by lia. now rewrite H1.
  - destruct (neighbours_in_line (λ r, cell (e mod size + r * size)%nat) size
                (t / size) (e / size)) as (r & Hr & [[H1 H2]|[H1 H2]]); try assumption.
    { apply Hfull. exact Hce. }
    { cbn beta. rewrite <- Ee. exact Hcelle. }
    + exists "s". split; [unfold keys; repeat constructor|].
      exists (e mod size + r * size)%nat, (e mod size + S r * size)%nat,
        (cell (e mod size + r * size)%nat).
      split; [now apply Hcol|]. split; [apply Hcell; lia|]. split; [exact H1|].
      left. rewrite Hcell by lia. now rewrite H2.
    + exists "w". split; [unfold keys; repeat constructor|].
      exists (e mod size + S r * size)%nat, (e mod size + r * size)%nat,
        (cell (e mod size + S r * size)%nat).
      split; [now apply Hcol|]. split; [apply Hcell; lia|]. split; [exact H2|].
      left. rewrite Hcell by lia. now rewrite H1.
Qed.


Lemma pair_at_dec (b : GameBoard.t) (i : nat) : {pair_at b i} + {¬ pair_at b i}.
Proof.
  unfold pair_at. destruct (GameBoard.board b !! i) as [x|] eqn:E.
  - destruct (decide ((i mod GameBoard.size b < GameBoard.size b - 1)%nat
                      ∧ GameBoard.board b !! (i + 1)%nat = Some x)) as [H1|H1].
    { left. exists x. split; [reflexivity|now left]. }
    destruct (decide ((i / GameBoard.size b < GameBoard.size b - 1)%nat
                      ∧ GameBoard.board b !! (i + GameBoard.size b)%nat = Some x)) as [H2|H2].
    { left. exists x. split; [reflexivity|now right]. }
    right. intros (y & [= <-] & [H|H]); contradiction.
  - right. intros (y & Hy & _). discriminate Hy.
Qed.

Lemma find_pair (b : GameBoard.t) (n : nat) :
  (∃ i, (i < n)%nat ∧ pair_at b i) ∨ (∀ i, (i < n)%nat → ¬ pair_at b i).
Proof.
  induction n as [|n [(i & Hi & H)|IH]].
  - right. intros i Hi. lia.
  - left. exists i. split; [lia|exact H].
  - destruct (pair_at_dec b n) as [H|H].
    + left. exists n. split; [lia|exact H].
    + right. intros i Hi. destruct (decide (i = n)) as [->|Hne]; [exact H|apply IH; lia].
Qed.

(** When [is_game_over] returns false, it has seen an empty cell or two
    equal neighbours. *)
Lemma not_over_reason (b : GameBoard.t) :
  well_formed b → GameBoard.is_game_over b = Ok false →
  0 ∈ GameBoard.board b ∨ ∃ i, pair_at b i.
Proof.
  intros Hwf. unfold GameBoard.is_game_over.
  destruct (bool_decide (0 ∈ GameBoard.board b)) eqn:Z0.
  { intros _. left. now apply bool_decide_eq_true in Z0. }
  intros Hrun. right.
  destruct (find_pair b (GameBoard.total_cells b)) as [(i & _ & H)|Hnone]; [now exists i|].
  exfalso.
  destruct (game_over_loop b 0 (GameBoard.total_cells b) Hwf) as (over & Hrun' & Hiff); [lia|].
  unfold range in Hrun. rewrite Hrun in Hrun'. injection Hrun' as <-.
  assert (false = true); [|discriminate]. apply Hiff. intros i Hi. apply Hnone. lia.
Qed.

(** Two equal tiles next to each other can merge: Left for a pair in a
    row, Up for a pair in a column. *)
Lemma pair_can_move (b : GameBoard.t) (i : nat) :
  well_formed b → (0 ∉ GameBoard.board b) → pair_at b i →
  ∃ direction, direction ∈ keys
               ∧ can_move (GameBoard.size b) direction (GameBoard.board b).
Proof.
  intros Hwf Hfull (x & Hx & Hpair).
  assert (Hnz : x ≠ 0) by (intros ->; apply Hfull; now apply list_elem_of_lookup_2 in Hx).
  assert (Hs : GameBoard.size b ≠ O).
  { apply lookup_lt_Some in Hx. rewrite Hwf in Hx. unfold GameBoard.total_cells in Hx. lia. }
  destruct Hpair as [[P1 P2]|[P1 P2]].
  - exists "a". split; [unfold keys; repeat constructor|].
    exists (i + 1)%nat, i, x. split; [|split; [exact P2|split; [exact Hnz|now right]]].
    apply toward_edge_cases. apply (same_row _ _ Hs) in P1. unfold row, col in *.
    split; [now symmetry|].
    pose proof (Nat.div_mod_eq i (GameBoard.size b)).
    pose proof (Nat.div_mod_eq (i + 1) (GameBoard.size b)). nia.
  - exists "w". split; [unfold keys; repeat constructor|].
    exists (i + GameBoard.size b)%nat, i, x.
    split; [|split; [exact P2|split; [exact Hnz|now right]]].
    apply toward_edge_cases. unfold row, col.
    replace (i + GameBoard.size b)%nat with (i + 1 * GameBoard.size b)%nat by lia.
    rewrite Nat.div_add, Nat.Div0.mod_add by exact Hs. split; [lia|reflexivity].
Qed.

(** On a well-formed board with a tile, [is_game_over] returns false only
    if some direction has a move. *)
Lemma not_over_can_move (b : GameBoard.t) (t : nat) (v : Z) :
  well_formed b → GameBoard.board b !! t = Some v → v ≠ 0 →
  GameBoard.is_game_over b = Ok false →
  ∃ direction, direction ∈ keys ∧ changes b direction.
Proof.
  intros Hwf Ht Hv Hrun.
  assert (Hcan : ∃ direction, direction ∈ keys
                   ∧ can_move (GameBoard.size b) direction (GameBoard.board b)).
  { destruct (decide (0 ∈ GameBoard.board b)) as [Hz|Hz].
    - apply list_elem_of_lookup in Hz. destruct Hz as [e He].
      now apply (tile_beside_empty b t e v).
    - destruct (not_over_reason b Hwf Hrun) as [Hz'|[i Hpair]]; [contradiction|].
      now apply (pair_can_move b i). }
  destruct Hcan as (direction & Hkey & Hcan). exists direction. split; [exact Hkey|].
  now apply (legal_move b direction Hwf Hkey).
Qed.

End Stuck.

(** ** AIPlayer: the search finds a direction that changes the grid *)

Section Player.

Implicit Types (b : GameBoard.t) (r : Random).

Lemma choice_member {A} (l : list A) r :
  l ≠ [] → ∃ x, choice l r = (Ok x, advance r) ∧ x ∈ l.
Proof.
  intros Hne. unfold choice. destruct l as [|y l]; [contradiction|].
  destruct (getitem_lt (y :: l) (N.to_nat (r O) mod length (y :: l))) as (x & Hx & Hg).
  { apply Nat.mod_upper_bound. simpl. lia. }
  exists x. rewrite Hg. split; [reflexivity|]. now apply list_elem_of_lookup_2 in Hx.
Qed.

(** The search over a list of keys returns; the move it holds is a key if
    it was, it is a direction that changes the grid as soon as one has
    been found, and one has been found if there is one in the list. *)
Lemma search_finds (self : AIPlayer.t) b (score : Z) (directions : list string) :
  well_formed b →
  GameLogic.move_direction (AIPlayer.game_logic self) = MoveDirection.__init__ (GameBoard.size b) →
  (∀ d, d ∈ directions → d ∈ keys) →
  ∀ st r, ∃ st' r',
    for_each_rand (AIPlayer.try_direction self b score) st directions r = (Ok st', r')
    ∧ (fst st ∈ keys → fst st' ∈ keys)
    ∧ ((snd st ≠ NegInf → changes b (fst st)) → snd st' ≠ NegInf → changes b (fst st'))
    ∧ (snd st ≠ NegInf ∨ (∃ d, d ∈ directions ∧ changes b d) → snd st' ≠ NegInf).
Proof.
  intros Hwf Hmd. induction directions as [|d directions IH]; intros Hkeys [bm bs] r.
  - exists (bm, bs), r. split; [reflexivity|]. split; [auto|]. split; [auto|].
    intros [H|(d & Hd & _)]; [exact H|inversion Hd].
  - assert (Hkey : d ∈ keys) by (apply Hkeys; left).
    destruct (try_direction_cases self b score bm bs d r Hwf Hmd Hkey) as [Hskip Htry].
    assert (Hrest : ∀ d', d' ∈ directions → d' ∈ keys) by (intros d' Hd'; apply Hkeys; now right).
    destruct (process_move_ok b d Hwf Hkey) as (gain & cells & Hrun & _).
    destruct (decide (cells = GameBoard.board b)) as [E|E].
    + assert (Hno : ¬ changes b d).
      { intros (s & cs & Hr & Hne). rewrite Hrun in Hr. injection Hr as <- <-. contradiction. }
      destruct (Hskip Hno) as (r1 & Hrun1).
      destruct (IH Hrest (bm, bs) r1) as (st' & r' & Hloop & H1 & H2 & H3).
      exists st', r'. split; [cbn [for_each_rand]; unfold_monad; now rewrite Hrun1|].
      split; [exact H1|]. split; [exact H2|].
      intros [H|(d' & Hd' & Hch)]; [apply H3; now left|].
      apply elem_of_cons in Hd'. destruct Hd' as [->|Hd']; [contradiction|].
      apply H3. right. now exists d'.
    + assert (Hyes : changes b d) by (exists gain, cells; now split).
      destruct (Htry Hyes) as (value & r1 & Hrun1).
      destruct (IH Hrest (if exceeds value bs then (d, Fin value) else (bm, bs)) r1)
        as (st' & r' & Hloop & H1 & H2 & H3).
      exists st', r'. split; [cbn [for_each_rand]; unfold_monad; now rewrite Hrun1|].
      destruct bs as [|best]; cbn [exceeds] in *.
      * cbn [fst snd] in *. split; [intros _; now apply H1|].
        split; [intros _; apply H2; now intros _|].
        intros _. apply H3. now left.
      * destruct (bool_decide (best < value)); cbn [fst snd] in *.
        -- split; [intros _; now apply H1|]. split; [intros _; apply H2; now intros _|].
           intros _. apply H3. now left.
        -- split; [exact H1|]. split; [exact H2|]. intros _. apply H3. now left.
Qed.

(** [get_move] on a well-formed board. *)
Lemma get_move_key (self : AIPlayer.t) b (score : Z) r :
  well_formed b →
  GameLogic.move_direction (AIPlayer.game_logic self) = MoveDirection.__init__ (GameBoard.size b) →
  ∃ direction r',
    AIPlayer.get_move self b score r = (Ok direction, r')
    ∧ direction ∈ keys
    ∧ (5 < AIPlayer.stuck_counter self ≤ 15 → direction ≠ "w")
    ∧ (AIPlayer.stuck_counter self ≤ 5 → (∃ d, d ∈ keys ∧ changes b d) → changes b direction).
Proof.
  intros Hwf Hmd. unfold AIPlayer.get_move.
  destruct (decide (15 < AIPlayer.stuck_counter self)) as [H15|H15].
  { destruct (choice_member ["w"; "a"; "s"; "d"] r) as (x & Hrun & Hx); [discriminate|].
    exists x, (advance r). split; [exact Hrun|]. split; [exact Hx|]. split; intros; lia. }
  destruct (decide (5 < AIPlayer.stuck_counter self)) as [H5|H5].
  { destruct (choice_member ["a"; "s"; "d"] r) as (x & Hrun & Hx); [discriminate|].
    exists x, (advance r). split; [exact Hrun|]. split.
    - unfold keys. now right.
    - split; [|intros; lia]. intros _ ->.
      repeat (apply elem_of_cons in Hx; destruct Hx as [Hx|Hx]; [discriminate Hx|]).
      inversion Hx. }
  unfold AIPlayer._get_best_move.
  destruct (search_finds self b score keys Hwf Hmd (λ d H, H) ("w", NegInf) r)
    as ([bm bs] & r' & Hrun & H1 & H2 & H3).
  unfold keys in Hrun. rewrite Hrun. exists bm, r'. split; [reflexivity|].
  cbn [fst snd] in *. split; [apply H1; unfold keys; repeat constructor|].
  split; [intros; lia|]. intros _ Hsome. apply H2; [intros C; now contradiction C|].
  apply H3. now right.
Qed.

End Player.

(** ** AIPlayer: the sign of the heuristic *)

Section Sign.

Implicit Types (b : GameBoard.t) (cells : list Z).

Lemma Zsum_nonneg cells : Forall (λ x, 0 ≤ x) cells → 0 ≤ Zsum cells.
Proof.
  induction 1 as [|x l Hx _ IH]; [reflexivity|]. rewrite Zsum_cons. lia.
Qed.

Lemma Zsum_member cells (x : Z) : Forall (λ x, 0 ≤ x) cells → x ∈ cells → x ≤ Zsum cells.
Proof.
  induction 1 as [|y l Hy Hl IH]; intros Hx; [inversion Hx|].
  rewrite Zsum_cons. pose proof (Zsum_nonneg l Hl).
  apply elem_of_cons in Hx. destruct Hx as [->|Hx]; [lia|]. specialize (IH Hx). lia.
Qed.

(** The heuristic value of a position that is not over is positive, that
    of a position that is over is not. *)
Lemma evaluate_sign b (score : Z) (t : nat) (v : Z) :
  well_formed b → Forall (λ x, 0 ≤ x) (GameBoard.board b) →
  GameBoard.board b !! t = Some v → v ≠ 0 → 0 ≤ score →
  ∃ over value,
    GameBoard.is_game_over b = Ok over
    ∧ AIPlayer._evaluate_position b score = Ok value
    ∧ (over = true → value = - score ^ 4 ∧ value ≤ 0)
    ∧ (over = false → 0 < value).
Proof.
  intros Hwf Hnn Ht Hv Hscore.
  destruct (is_game_over_terminal b Hwf) as (over & Hover & _).
  unfold AIPlayer._evaluate_position. rewrite Hover. unfold_monad.
  destruct over.
  { eexists true, _. split; [reflexivity|]. split; [reflexivity|].
    split; [|discriminate]. intros _. split; [lia|].
    pose proof (Z.pow_nonneg score 4 Hscore). lia. }
  rewrite bias_ok by exact Hwf. rewrite variety_code.
  eexists false, _. split; [reflexivity|]. split; [reflexivity|].
  split; [discriminate|]. intros _.
  set (m := GameBoard.get_max_value b).
  assert (Hm : m ∈ GameBoard.board b ∧ Forall (λ x, x ≤ m) (GameBoard.board b)).
  { unfold m, GameBoard.get_max_value. destruct (GameBoard.board b) as [|x l]; [discriminate Ht|].
    destruct (foldl_max_bound l x) as (H1 & H2 & H3). split.
    - destruct H3 as [->|H3]; [left|now right].
    - now constructor. }
  destruct Hm as [Hin Hmax].
  assert (Hm1 : 1 ≤ m).
  { rewrite Forall_forall in Hmax, Hnn.
    assert (Hvin : v ∈ GameBoard.board b) by now apply list_elem_of_lookup_2 in Ht.
    pose proof (Hmax v Hvin). pose proof (Hnn v Hvin). lia. }
  assert (Hempty : 0 ≤ GameBoard.get_empty_cell_count b)
    by (unfold GameBoard.get_empty_cell_count; lia).
  assert (Hbias : 0 ≤ positional_bias b).
  { unfold positional_bias. apply Zsum_nonneg. apply Forall_fmap, Forall_forall.
    intros i _. simpl.
    assert (0 ≤ default 0 (GameBoard.board b !! i)).
    { destruct (GameBoard.board b !! i) as [x|] eqn:E; simpl; [|lia].
      rewrite Forall_forall in Hnn. apply Hnn. now apply list_elem_of_lookup_2 in E. }
    apply Z.mul_nonneg_nonneg; [|assumption]. apply Z.pow_nonneg. lia. }
  assert (Hvar : 1 ≤ Zsum (share m <$> GameBoard.board b)).
  { assert (Hone : share m m = 1).
    { unfold share. rewrite decide_True by lia. apply Z.div_same. lia. }
    rewrite <- Hone. apply Zsum_member; [|now apply list_elem_of_fmap_2].
    apply Forall_fmap, Forall_forall. intros x Hx. simpl. unfold share.
    rewrite Forall_forall in Hnn. specialize (Hnn x Hx).
    destruct (decide (x ≠ 0)); [|lia]. apply Z.div_pos; lia. }
  assert (0 ≤ GameBoard.get_empty_cell_count b * GameBoard.get_empty_cell_count b * m * 1024)
    by (repeat apply Z.mul_nonneg_nonneg; lia).
  assert (0 ≤ m * score) by (apply Z.mul_nonneg_nonneg; lia).
  fold m. lia.
Qed.

End Sign.


(** ** Game2048: one turn *)

Section Turn.

Implicit Types (g : Game2048.t) (b : GameBoard.t) (r : Random).

Lemma logic_result_inj (gain gain' : Z) (moved moved' : bool) b b' r r' :
  (Ok (gain, moved, logic_of b), r) = (Ok (gain', moved', logic_of b'), r') →
  gain = gain' ∧ moved = moved' ∧ b = b' ∧ r = r'.
Proof.
  intros H. apply pair_equal_spec in H. destruct H as [H ->].
  assert (Hb : GameLogic.board (logic_of b) = GameLogic.board (logic_of b')) by congruence.
  cbn in Hb. subst b'. assert (gain = gain') by congruence. assert (moved = moved') by congruence.
  auto.
Qed.

(** What the flag that [make_move] of the game logic returns says. *)
Lemma logic_make_move_flag b (direction : string) r gain moved b' r' :
  well_formed b →
  GameLogic.make_move (logic_of b) direction r = (Ok (gain, moved, logic_of b'), r') →
  (moved = true →
     direction ∈ keys ∧ changes b direction
     ∧ (Zsum (GameBoard.board b') = Zsum (GameBoard.board b) + 2
        ∨ Zsum (GameBoard.board b') = Zsum (GameBoard.board b) + 4)
     ∧ ∃ t v, GameBoard.board b' !! t = Some v ∧ v ≠ 0)
  ∧ (moved = false →
     b' = b ∧ gain = 0 ∧ r' = r ∧ ¬ (direction ∈ keys ∧ changes b direction)).
Proof.
  intros Hwf Hrun.
  destruct (decide (direction ∈ keys)) as [Hkey|Hkey].
  - destruct (make_move_outcome b direction r Hwf Hkey)
      as (score & cells & Hmove & Hsame & Hdiff).
    destruct (decide (cells = GameBoard.board b)) as [E|E].
    + rewrite (Hsame E) in Hrun.
      apply logic_result_inj in Hrun. destruct Hrun as (<- & <- & <- & <-). split; [discriminate|]. intros _.
      repeat (split; [reflexivity|]). intros [_ (s & cs & Hr & Hne)].
      rewrite Hmove in Hr. injection Hr as <- <-. contradiction.
    + destruct (Hdiff E) as (position & Hzero & Hrun'). rewrite Hrun' in Hrun.
      apply logic_result_inj in Hrun. destruct Hrun as (<- & <- & <- & <-).
      split; [|discriminate]. intros _. split; [exact Hkey|].
      split; [exists score, cells; now split|]. cbn [GameBoard.set_board GameBoard.board].
      split.
      * rewrite (Zsum_insert _ _ 0 _ Hzero).
        rewrite <- (process_move_sum b direction score cells Hkey Hmove).
        unfold new_tile. destruct (Qlt_le_dec _ _); [left|right]; lia.
      * exists position, (new_tile (fraction (advance r))). split.
        -- apply list_lookup_insert_eq. now apply lookup_lt_Some in Hzero.
        -- pose proof (new_tile_positive (fraction (advance r))). lia.
  - unfold GameLogic.make_move in Hrun.
    rewrite (any_other_key _ _ Hkey) in Hrun. apply logic_result_inj in Hrun.
    destruct Hrun as (<- & <- & <- & <-). split; [discriminate|]. intros _.
    repeat (split; [reflexivity|]). now intros [C _].
Qed.

(** On a well-formed board with a tile, [is_game_over] is true exactly
    when no key changes the grid. *)
Lemma over_iff_no_move b (t : nat) (v : Z) :
  well_formed b → GameBoard.board b !! t = Some v → v ≠ 0 →
  ∃ over, GameBoard.is_game_over b = Ok over
          ∧ (over = true ↔ ∀ d, d ∈ keys → ¬ changes b d).
Proof.
  intros Hwf Ht Hv. destruct (is_game_over_terminal b Hwf) as (over & Hrun & Hiff).
  exists over. split; [exact Hrun|]. split.
  - intros Hover d Hd (s & cs & Hr & Hne).
    rewrite (terminal_no_change b d Hwf (proj1 Hiff Hover) Hd) in Hr.
    injection Hr as <- <-. now apply Hne.
  - intros Hnone. destruct over; [reflexivity|]. exfalso.
    destruct (not_over_can_move b t v Hwf Ht Hv Hrun) as (d & Hd & Hch).
    now apply (Hnone d).
Qed.


(** [make_move] of a sound session in play: what the flag says, and what
    becomes of the board, the state, the best score and the stuck
    counter. *)
Lemma make_move_turn g (direction : string) r :
  sound g → Game2048.state g = PLAYING →
  ∃ moved g' r',
    Game2048.make_move direction g r = (Ok (moved, g'), r')
    ∧ sound g'
    ∧ (moved = true ↔ direction ∈ keys ∧ changes (Game2048.board g) direction)
    ∧ (moved = true →
       Zsum (GameBoard.board (Game2048.board g'))
       = Zsum (GameBoard.board (Game2048.board g)) + 2
       ∨ Zsum (GameBoard.board (Game2048.board g'))
         = Zsum (GameBoard.board (Game2048.board g)) + 4)
    ∧ (moved = false →
       Game2048.board g' = Game2048.board g ∧ Game2048.score g' = Game2048.score g
       ∧ Game2048.state g' = PLAYING ∧ r' = r)
    ∧ (Game2048.state g' = GAME_OVER ↔
       moved = true ∧ ∀ d, d ∈ keys → ¬ changes (Game2048.board g') d)
    ∧ (Game2048.state g' = PLAYING ∨ Game2048.state g' = GAME_OVER)
    ∧ Game2048.best_score g'
      = (if moved then Z.max (Game2048.best_score g) (Game2048.score g')
         else Game2048.best_score g)
    ∧ Game2048.stuck_counter g'
      = (if decide (Game2048.current_player g = Some AIPlayer)
         then (if moved then 0 else Game2048.stuck_counter g + 1)
         else Game2048.stuck_counter g).
Proof.
  intros Hsound Hstate.
  destruct (make_move_shape g direction r Hsound Hstate)
    as (gain & moved & b' & r' & over & Hlogic & Hsize & Hgrid & Hgain & Hover & Hiff & Hrun).
  destruct (session_make_move g direction r Hsound) as (moved0 & g0 & r0 & Hrun0 & Hsound' & _).
  rewrite Hrun in Hrun0. injection Hrun0 as <- <- <-.
  assert (Hwf : well_formed (Game2048.board g)) by apply Hsound.
  destruct (logic_make_move_flag _ _ _ _ _ _ _ Hwf Hlogic) as [Hyes Hno].
  eexists moved, _, r'. split; [exact Hrun|]. split; [exact Hsound'|].
  cbn [Game2048.board Game2048.state Game2048.score Game2048.best_score Game2048.stuck_counter].
  destruct moved.
  - destruct (Hyes eq_refl) as (Hkey & Hch & Hsum & t & v & Ht & Hv).
    destruct (over_iff_no_move b' t v (proj1 Hgrid) Ht Hv) as (over' & Hover' & Hnone).
    rewrite Hover in Hover'. injection Hover' as <-.
    split; [tauto|]. split; [intros _; exact Hsum|]. split; [discriminate|].
    split; [|split; [destruct over; simpl; auto|split; reflexivity]].
    destruct over; simpl.
    + split; [intros _; split; [reflexivity|now apply Hnone]|reflexivity].
    + split; [discriminate|]. intros [_ C]. apply Hnone in C. discriminate C.
  - destruct (Hno eq_refl) as (-> & -> & -> & Hnot).
    split; [split; [discriminate|intros C; contradiction]|]. split; [discriminate|].
    split; [intros _; repeat split; reflexivity|].
    split; [simpl; split; [discriminate|intros [C _]; discriminate C]|].
    split; [now left|split; reflexivity].
Qed.

(** The AI step of [run] on a sound session. *)
Lemma run_ai_move_turn g r :
  sound g → Game2048.current_player g = Some AIPlayer → Game2048.state g = PLAYING →
  ∃ direction r1 moved g' r',
    AIPlayer.get_move (Game2048.ai_player g) (Game2048.board g) (Game2048.score g) r
    = (Ok direction, r1)
    ∧ Game2048.make_move direction g r1 = (Ok (moved, g'), r')
    ∧ Game2048.run_ai_move g r = (Ok g', r')
    ∧ direction ∈ keys
    ∧ (Game2048.stuck_counter g ≤ 5 →
       (∃ d, d ∈ keys ∧ changes (Game2048.board g) d) → moved = true)
    ∧ ((∀ d, d ∈ keys → ¬ changes (Game2048.board g) d) → moved = false).
Proof.
  intros Hsound Hplayer Hstate.
  assert (Hwf : well_formed (Game2048.board g)) by apply Hsound.
  assert (Hmd : GameLogic.move_direction (AIPlayer.game_logic (Game2048.ai_player g))
                = MoveDirection.__init__ (GameBoard.size (Game2048.board g))) by apply Hsound.
  destruct (get_move_key (Game2048.ai_player g) (Game2048.board g) (Game2048.score g) r Hwf Hmd)
    as (direction & r1 & Hget & Hkey & _ & Hlegal).
  destruct (make_move_turn g direction r1 Hsound Hstate)
    as (moved & g' & r' & Hrun & _ & Hflag & _).
  exists direction, r1, moved, g', r'. split; [exact Hget|]. split; [exact Hrun|].
  split.
  { unfold Game2048.run_ai_move. rewrite decide_True by now split. unfold_monad.
    rewrite Hget, Hrun. reflexivity. }
  split; [exact Hkey|]. split.
  - intros Hstuck Hsome. apply Hflag. split; [exact Hkey|]. now apply Hlegal.
  - intros Hnone. destruct moved; [|reflexivity]. exfalso.
    apply (Hnone direction Hkey). now apply Hflag.
Qed.

End Turn.


(** ** Game2048: the invariant of the sessions *)

Section Valid.

Implicit Types (g : Game2048.t) (b : GameBoard.t) (h : GameHistory.t) (r : Random).

Lemma small_tiles (cells : list Z) :
  Forall (λ v, v = 0 ∨ v = 2 ∨ v = 4) cells → Forall is_tile cells.
Proof.
  intros H. eapply Forall_impl; [exact H|]. intros v [-> | [-> | ->]]; [now left|right|right].
  - exists 1%nat. split; [lia|reflexivity].
  - exists 2%nat. split; [lia|reflexivity].
Qed.

(** What [add_state] keeps of a history. *)
Lemma add_state_keeps h (board : list Z) (score : Z) (P : list Z → Prop) :
  P board → Forall P (GameHistory.board_history h) →
  no_repeat (GameHistory.board_history h) →
  let h' := snd (GameHistory.add_state board score h) in
  GameHistory.max_history h' = GameHistory.max_history h
  ∧ Forall P (GameHistory.board_history h')
  ∧ no_repeat (GameHistory.board_history h')
  ∧ ((length (GameHistory.board_history h) ≤ GameHistory.max_history h + 1)%nat →
     (length (GameHistory.board_history h') ≤ GameHistory.max_history h + 1)%nat).
Proof.
  intros Hb Hall Hno. rewrite add_state_cases. cbn [snd].
  destruct (decide _) as [E|E]; [auto|].
  split; [apply stored_after_max|]. split; [|split; [|apply stored_after_bounded]].
  - unfold stored_after.
    assert (Forall P (GameHistory.board_history h ++ [board])).
    { apply Forall_app. split; [assumption|]. now constructor. }
    destruct (decide _); cbn [GameHistory.board_history]; [now apply Forall_drop|assumption].
  - unfold stored_after. destruct (decide _); cbn [GameHistory.board_history].
    + apply no_repeat_drop. now apply no_repeat_snoc.
    + now apply no_repeat_snoc.
Qed.

Lemma init_valid (size max_history : nat) (best : Z) r g r' :
  Game2048.__init__ size max_history best r = (Ok g, r') → valid g.
Proof.
  unfold Game2048.__init__, GameBoard.__init__. unfold_monad.
  destruct (initialize_board_tiles (GameBoard.Build size (replicate (size * size) 0)) r)
    as (b' & r1 & Hrun & Hsize & _ & Htiles & _).
  rewrite Hrun. intros [= <- <-]. unfold valid. cbn.
  split; [exact Hsize|]. split; [reflexivity|]. split; [now apply small_tiles|].
  split; [constructor|]. split; [lia|]. split; [|tauto].
  intros i x y Hx. discriminate Hx.
Qed.

Lemma start_game_valid g (is_human : bool) r g' r' :
  valid g → Game2048.start_game is_human g r = (Ok g', r') → valid g'.
Proof.
  intros (Hsize & Hmax & _) Hrun.
  destruct (start_game_shape g is_human r) as (b' & r1 & Hinit & Hshape).
  rewrite Hrun in Hshape. injection Hshape as -> ->.
  destruct (initialize_board_tiles (Game2048.board g) r)
    as (b0 & r0 & Hinit0 & Hsize0 & _ & Htiles & _).
  rewrite Hinit in Hinit0. injection Hinit0 as <- <-.
  unfold valid. cbn. split; [congruence|]. split; [reflexivity|].
  apply small_tiles in Htiles. split; [exact Htiles|].
  split; [now repeat constructor|]. split; [lia|]. split.
  - intros i x y Hx Hy. destruct i; discriminate Hy.
  - split; discriminate.
Qed.

Lemma make_move_valid g (direction : string) r moved g' r' :
  sound g → valid g → Game2048.make_move direction g r = (Ok (moved, g'), r') → valid g'.
Proof.
  intros Hsound Hvalid Hrun.
  destruct (decide (Game2048.state g = PLAYING)) as [Hstate|Hstate].
  2:{ unfold Game2048.make_move in Hrun. rewrite decide_True in Hrun by exact Hstate.
      injection Hrun as _ <- _. exact Hvalid. }
  destruct Hvalid as (Hsize & Hmax & Htiles & Hstored & Hlen & Hno & Hplayer).
  destruct (make_move_shape g direction r Hsound Hstate)
    as (gain & moved0 & b' & r0 & over & Hlogic & Hsize' & _ & _ & _ & _ & Hshape).
  rewrite Hrun in Hshape. injection Hshape as -> -> ->.
  destruct (add_state_keeps (Game2048.history g) (GameBoard.board (Game2048.board g))
              (Game2048.score g) (Forall is_tile) Htiles Hstored Hno)
    as (K1 & K2 & K3 & K4).
  unfold valid. cbn. split; [congruence|]. split; [congruence|].
  split; [now apply (logic_make_move_tiles _ _ _ _ _ _ _ (proj1 (proj1 Hsound)) Htiles Hlogic)|].
  split; [exact K2|]. split; [rewrite <- Hmax; apply K4; now rewrite Hmax|].
  split; [exact K3|]. split.
  - destruct (moved0 && over); discriminate.
  - intros C. apply Hplayer in C. congruence.
Qed.

Lemma undo_move_valid g undone g' :
  sound g → valid g → Game2048.undo_move g = (Ok undone, g') → valid g'.
Proof.
  intros Hsound Hvalid. unfold Game2048.undo_move.
  destruct (negb _ || _) eqn:Hguard; [now intros [= _ <-]|].
  apply orb_false_iff in Hguard. destruct Hguard as [Hcan _].
  apply negb_false_iff, can_undo_length in Hcan.
  destruct Hsound as (_ & _ & _ & Hstep & _).
  destruct (undo_long _ Hstep Hcan) as (boards & scores & b2 & b1 & s2 & s1 & Hb & Hs & Hrun).
  unfold Game2048.on_history. rewrite Hrun. intros [= _ <-].
  destruct Hvalid as (Hsize & Hmax & Htiles & Hstored & Hlen & Hno & Hplayer).
  rewrite Hb in Hstored, Hlen, Hno.
  apply Forall_app in Hstored. destruct Hstored as [Hstored Hlast].
  apply Forall_cons in Hlast. destruct Hlast as [Hb2 _].
  rewrite length_app in Hlen. apply no_repeat_prefix in Hno.
  destruct g. unfold valid. cbn in *.
  repeat (split; [first [assumption|lia]|]). exact Hplayer.
Qed.

Lemma reachable_valid g : reachable g → valid g.
Proof.
  induction 1 as [size mh best r g r' Hinit
                 |g is_human r g' r' Hreach IH Hrun
                 |g direction r moved g' r' Hreach IH Hrun
                 |g undone g' Hreach IH Hrun
                 |g Hreach IH].
  - eapply init_valid. exact Hinit.
  - eapply start_game_valid; eassumption.
  - eapply make_move_valid; [apply reachable_sound| |]; eassumption.
  - eapply undo_move_valid; [apply reachable_sound| |]; eassumption.
  - destruct g. exact IH.
Qed.

End Valid.

(** ** GameLogic: which moves are legal *)

(** X18: on a well-formed board and for each of the four keys, the slide
    and merge step changes the grid exactly when some tile has, as its
    neighbour on the side toward which the key moves, an empty cell or a
    tile of the same value; [make_move] returns, and its flag is true in
    exactly that case. *)
Theorem X18_legal_move (b : GameBoard.t) (direction : string) (r : Random) :
  well_formed b → direction ∈ keys →
  (changes b direction ↔ can_move (GameBoard.size b) direction (GameBoard.board b))
  ∧ ∃ score moved self' r',
      GameLogic.make_move (logic_of b) direction r = (Ok (score, moved, self'), r')
      ∧ (moved = true ↔ can_move (GameBoard.size b) direction (GameBoard.board b)).
Proof.
  intros Hwf Hkey. destruct (legal_move b direction Hwf Hkey) as [Hiff _].
  split; [exact Hiff|].
  destruct (make_move_outcome b direction r Hwf Hkey) as (score & cells & Hrun & Hsame & Hdiff).
  destruct (decide (cells = GameBoard.board b)) as [E|E].
  - eexists _, false, _, _. split; [exact (Hsame E)|]. split; [discriminate|].
    intros Hcan. apply Hiff in Hcan. destruct Hcan as (s & cs & Hr & Hne).
    rewrite Hrun in Hr. injection Hr as <- <-. contradiction.
  - destruct (Hdiff E) as (position & _ & Hmove).
    eexists _, true, _, _. split; [exact Hmove|]. split; [|reflexivity].
    intros _. apply Hiff. exists score, cells. now split.
Qed.

Lemma X18_legal_move_witness : changes right_only_board "d".
Proof.
  destruct (X18_legal_move right_only_board "d" zero_source) as [Hiff _].
  - reflexivity.
  - unfold keys. repeat constructor.
  - apply Hiff. exists 0%nat, 1%nat, 2. split.
    + unfold toward_edge, row, col. simpl. split; reflexivity.
    + split; [reflexivity|]. split; [discriminate|]. left. reflexivity.
Defined.

(** X19: on a well-formed board that holds at least one tile,
    [is_game_over] returns true exactly when none of the four keys
    changes the grid: the game is declared over neither too early nor too
    late. *)
Theorem X19_game_over_iff_no_move (b : GameBoard.t) (t : nat) (v : Z) :
  well_formed b → GameBoard.board b !! t = Some v → v ≠ 0 →
  ∃ over, GameBoard.is_game_over b = Ok over
          ∧ (over = true ↔ ∀ d, d ∈ keys → ¬ changes b d).
Proof. apply over_iff_no_move. Qed.

Lemma X19_game_over_iff_no_move_witness :
  ∃ over, GameBoard.is_game_over right_only_board = Ok over
          ∧ (over = true ↔ ∀ d, d ∈ keys → ¬ changes right_only_board d).
Proof.
  apply (X19_game_over_iff_no_move right_only_board 0%nat 2).
  - reflexivity.
  - reflexivity.
  - discriminate.
Defined.

(** X20: a board without any tile is the exception: on a well-formed
    board of side at least 1 whose cells are all empty, [is_game_over]
    returns false although no key changes the grid. *)
Theorem X20_empty_board_is_not_over (b : GameBoard.t) :
  well_formed b → (0 < GameBoard.size b)%nat →
  Forall (λ v, v = 0) (GameBoard.board b) →
  GameBoard.is_game_over b = Ok false
  ∧ ∀ d, d ∈ keys → GameLogic._process_move (logic_of b) d = Ok (0, GameBoard.board b).
Proof.
  intros Hwf Hsize Hzero. split.
  - unfold GameBoard.is_game_over. rewrite bool_decide_eq_true_2; [reflexivity|].
    destruct (GameBoard.board b) as [|x l] eqn:E.
    + unfold well_formed, GameBoard.total_cells in Hwf. rewrite E in Hwf. simpl in Hwf. nia.
    + apply Forall_cons in Hzero. destruct Hzero as [-> _]. left.
  - intros d Hd. destruct (legal_move b d Hwf Hd) as [Hiff Hsame]. apply Hsame.
    intros Hch. apply Hiff in Hch. destruct Hch as (c & c' & v & _ & Hv & Hnz & _).
    rewrite Forall_forall in Hzero. apply Hnz, Hzero. now apply list_elem_of_lookup_2 in Hv.
Qed.

Lemma X20_empty_board_is_not_over_witness :
  GameBoard.is_game_over (GameBoard.Build 2 [0; 0; 0; 0]) = Ok false
  ∧ GameLogic._process_move (logic_of (GameBoard.Build 2 [0; 0; 0; 0])) "a"
    = Ok (0, [0; 0; 0; 0]).
Proof.
  destruct (X20_empty_board_is_not_over (GameBoard.Build 2 [0; 0; 0; 0])) as [H1 H2].
  - reflexivity.
  - simpl. lia.
  - repeat constructor.
  - split; [exact H1|]. apply H2. unfold keys. repeat constructor.
Defined.

(** X21: [make_move] of the game logic on a well-formed board returns
    for every string.  When it reports a move, the sum of the cells has
    grown by exactly the tile placed, 2 or 4, so the board is never what
    it was before the move; when it reports none, the board and the
    random source are as before and the score gained is 0. *)
Theorem X21_move_adds_the_new_tile (b : GameBoard.t) (direction : string) (r : Random) :
  well_formed b →
  ∃ gain moved b' r',
    GameLogic.make_move (logic_of b) direction r = (Ok (gain, moved, logic_of b'), r')
    ∧ (moved = true →
       (Zsum (GameBoard.board b') = Zsum (GameBoard.board b) + 2
        ∨ Zsum (GameBoard.board b') = Zsum (GameBoard.board b) + 4)
       ∧ GameBoard.board b' ≠ GameBoard.board b)
    ∧ (moved = false → b' = b ∧ gain = 0 ∧ r' = r).
Proof.
  intros Hwf.
  assert (Hreturns : ∃ gain moved b' r',
    GameLogic.make_move (logic_of b) direction r = (Ok (gain, moved, logic_of b'), r')).
  { destruct (decide (direction ∈ keys)) as [Hkey|Hkey].
    - destruct (make_move_outcome b direction r Hwf Hkey) as (score & cells & _ & Hsame & Hdiff).
      destruct (decide (cells = GameBoard.board b)) as [E|E].
      + eexists _, _, _, _. exact (Hsame E).
      + destruct (Hdiff E) as (position & _ & Hmove). eexists _, _, _, _. exact Hmove.
    - exists 0, false, b, r. unfold GameLogic.make_move.
      now rewrite (any_other_key _ _ Hkey). }
  destruct Hreturns as (gain & moved & b' & r' & Hrun).
  exists gain, moved, b', r'. split; [exact Hrun|].
  destruct (logic_make_move_flag b direction r gain moved b' r' Hwf Hrun) as [Hyes Hno].
  split.
  - intros Hm. destruct (Hyes Hm) as (_ & _ & Hsum & _). split; [exact Hsum|].
    intros E. rewrite E in Hsum. lia.
  - intros Hm. destruct (Hno Hm) as (H1 & H2 & H3 & _). auto.
Qed.

Lemma X21_move_adds_the_new_tile_witness :
  ∃ gain moved b' r',
    GameLogic.make_move (logic_of right_only_board) "d" zero_source
    = (Ok (gain, moved, logic_of b'), r')
    ∧ (moved = true →
       (Zsum (GameBoard.board b') = Zsum [2; 0; 4; 0] + 2
        ∨ Zsum (GameBoard.board b') = Zsum [2; 0; 4; 0] + 4)
       ∧ GameBoard.board b' ≠ [2; 0; 4; 0]).
Proof.
  destruct (X21_move_adds_the_new_tile right_only_board "d" zero_source)
    as (gain & moved & b' & r' & Hrun & Hyes & _).
  - reflexivity.
  - exists gain, moved, b', r'. split; [exact Hrun|exact Hyes].
Defined.

(** ** Game2048: the end of a game, and the best score *)

(** X22: [make_move] on a reachable session in play returns; its flag is
    true exactly when the string is one of the four keys and changes the
    grid.  The session is then over exactly when the move changed the
    grid and no key changes the grid it left, and it stays in play
    otherwise.  Once it is over, [make_move] and [undo_move] return false
    and leave the session as it is. *)
Theorem X22_session_game_over (g : Game2048.t) (direction : string) (r : Random) :
  reachable g → Game2048.state g = PLAYING →
  ∃ moved g' r',
    Game2048.make_move direction g r = (Ok (moved, g'), r')
    ∧ (moved = true ↔ direction ∈ keys ∧ changes (Game2048.board g) direction)
    ∧ (Game2048.state g' = GAME_OVER ↔
       moved = true ∧ ∀ d, d ∈ keys → ¬ changes (Game2048.board g') d)
    ∧ (Game2048.state g' = PLAYING ∨ Game2048.state g' = GAME_OVER)
    ∧ (Game2048.state g' = GAME_OVER →
       (∀ d r2, Game2048.make_move d g' r2 = (Ok (false, g'), r2))
       ∧ Game2048.undo_move g' = (Ok false, g')).
Proof.
  intros Hreach Hstate. pose proof (reachable_sound g Hreach) as Hsound.
  destruct (make_move_turn g direction r Hsound Hstate)
    as (moved & g' & r' & Hrun & _ & Hflag & _ & _ & Hover & Hstates & _).
  exists moved, g', r'. split; [exact Hrun|]. split; [exact Hflag|].
  split; [exact Hover|]. split; [exact Hstates|]. intros Hend. split.
  - intros d r2. unfold Game2048.make_move. rewrite decide_True; [reflexivity|].
    rewrite Hend. discriminate.
  - unfold Game2048.undo_move. rewrite (bool_decide_eq_true_2 (Game2048.state g' ≠ PLAYING)).
    + now rewrite orb_true_r.
    + rewrite Hend. discriminate.
Qed.

Lemma X22_session_game_over_witness :
  ∃ moved g' r',
    Game2048.make_move "w" session2 zero_source = (Ok (moved, g'), r')
    ∧ (Game2048.state g' = GAME_OVER ↔
       moved = true ∧ ∀ d, d ∈ keys → ¬ changes (Game2048.board g') d).
Proof.
  destruct (X22_session_game_over session2 "w" zero_source session2_reachable eq_refl)
    as (moved & g' & r' & Hrun & _ & Hover & _).
  exists moved, g', r'. split; [exact Hrun|exact Hover].
Defined.

(** X23: [make_move] on a reachable session in play never lowers the
    best score: after a move that changed the grid it is the greater of
    the old best score and the new score, so the score does not exceed
    it, and otherwise it is unchanged.  After [clear_best_score] the next
    move that changes the grid makes the best score the current score. *)
Theorem X23_best_score (g : Game2048.t) (direction : string) (r : Random) :
  reachable g → Game2048.state g = PLAYING →
  (∃ moved g' r',
     Game2048.make_move direction g r = (Ok (moved, g'), r')
     ∧ Game2048.best_score g'
       = (if moved then Z.max (Game2048.best_score g) (Game2048.score g')
          else Game2048.best_score g)
     ∧ Game2048.best_score g ≤ Game2048.best_score g'
     ∧ (moved = true → Game2048.score g' ≤ Game2048.best_score g'))
  ∧ (∃ moved g' r',
       Game2048.make_move direction (Game2048.clear_best_score g) r = (Ok (moved, g'), r')
       ∧ Game2048.best_score g' = (if moved then Game2048.score g' else 0)).
Proof.
  intros Hreach Hstate. split.
  - pose proof (reachable_sound g Hreach) as Hsound.
    destruct (make_move_turn g direction r Hsound Hstate)
      as (moved & g' & r' & Hrun & _ & _ & _ & _ & _ & _ & Hbest & _).
    exists moved, g', r'. split; [exact Hrun|]. split; [exact Hbest|].
    rewrite Hbest. destruct moved; split; first [lia|discriminate].
  - pose proof (reach_clear g Hreach) as Hreach'.
    pose proof (reachable_sound _ Hreach') as Hsound.
    assert (Hstate' : Game2048.state (Game2048.clear_best_score g) = PLAYING)
      by (destruct g; exact Hstate).
    destruct (make_move_turn _ direction r Hsound Hstate')
      as (moved & g' & r' & Hrun & Hsound' & _ & _ & _ & _ & _ & Hbest & _).
    exists moved, g', r'. split; [exact Hrun|]. rewrite Hbest.
    assert (Hscore : 0 ≤ Game2048.score g') by apply Hsound'.
    destruct g; cbn [Game2048.clear_best_score Game2048.set_best_score Game2048.best_score].
    destruct moved; [lia|reflexivity].
Qed.

Lemma X23_best_score_witness :
  ∃ moved g' r',
    Game2048.make_move "w" session2 zero_source = (Ok (moved, g'), r')
    ∧ Game2048.best_score session2 ≤ Game2048.best_score g'.
Proof.
  destruct (X23_best_score session2 "w" zero_source session2_reachable eq_refl)
    as [(moved & g' & r' & Hrun & _ & Hle & _) _].
  exists moved, g', r'. split; [exact Hrun|exact Hle].
Defined.

(** ** AIPlayer: the move chosen *)

(** X24: [get_move] on a well-formed board, with the traversal tables of
    its size, returns one of the four keys for every stuck counter and
    random source, and never raises.  With the stuck counter above 5 and
    at most 15 the key is not Up.  With the stuck counter at most 5, if
    any key changes the grid then the key returned changes it. *)
Theorem X24_get_move_is_legal (self : AIPlayer.t) (b : GameBoard.t) (score : Z)
    (r : Random) :
  well_formed b →
  GameLogic.move_direction (AIPlayer.game_logic self) = MoveDirection.__init__ (GameBoard.size b) →
  ∃ direction r',
    AIPlayer.get_move self b score r = (Ok direction, r')
    ∧ direction ∈ keys
    ∧ (5 < AIPlayer.stuck_counter self ≤ 15 → direction ≠ "w")
    ∧ (AIPlayer.stuck_counter self ≤ 5 → (∃ d, d ∈ keys ∧ changes b d) → changes b direction).
Proof. apply get_move_key. Qed.

Lemma X24_get_move_is_legal_witness :
  ∃ direction r',
    AIPlayer.get_move (AIPlayer.__init__ (logic_of right_only_board)) right_only_board 0
      zero_source = (Ok direction, r')
    ∧ changes right_only_board direction.
Proof.
  destruct (X24_get_move_is_legal (AIPlayer.__init__ (logic_of right_only_board))
              right_only_board 0 zero_source)
    as (direction & r' & Hrun & _ & _ & Hlegal).
  - reflexivity.
  - reflexivity.
  - exists direction, r'. split; [exact Hrun|]. apply Hlegal.
    + simpl. lia.
    + exists "d". split; [unfold keys; repeat constructor|exact right_only_board_change].
Defined.

(** X25: the AI step of [run] on a reachable session of the automatic
    player in play returns.  With the stuck counter at most 5, if any key
    changes the grid the step makes a move: the stuck counter is 0
    afterwards and the sum of the cells has grown by the new tile.  If no
    key changes the grid, the board and the score are as before, the
    stuck counter is one higher, and the session stays in play. *)
Theorem X25_ai_step (g : Game2048.t) (r : Random) :
  reachable g → Game2048.current_player g = Some AIPlayer → Game2048.state g = PLAYING →
  ∃ g' r',
    Game2048.run_ai_move g r = (Ok g', r')
    ∧ (Game2048.stuck_counter g ≤ 5 →
       (∃ d, d ∈ keys ∧ changes (Game2048.board g) d) →
       Game2048.stuck_counter g' = 0
       ∧ (Zsum (GameBoard.board (Game2048.board g'))
          = Zsum (GameBoard.board (Game2048.board g)) + 2
          ∨ Zsum (GameBoard.board (Game2048.board g'))
            = Zsum (GameBoard.board (Game2048.board g)) + 4))
    ∧ ((∀ d, d ∈ keys → ¬ changes (Game2048.board g) d) →
       Game2048.board g' = Game2048.board g
       ∧ Game2048.score g' = Game2048.score g
       ∧ Game2048.stuck_counter g' = Game2048.stuck_counter g + 1
       ∧ Game2048.state g' = PLAYING).
Proof.
  intros Hreach Hplayer Hstate. pose proof (reachable_sound g Hreach) as Hsound.
  destruct (run_ai_move_turn g r Hsound Hplayer Hstate)
    as (direction & r1 & moved & g' & r' & _ & Hmove & Hrun & _ & Hyes & Hno).
  destruct (make_move_turn g direction r1 Hsound Hstate)
    as (moved0 & g0 & r0 & Hmove0 & _ & _ & Hsum & Hsame & _ & _ & _ & Hstuck).
  rewrite Hmove in Hmove0. injection Hmove0 as <- <- <-.
  rewrite decide_True in Hstuck by exact Hplayer.
  exists g', r'. split; [exact Hrun|]. split.
  - intros H5 Hsome. rewrite (Hyes H5 Hsome) in Hstuck, Hsum. split; [exact Hstuck|now apply Hsum].
  - intros Hnone. rewrite (Hno Hnone) in Hstuck, Hsame.
    destruct (Hsame eq_refl) as (H1 & H2 & H3 & _). auto.
Qed.

Lemma X25_ai_step_witness :
  ∃ g' r', Game2048.run_ai_move session_ai zero_source = (Ok g', r')
           ∧ Game2048.stuck_counter g' = 0.
Proof.
  assert (Hnew : reachable session_new).
  { destruct (Game2048.__init__ 2 5 0 zero_source) as [x r'] eqn:E.
    assert (Hx : x = Ok session_new).
    { change x with (fst (x, r')). rewrite <- E. vm_compute. reflexivity. }
    subst x. eapply reach_init. exact E. }
  assert (Hai : reachable session_ai).
  { destruct (Game2048.start_game false session_new zero_source) as [x r'] eqn:E.
    assert (Hx : x = Ok session_ai).
    { change x with (fst (x, r')). rewrite <- E. vm_compute. reflexivity. }
    subst x. eapply reach_start; [exact Hnew|exact E]. }
  destruct (X25_ai_step session_ai zero_source Hai eq_refl eq_refl)
    as (g' & r' & Hrun & Hyes & _).
  exists g', r'. split; [exact Hrun|]. apply Hyes.
  - simpl. lia.
  - exists "a". split; [unfold keys; repeat constructor|].
    exists 4, [4; 0; 0; 0]. split; [vm_compute; reflexivity|discriminate].
Defined.

(** X26: on a well-formed board without negative cells and with at least
    one tile, and for a score that is not negative, [_evaluate_position]
    returns a value that is at most 0 when the position is over and
    greater than 0 when it is not: the search rates every position that
    can go on above every position that cannot. *)
Theorem X26_evaluation_sign (b : GameBoard.t) (score : Z) (t : nat) (v : Z) :
  well_formed b → Forall (λ x, 0 ≤ x) (GameBoard.board b) →
  GameBoard.board b !! t = Some v → v ≠ 0 → 0 ≤ score →
  ∃ over value,
    GameBoard.is_game_over b = Ok over
    ∧ AIPlayer._evaluate_position b score = Ok value
    ∧ (over = true → value = - score ^ 4 ∧ value ≤ 0)
    ∧ (over = false → 0 < value).
Proof. apply evaluate_sign. Qed.

Lemma X26_evaluation_sign_witness :
  ∃ over value,
    GameBoard.is_game_over right_only_board = Ok over
    ∧ AIPlayer._evaluate_position right_only_board 4 = Ok value
    ∧ (over = false → 0 < value).
Proof.
  destruct (X26_evaluation_sign right_only_board 4 0%nat 2)
    as (over & value & H1 & H2 & _ & H3).
  - reflexivity.
  - repeat constructor; lia.
  - reflexivity.
  - discriminate.
  - lia.
  - exists over, value. auto.
Defined.

(** ** Game2048: what every session satisfies *)

(** X27: in every session that the constructor, [start_game],
    [make_move], [undo_move] and [clear_best_score] can produce, the
    board has the side of the configuration and that side squared cells,
    each empty or a power of two from 2 on; the same holds for every grid
    in the history, which holds at most [MAX_HISTORY + 1] grids, as many
    scores as grids, and never the same grid twice in a row; and the
    session is on the start screen exactly when it has no player. *)
Theorem X27_session_invariant (g : Game2048.t) :
  reachable g →
  valid g
  ∧ length (GameBoard.board (Game2048.board g))
    = (Game2048.BOARD_SIZE g * Game2048.BOARD_SIZE g)%nat
  ∧ Forall (λ cells, length cells = (Game2048.BOARD_SIZE g * Game2048.BOARD_SIZE g)%nat)
      (GameHistory.board_history (Game2048.history g))
  ∧ length (GameHistory.board_history (Game2048.history g))
    = length (GameHistory.score_history (Game2048.history g)).
Proof.
  intros Hreach. pose proof (reachable_valid g Hreach) as Hvalid.
  destruct (reachable_sound g Hreach) as (Hgrid & _ & _ & Hstep & Hstored & _).
  destruct Hvalid as (Hsize & Hrest). rewrite Hsize in Hgrid, Hstored.
  split; [split; [exact Hsize|exact Hrest]|]. split; [apply Hgrid|].
  split; [|exact Hstep]. eapply Forall_impl; [exact Hstored|]. now intros cells [H _].
Qed.

Lemma X27_session_invariant_witness :
  valid session2
  ∧ length (GameBoard.board (Game2048.board session2)) = (2 * 2)%nat.
Proof.
  destruct (X27_session_invariant session2 session2_reachable) as (H1 & H2 & _).
  split; [exact H1|exact H2].
Defined.

(** ** HumanPlayer: the pending move *)

(** X28: the pending move of the human player is handed out once.  After
    [set_move] with a string that is not empty, [get_move] returns that
    string and forgets it, and the next [get_move] returns Up, the
    default, as does [get_move] on a new player.  The empty string counts
    as no move: [get_move] then returns Up and keeps the empty string. *)
Theorem X28_pending_move (self : HumanPlayer.t) (direction : string)
    (board board' : GameBoard.t) (score score' : Z) :
  let after_set := snd (HumanPlayer.set_move direction self) in
  let after_get := snd (HumanPlayer.get_move board score after_set) in
  fst (HumanPlayer.get_move board score HumanPlayer.__init__) = Ok "w"
  ∧ (direction ≠ "" →
     fst (HumanPlayer.get_move board score after_set) = Ok direction
     ∧ HumanPlayer.pending_move after_get = None
     ∧ HumanPlayer.get_move board' score' after_get = (Ok "w", after_get))
  ∧ (direction = "" →
     HumanPlayer.get_move board score after_set = (Ok "w", after_set)).
Proof.
  cbn zeta. unfold HumanPlayer.set_move, HumanPlayer.get_move. cbn [snd fst HumanPlayer.pending_move].
  split; [reflexivity|]. split.
  - intros Hne. rewrite decide_True by exact Hne. cbn. auto.
  - intros ->. reflexivity.
Qed.

Lemma X28_pending_move_witness :
  fst (HumanPlayer.get_move right_only_board 0
         (snd (HumanPlayer.set_move "a" HumanPlayer.__init__))) = Ok "a".
Proof.
  destruct (X28_pending_move HumanPlayer.__init__ "a" right_only_board right_only_board 0 0)
    as (_ & H & _).
  apply H. discriminate.
Defined.
